(** * Hex map editor: a shallow embedding of [hex_map_editor_tkinter.py]

    The development follows the layout of the program: folder-name
    heuristics, flat-top hex geometry, the data classes, [HexMap] with its
    save and load, [TileLibrary], and the event handlers of [App] that change
    the map or the camera.  Widget construction and drawing are left out:
    a handler is embedded up to its calls of [_rebuild_sidebar] and
    [_redraw], which change none of the attributes kept here, and where the
    source catches what the redraw raises the outcome of the redraw is an
    argument of the handler.

    Conventions.
    - A Python [int] is a [Z].  A Python [float] is a primitive binary64
      [float]; every arithmetic operation of the source is the corresponding
      IEEE operation, and the few builtins that are not primitive ([round],
      the conversion of an [int], [min], [max], [%]) are written out below
      from their CPython definition.
    - The rotation of an overlay is a [number], an [int] or a [float]: the
      editor starts it at the [int] 0 and a file can give either.
    - A Python [str] is a [string] holding its UTF-8 bytes.  Case folding,
      digits and blanks are the ASCII ones; the bullet and the middle dot of
      the ordinal prefix are their byte sequences.
    - A dictionary is a [gmap]; a Python list is a [list].  Where [save]
      writes the values of the tile dictionary, the order of insertion,
      which a [gmap] does not keep, is an argument.
    - What the file system and the dialogs answer is an argument of the
      method that asks.
    - Code that can raise runs in the monad [py]: a state transformer that
      returns either a value or the exception, together with the state as it
      is at that moment, so that a partial update is observable. *)

From Stdlib Require Import ZArith QArith Qabs Uint63 Floats Ascii String List Lia Bool.
From stdpp Require Import base option list gmap strings fin_maps sorting.

Set Warnings "-inexact-float".

Local Open Scope Z_scope.

(** ** Python values *)

Inductive exn : Type :=
| KeyError (key : string)
| ValueError
| OverflowError
| ZeroDivisionError
| OSError
| JSONDecodeError.

Inductive result (A : Type) : Type :=
| Ok (a : A)
| Raise (e : exn).
Arguments Ok {A} a.
Arguments Raise {A} e.

#[global] Instance result_ret : MRet result := fun A a => Ok a.
#[global] Instance result_bind : MBind result := fun A B k r =>
  match r with
  | Ok a => k a
  | Raise e => Raise e
  end.

(** ** Python floats *)

Module PyFloat.

Local Open Scope float_scope.

(** The exact value of a finite float is [m * 2^e]; [Prim2SF] gives the
    sign, [m] and [e]. *)

(** [float(n)] for an [int] [n], as the arithmetic operators apply it to an
    [int] operand: the nearest float, ties to even; an [int] too large for
    the format raises. *)
Definition of_int (n : Z) : result float :=
  match binary_normalize prec emax n 0%Z false with
  | S754_infinity _ => Raise OverflowError
  | sf => Ok (SF2Prim sf)
  end.

(** Rounding of the rational [n / d] ([d > 0]) to the nearest integer,
    ties to even. *)
Definition round_half_even (n d : Z) : Z :=
  let q := (n / d)%Z in
  let r := (n mod d)%Z in
  match (2 * r ?= d)%Z with
  | Lt => q
  | Gt => (q + 1)%Z
  | Eq => if Z.even q then q else (q + 1)%Z
  end.

(** The integer nearest to [m * 2^e], ties to even. *)
Definition nearest_int (m e : Z) : Z :=
  match e with
  | Z0 => m
  | Zpos _ => (m * 2 ^ e)%Z
  | Zneg p => round_half_even m (2 ^ Zpos p)
  end.

(** [round(x)] with one argument: an [int]. *)
Definition round_int (x : float) : result Z :=
  match Prim2SF x with
  | S754_nan => Raise ValueError
  | S754_infinity _ => Raise OverflowError
  | S754_zero _ => Ok 0%Z
  | S754_finite s m e =>
      let n := nearest_int (Zpos m) e in
      Ok (if s then (- n)%Z else n)
  end.

(** [round(x, 2)]: the decimal with two places nearest to the exact value
    of [x] (ties to even), converted back to the nearest float.  The sign
    is kept, also on a zero result; NaN and the infinities are returned
    unchanged. *)
Definition round2 (x : float) : float :=
  match Prim2SF x with
  | S754_finite s m e =>
      match e with
      | Zneg p =>
          match round_half_even (100 * Zpos m) (2 ^ Zpos p) with
          | Zpos n =>
              SF2Prim (SFdiv prec emax (S754_finite s n 0) (S754_finite false 100 0))
          | _ => SF2Prim (S754_zero s)
          end
      | _ => x
      end
  | _ => x
  end.

(** [min(a, b)] and [max(a, b)] of the builtins: the first argument is kept
    unless the second compares strictly below (above) it. *)
Definition py_min (a b : float) : float := if b <? a then b else a.
Definition py_max (a b : float) : float := if a <? b then b else a.

(** [x / y] raises on a zero divisor. *)
Definition py_div (x y : float) : result float :=
  if y =? 0 then Raise ZeroDivisionError else Ok (x / y).

(** C's [fmod(x, y)]: the exact remainder of [x / y] truncated, with the sign
    of [x].  With [x = mx * 2^ex] and [y = my * 2^ey] it is the remainder of
    two whole numbers at the smaller exponent, a value of the format. *)
Definition fmod (x y : float) : float :=
  match Prim2SF x, Prim2SF y with
  | S754_finite sx mx ex, S754_finite _ my ey =>
      let e := Z.min ex ey in
      let r := ((Zpos mx * 2 ^ (ex - e)) mod (Zpos my * 2 ^ (ey - e)))%Z in
      match r with
      | Z0 => SF2Prim (S754_zero sx)
      | _ => SF2Prim (binary_normalize prec emax (if sx then - r else r)%Z e false)
      end
  | S754_zero _, S754_finite _ _ _ => x
  | S754_zero _, S754_infinity _ => x
  | S754_finite _ _ _, S754_infinity _ => x
  | _, _ => nan
  end.

(** [x % y] on floats ([float_rem] of CPython): a zero divisor raises; a
    remainder that is not zero takes the sign of [y] by one addition of
    [y], which rounds; a zero remainder is the zero of the sign of [y]. *)
Definition py_mod (x y : float) : result float :=
  if y =? 0 then Raise ZeroDivisionError
  else
    let m := fmod x y in
    Ok (if m =? 0 then (if y <? 0 then -0 else 0)
        else if xorb (y <? 0) (m <? 0) then m + y else m).

(** [x ** 2]: the square; a finite operand whose square is out of range
    raises. *)
Definition py_sq (x : float) : result float :=
  let y := x * x in
  if is_infinity y && negb (is_infinity x) then Raise OverflowError else Ok y.

End PyFloat.

(** A [for] loop whose body can raise: the loop variable runs over [xs], the
    body updates the loop state, and the first exception ends the loop. *)
Fixpoint for_each {A S : Type} (xs : list A) (body : A -> S -> result S) (s : S)
  : result S :=
  match xs with
  | [] => Ok s
  | x :: xs' => s' ← body x s; for_each xs' body s'
  end.

(** ** Python strings *)

Module PyStr.

Local Open Scope string_scope.

Definition is_digit (c : ascii) : bool :=
  let n := nat_of_ascii c in (48 <=? n)%nat && (n <=? 57)%nat.

Definition is_space (c : ascii) : bool :=
  let n := nat_of_ascii c in
  ((9 <=? n)%nat && (n <=? 13)%nat) || ((28 <=? n)%nat && (n <=? 32)%nat).

Definition lower_char (c : ascii) : ascii :=
  let n := nat_of_ascii c in
  if (65 <=? n)%nat && (n <=? 90)%nat then ascii_of_nat (n + 32) else c.

(** [s.lower()] *)
Fixpoint lower (s : string) : string :=
  match s with
  | EmptyString => EmptyString
  | String c s' => String (lower_char c) (lower s')
  end.

(** [s.startswith(p)] *)
Definition startswith (s p : string) : bool := String.prefix p s.

(** [s[n:]] and [s[:n]] for [0 <= n] *)
Fixpoint drop (n : nat) (s : string) : string :=
  match n, s with
  | O, _ => s
  | S n', String _ s' => drop n' s'
  | S _, EmptyString => EmptyString
  end.

Fixpoint take (n : nat) (s : string) : string :=
  match n, s with
  | O, _ => EmptyString
  | S n', String c s' => String c (take n' s')
  | S _, EmptyString => EmptyString
  end.

(** [s.endswith(p)] *)
Definition endswith (s p : string) : bool :=
  (String.length p <=? String.length s)%nat
  && String.eqb (drop (String.length s - String.length p) s) p.

(** [k in s] *)
Fixpoint contains (k s : string) : bool :=
  String.prefix k s
  || match s with
     | EmptyString => false
     | String _ s' => contains k s'
     end.

Fixpoint lstrip (s : string) : string :=
  match s with
  | String c s' => if is_space c then lstrip s' else s
  | EmptyString => EmptyString
  end.

Fixpoint rstrip (s : string) : string :=
  match s with
  | EmptyString => EmptyString
  | String c s' =>
      match rstrip s' with
      | EmptyString => if is_space c then EmptyString else String c EmptyString
      | t => String c t
      end
  end.

(** [s.strip()] *)
Definition strip (s : string) : string := rstrip (lstrip s).

End PyStr.

(** ** Colours and constants *)

Definition HEX_SIZE_DEFAULT : Z := 60.
Definition MIN_HEX_SIZE : Z := 20.
Definition MAX_HEX_SIZE : Z := 160.
Definition ROTATIONS : Z := 6.
Definition OVERLAY_SCALE_DEFAULT : float := 0.5%float.

(** ** Realm Brew folder detection *)

Section FolderDetection.

Import PyStr.
Local Open Scope string_scope.

(** The two marks [[•·]] of the ordinal prefix. *)
Definition bullet : string := "•".
Definition middle_dot : string := "·".

(** [re.sub(r"^\d\s*[•·]\s*", "", folder_name)]: the pattern is anchored at
    the start, so at most one match is removed; when it does not match the
    name is returned unchanged. *)
Definition strip_ordinal (folder_name : string) : string :=
  match folder_name with
  | String d rest =>
      if is_digit d then
        let rest := lstrip rest in
        if startswith rest bullet then lstrip (drop (String.length bullet) rest)
        else if startswith rest middle_dot
             then lstrip (drop (String.length middle_dot) rest)
             else folder_name
      else folder_name
  | EmptyString => folder_name
  end.

(** [for strip in prefixes: if name.startswith(strip): name = name[len(strip):]; break] *)
Fixpoint strip_first_prefix (prefixes : list string) (name : string) : string :=
  match prefixes with
  | [] => name
  | p :: ps =>
      if startswith name p then drop (String.length p) name
      else strip_first_prefix ps name
  end.

(** [for suffix in suffixes: if name.endswith(suffix): name = name[:-len(suffix)]; break] *)
Fixpoint strip_first_suffix (suffixes : list string) (name : string) : string :=
  match suffixes with
  | [] => name
  | p :: ps =>
      if endswith name p then take (String.length name - String.length p) name
      else strip_first_suffix ps name
  end.

Definition _clean_display_name (folder_name : string) : string :=
  let name := strip_ordinal folder_name in
  let name := strip_first_prefix ["Realm Brew - "; "Realm Brew "] name in
  let name := strip_first_suffix
                [" - Digital Tiles"; " - Digital Overlays";
                 " Digital Tiles"; " Digital Overlays";
                 " Tiles"; " Overlays"] name in
  strip name.

Definition _is_overlay_folder (name : string) : bool :=
  contains "overlay" (lower name).

Definition tile_keywords : list string :=
  ["tile"; "dungeon"; "river"; "cavern"; "subterranean"; "underdark"].

Definition _is_tile_folder (name : string) : bool :=
  let low := lower name in
  existsb (fun k => contains k low) tile_keywords.

End FolderDetection.

(** ** Hex math (flat-top) *)

Section HexMath.

Import PyFloat.
Local Open Scope float_scope.

Definition sqrt3 : float := Eval vm_compute in sqrt 3.

Definition hex_to_pixel (col row size : Z) : result (float * float) :=
  fsize ← of_int size;
  fcol ← of_int col;
  par ← of_int (Z.land col 1);
  frow ← of_int row;
  Ok (fsize * 1.5 * fcol, fsize * sqrt3 * (frow + 0.5 * par)).

(** The body of the two nested loops of [pixel_to_hex], for one [dc] and
    one [dr]; the loop state is [(best, best_d)]. *)
Definition candidate (px py : float) (size col : Z) (dc dr : Z)
    (st : (Z * Z) * float) : result ((Z * Z) * float) :=
  let '(best, best_d) := st in
  let c := (col + dc)%Z in
  fsize ← of_int size;
  par ← of_int (Z.land c 1);
  q ← py_div py (fsize * sqrt3);
  r0 ← round_int (q - 0.5 * par);
  let r := (r0 + dr)%Z in
  '(hx, hy) ← hex_to_pixel c r size;
  dx2 ← py_sq (px - hx);
  dy2 ← py_sq (py - hy);
  let d := dx2 + dy2 in
  Ok (if d <? best_d then ((c, r), d) else (best, best_d)).

Definition pixel_to_hex (px py : float) (size : Z) : result (Z * Z) :=
  fsize ← of_int size;
  q ← py_div px (fsize * 1.5);
  col ← round_int q;
  st ← for_each [-1; 0; 1]%Z
        (fun dc st =>
           for_each [-2; -1; 0; 1; 2]%Z
             (fun dr st => candidate px py size col dc dr st) st)
        ((col, 0%Z), infinity);
  Ok (fst st).

End HexMath.

(** ** Methods that change an object and can raise *)

(** A method of an object of type [S]: it returns a value or raises, and in
    both cases leaves the object as the statements executed so far have made
    it. *)
Definition py (S A : Type) : Type := S -> result A * S.

#[global] Instance py_ret {S} : MRet (py S) := fun A a s => (Ok a, s).
#[global] Instance py_bind {S} : MBind (py S) := fun A B k m s =>
  match m s with
  | (Ok a, s') => k a s'
  | (Raise e, s') => (Raise e, s')
  end.

(** An expression without side effects inside a method. *)
Definition eval {S A} (r : result A) : py S A := fun s => (r, s).

(** An attribute assignment [self.x = v], given as the update of the object. *)
Definition assign {S} (f : S -> S) : py S unit := fun s => (Ok tt, f s).

Definition read {S} : py S S := fun s => (Ok s, s).

(** ** Data classes *)

Record TileInfo := mkTileInfo {
  ti_path : string;
  ti_category : string;
  ti_display_category : string
}.

Record OverlayInfo := mkOverlayInfo {
  oi_path : string;
  oi_category : string;
  oi_display_category : string
}.

Record PlacedTile := mkPlacedTile {
  tile_col : Z;
  tile_row : Z;
  tile_path : string;
  tile_category : string;
  tile_rotation : Z
}.

(** A number as JSON has it and as an attribute holds it: [45] is an
    [int], [45.0] and [0.1] are [float]s. *)
Inductive number : Type :=
| Int (n : Z)
| Float (x : float).

Record PlacedOverlay := mkPlacedOverlay {
  ov_col : Z;
  ov_row : Z;
  ov_path : string;
  ov_offset_x : float;
  ov_offset_y : float;
  ov_rotation : number;
  ov_scale : float
}.

(** [PlacedOverlay(col, row, path)] with the defaults of the constructor. *)
Definition new_overlay (col row : Z) (path : string) : PlacedOverlay :=
  mkPlacedOverlay col row path 0%float 0%float (Int 0) OVERLAY_SCALE_DEFAULT.

(** ** The persisted document *)

(** The JSON document of a map, with the field types of the file format.  A
    field is [None] when its key is absent from the JSON object. *)
Record tile_entry := mkTileEntry {
  te_col : option Z;
  te_row : option Z;
  te_path : option string;
  te_category : option string;
  te_rotation : option Z
}.

Record overlay_entry := mkOverlayEntry {
  oe_col : option Z;
  oe_row : option Z;
  oe_path : option string;
  oe_offset_x : option float;
  oe_offset_y : option float;
  oe_rotation : option number;
  oe_scale : option float
}.

Record document := mkDocument {
  doc_tiles : option (list tile_entry);
  doc_overlays : option (list overlay_entry)
}.

(** What a path of the file system holds: text that is not JSON, or a JSON
    document of the format above.  A path that is not in the map cannot be
    opened for reading.  Files of other kinds (bytes that are not text, JSON
    of another shape) are outside this model. *)
Inductive file : Type :=
| NotJson
| Json (d : document).

Abbreviation disk := (gmap string file).

(** [with open(path) as f: data = json.load(f)] *)
Definition json_load (fs : disk) (path : string) : result document :=
  match fs !! path with
  | None => Raise OSError
  | Some NotJson => Raise JSONDecodeError
  | Some (Json d) => Ok d
  end.

(** [d[key]] and [d.get(key, dflt)] on a JSON object. *)
Definition item {A} (key : string) (field : option A) : result A :=
  match field with
  | Some a => Ok a
  | None => Raise (KeyError key)
  end.

Definition get {A} (field : option A) (dflt : A) : A :=
  match field with
  | Some a => a
  | None => dflt
  end.

(** ** HexMap *)

Record HexMap := mkHexMap {
  tiles : gmap (Z * Z) PlacedTile;
  overlays : list PlacedOverlay;
  filepath : option string
}.

Definition HexMap_init : HexMap := mkHexMap ∅ [] None.

Definition set_tiles (v : gmap (Z * Z) PlacedTile) (self : HexMap) : HexMap :=
  mkHexMap v (overlays self) (filepath self).
Definition set_overlays (v : list PlacedOverlay) (self : HexMap) : HexMap :=
  mkHexMap (tiles self) v (filepath self).
Definition set_filepath (v : option string) (self : HexMap) : HexMap :=
  mkHexMap (tiles self) (overlays self) v.

Section SaveLoad.

Local Open Scope string_scope.

Definition tile_to_json (t : PlacedTile) : tile_entry :=
  mkTileEntry (Some (tile_col t)) (Some (tile_row t)) (Some (tile_path t))
              (Some (tile_category t)) (Some (tile_rotation t)).

Definition overlay_to_json (o : PlacedOverlay) : overlay_entry :=
  mkOverlayEntry (Some (ov_col o)) (Some (ov_row o)) (Some (ov_path o))
                 (Some (ov_offset_x o)) (Some (ov_offset_y o))
                 (Some (ov_rotation o)) (Some (ov_scale o)).

(** The items of [l] in the order that [order] picks: each number of
    [order] in turn takes the item at that position, counted modulo the
    length, out of what is left; what is left at the end follows as it is. *)
Fixpoint yield {A} (order : list nat) (l : list A) : list A :=
  match order with
  | [] => l
  | n :: order' =>
      let i := (n mod length l)%nat in
      match l !! i with
      | Some x => x :: yield order' (delete i l)
      | None => l
      end
  end.

(** [self.tiles.values()]: the tiles in the order in which their hexes were
    first filled, given by [order].  Whatever [order] is, these are the
    tiles of the map, each once ([yield_Permutation] below), and every
    order of them is the one some [order] picks ([yield_any_order]). *)
Definition values (order : list nat) (self : HexMap) : list PlacedTile :=
  yield order (snd <$> map_to_list (tiles self)).

(** The dictionary [data] that [save] builds: the values of [self.tiles]
    and the overlays in order. *)
Definition to_document (order : list nat) (self : HexMap) : document :=
  mkDocument (Some (tile_to_json <$> values order self))
             (Some (overlay_to_json <$> overlays self)).

(** What the file system does when [save] writes: the file opens and the
    whole text is written; or [open(path, "w")] raises; or the file opens,
    which empties it, and a write raises before the text is complete. *)
Inductive writing : Type :=
| written
| refused
| cut_short.

(** [HexMap.save], given what the file system does: when the text is
    written, [filepath] is set; when [open] raises nothing is written or
    set; when a write raises the file is left with text that is not JSON
    and [filepath] is not set. *)
Definition save (w : writing) (order : list nat) (path : string)
  : py (HexMap * disk) unit :=
  '(self, fs) ← read;
  let data := to_document order self in
  match w with
  | written =>
      assign (fun '(self, fs) => (self, <[path := Json data]> fs));;
      assign (fun '(self, fs) => (set_filepath (Some path) self, fs))
  | refused => eval (Raise OSError)
  | cut_short =>
      assign (fun '(self, fs) => (self, <[path := NotJson]> fs));;
      eval (Raise OSError)
  end.

(** One item of the dict comprehension of [load]: the key, then the
    arguments of [PlacedTile] from left to right. *)
Definition tile_of_json (t : tile_entry) : result ((Z * Z) * PlacedTile) :=
  kc ← item "col" (te_col t);
  kr ← item "row" (te_row t);
  c ← item "col" (te_col t);
  r ← item "row" (te_row t);
  p ← item "path" (te_path t);
  Ok ((kc, kr), mkPlacedTile c r p (get (te_category t) "") (get (te_rotation t) 0)).

Definition overlay_of_json (o : overlay_entry) : result PlacedOverlay :=
  c ← item "col" (oe_col o);
  r ← item "row" (oe_row o);
  p ← item "path" (oe_path o);
  Ok (mkPlacedOverlay c r p (get (oe_offset_x o) 0%float) (get (oe_offset_y o) 0%float)
                      (get (oe_rotation o) (Int 0)) (get (oe_scale o) OVERLAY_SCALE_DEFAULT)).

(** The dict comprehension: items are stored in order, a later item with
    the key of an earlier one replaces it. *)
Definition tiles_of_json (ts : list tile_entry) : result (gmap (Z * Z) PlacedTile) :=
  for_each ts (fun t m => '(k, v) ← tile_of_json t; Ok (<[k := v]> m)) ∅.

(** The list comprehension. *)
Fixpoint overlays_of_json (os : list overlay_entry) : result (list PlacedOverlay) :=
  match os with
  | [] => Ok []
  | o :: os' =>
      v ← overlay_of_json o;
      vs ← overlays_of_json os';
      Ok (v :: vs)
  end.

(** [HexMap.load] *)
Definition load (fs : disk) (path : string) : py HexMap unit :=
  data ← eval (json_load fs path);
  new_tiles ← eval (tiles_of_json (get (doc_tiles data) []));
  assign (set_tiles new_tiles);;
  new_overlays ← eval (overlays_of_json (get (doc_overlays data) []));
  assign (set_overlays new_overlays);;
  assign (set_filepath (Some path)).

End SaveLoad.

(** ** Library *)

(** One entry of the root folder as [Path.iterdir] yields it: its name,
    whether it is a directory, and the names of the entries inside it. *)
Record dir_entry := mkDirEntry {
  name : string;
  is_dir : bool;
  children : list string
}.

Record TileLibrary := mkTileLibrary {
  categories : gmap string (list TileInfo);
  overlay_categories : gmap string (list OverlayInfo)
}.

Section Library.

Import PyStr.
Local Open Scope string_scope.

(** Code-point order on names, which is the byte order of the UTF-8 form. *)
Definition name_le (a b : string) : Prop := String.leb a b = true.
Definition entry_le (a b : dir_entry) : Prop := name_le (name a) (name b).

#[local] Instance name_le_dec : RelDecision name_le.
Proof. intros a b. unfold name_le. apply _. Defined.
#[local] Instance entry_le_dec : RelDecision entry_le.
Proof. intros a b. unfold entry_le. apply _. Defined.

(** [sorted(...)] *)
Definition sorted (l : list string) : list string := merge_sort name_le l.
Definition sorted_entries (l : list dir_entry) : list dir_entry := merge_sort entry_le l.

(** [d.glob("*.png")], as names inside [d]. *)
Definition glob_png (d : dir_entry) : list string :=
  List.filter (fun f => endswith f ".png") (children d).

(** [Path(root) / d / p] as text. *)
Definition join (root d p : string) : string := root ++ "/" ++ d ++ "/" ++ p.

(** The body of the loop of [TileLibrary.load] for one entry [d]. *)
Definition load_entry (root : string) (lib : TileLibrary) (d : dir_entry) : TileLibrary :=
  if negb (is_dir d) then lib
  else
    let pngs := sorted (glob_png d) in
    match pngs with
    | [] => lib
    | _ =>
        let display := _clean_display_name (name d) in
        if _is_overlay_folder (name d) then
          mkTileLibrary (categories lib)
            (<[display := (fun p => mkOverlayInfo (join root (name d) p) (name d) display) <$> pngs]>
               (overlay_categories lib))
        else
          mkTileLibrary
            (<[display := (fun p => mkTileInfo (join root (name d) p) (name d) display) <$> pngs]>
               (categories lib))
            (overlay_categories lib)
    end.

(** [bool(d)] of a dictionary. *)
Definition nonempty {A} (m : gmap string A) : bool := negb (bool_decide (m = ∅)).

(** [TileLibrary.load(root)], given the entries of [root]: the library it
    leaves and the value it returns. *)
Definition TileLibrary_load (root : string) (entries : list dir_entry)
  : TileLibrary * bool :=
  let lib := foldl (load_entry root) (mkTileLibrary ∅ ∅) (sorted_entries entries) in
  (lib, nonempty (categories lib) || nonempty (overlay_categories lib)).

End Library.

(** ** Application *)

Inductive mode_t : Type := view | place_tile | place_overlay.

#[global] Instance mode_eq_dec : EqDecision mode_t.
Proof. solve_decision. Defined.

(** A message box shown to the user. *)
Inductive dialog : Type :=
| showwarning (title : string)
| showerror (title : string) (e : exn).

(** The attributes of [App] that the handlers below read or write.  The
    widgets, the status line and the photo references are left out. *)
Record App := mkApp {
  library : TileLibrary;
  hex_map : HexMap;
  hex_size : Z;
  cam_x : float;
  cam_y : float;
  mode : mode_t;
  selected_hex : option (Z * Z);
  sel_category : option string;
  sel_tile_idx : option nat;
  placement_rot : Z;
  sel_ov_category : option string;
  sel_overlay_idx : option nat;
  selected_ov_idx : option nat;
  _drag_ov_idx : option nat;
  _drag_ov_offset : float * float;
  dialogs : list dialog
}.

Definition set_hex_map (v : HexMap) (a : App) : App :=
  mkApp (library a) v (hex_size a) (cam_x a) (cam_y a) (mode a) (selected_hex a)
        (sel_category a) (sel_tile_idx a) (placement_rot a) (sel_ov_category a)
        (sel_overlay_idx a) (selected_ov_idx a) (_drag_ov_idx a) (_drag_ov_offset a)
        (dialogs a).
Definition set_hex_size (v : Z) (a : App) : App :=
  mkApp (library a) (hex_map a) v (cam_x a) (cam_y a) (mode a) (selected_hex a)
        (sel_category a) (sel_tile_idx a) (placement_rot a) (sel_ov_category a)
        (sel_overlay_idx a) (selected_ov_idx a) (_drag_ov_idx a) (_drag_ov_offset a)
        (dialogs a).
Definition set_cam_x (v : float) (a : App) : App :=
  mkApp (library a) (hex_map a) (hex_size a) v (cam_y a) (mode a) (selected_hex a)
        (sel_category a) (sel_tile_idx a) (placement_rot a) (sel_ov_category a)
        (sel_overlay_idx a) (selected_ov_idx a) (_drag_ov_idx a) (_drag_ov_offset a)
        (dialogs a).
Definition set_cam_y (v : float) (a : App) : App :=
  mkApp (library a) (hex_map a) (hex_size a) (cam_x a) v (mode a) (selected_hex a)
        (sel_category a) (sel_tile_idx a) (placement_rot a) (sel_ov_category a)
        (sel_overlay_idx a) (selected_ov_idx a) (_drag_ov_idx a) (_drag_ov_offset a)
        (dialogs a).
Definition set_selected_hex (v : option (Z * Z)) (a : App) : App :=
  mkApp (library a) (hex_map a) (hex_size a) (cam_x a) (cam_y a) (mode a) v
        (sel_category a) (sel_tile_idx a) (placement_rot a) (sel_ov_category a)
        (sel_overlay_idx a) (selected_ov_idx a) (_drag_ov_idx a) (_drag_ov_offset a)
        (dialogs a).
Definition set_selected_ov_idx (v : option nat) (a : App) : App :=
  mkApp (library a) (hex_map a) (hex_size a) (cam_x a) (cam_y a) (mode a) (selected_hex a)
        (sel_category a) (sel_tile_idx a) (placement_rot a) (sel_ov_category a)
        (sel_overlay_idx a) v (_drag_ov_idx a) (_drag_ov_offset a)
        (dialogs a).
Definition set_drag_ov_idx (v : option nat) (a : App) : App :=
  mkApp (library a) (hex_map a) (hex_size a) (cam_x a) (cam_y a) (mode a) (selected_hex a)
        (sel_category a) (sel_tile_idx a) (placement_rot a) (sel_ov_category a)
        (sel_overlay_idx a) (selected_ov_idx a) v (_drag_ov_offset a)
        (dialogs a).
Definition set_drag_ov_offset (v : float * float) (a : App) : App :=
  mkApp (library a) (hex_map a) (hex_size a) (cam_x a) (cam_y a) (mode a) (selected_hex a)
        (sel_category a) (sel_tile_idx a) (placement_rot a) (sel_ov_category a)
        (sel_overlay_idx a) (selected_ov_idx a) (_drag_ov_idx a) v
        (dialogs a).
Definition show (d : dialog) (a : App) : App :=
  mkApp (library a) (hex_map a) (hex_size a) (cam_x a) (cam_y a) (mode a) (selected_hex a)
        (sel_category a) (sel_tile_idx a) (placement_rot a) (sel_ov_category a)
        (sel_overlay_idx a) (selected_ov_idx a) (_drag_ov_idx a) (_drag_ov_offset a)
        (d :: dialogs a).

(** [App.__init__], before a folder is opened. *)
Definition App_init : App :=
  mkApp (mkTileLibrary ∅ ∅) HexMap_init HEX_SIZE_DEFAULT 550%float 380%float view
        None None None 0 None None None None (0%float, 0%float) [].

Definition set_library (v : TileLibrary) (a : App) : App :=
  mkApp v (hex_map a) (hex_size a) (cam_x a) (cam_y a) (mode a) (selected_hex a)
        (sel_category a) (sel_tile_idx a) (placement_rot a) (sel_ov_category a)
        (sel_overlay_idx a) (selected_ov_idx a) (_drag_ov_idx a) (_drag_ov_offset a)
        (dialogs a).
Definition set_mode (v : mode_t) (a : App) : App :=
  mkApp (library a) (hex_map a) (hex_size a) (cam_x a) (cam_y a) v (selected_hex a)
        (sel_category a) (sel_tile_idx a) (placement_rot a) (sel_ov_category a)
        (sel_overlay_idx a) (selected_ov_idx a) (_drag_ov_idx a) (_drag_ov_offset a)
        (dialogs a).
Definition set_sel_tile (cat : option string) (idx : option nat) (a : App) : App :=
  mkApp (library a) (hex_map a) (hex_size a) (cam_x a) (cam_y a) (mode a) (selected_hex a)
        cat idx (placement_rot a) (sel_ov_category a)
        (sel_overlay_idx a) (selected_ov_idx a) (_drag_ov_idx a) (_drag_ov_offset a)
        (dialogs a).
Definition set_placement_rot (v : Z) (a : App) : App :=
  mkApp (library a) (hex_map a) (hex_size a) (cam_x a) (cam_y a) (mode a) (selected_hex a)
        (sel_category a) (sel_tile_idx a) v (sel_ov_category a)
        (sel_overlay_idx a) (selected_ov_idx a) (_drag_ov_idx a) (_drag_ov_offset a)
        (dialogs a).

(** The truth value of an optional string: [None] and [""] are false. *)
Definition truthy (s : option string) : option string :=
  match s with
  | Some EmptyString => None
  | _ => s
  end.

Section Handlers.

Import PyFloat.
Local Open Scope float_scope.

(** [int(x)] of a float: towards zero. *)
Definition int_of_float (x : float) : result Z :=
  match Prim2SF x with
  | S754_nan => Raise ValueError
  | S754_infinity _ => Raise OverflowError
  | S754_zero _ => Ok 0%Z
  | S754_finite s m e =>
      let n := match e with
               | Zneg p => (Zpos m / 2 ^ Zpos p)%Z
               | _ => (Zpos m * 2 ^ e)%Z
               end in
      Ok (if s then (- n)%Z else n)
  end.

(** [x <= n] for a float and an [int]: the comparison of the exact values. *)
Definition float_le_int (x : float) (n : Z) : bool :=
  match Prim2SF x with
  | S754_nan => false
  | S754_infinity s => s
  | S754_zero _ => (0 <=? n)%Z
  | S754_finite s m e =>
      let v := if s then Zneg m else Zpos m in
      match e with
      | Zneg p => (v <=? n * 2 ^ Zpos p)%Z
      | _ => (v * 2 ^ e <=? n)%Z
      end
  end.

(** [a / b] on two [int]s: the float nearest to the quotient. *)
Definition int_true_div (a b : Z) : result float :=
  match b with
  | Z0 => Raise ZeroDivisionError
  | _ =>
      let sb := (b <? 0)%Z in
      match a with
      | Z0 => Ok (SF2Prim (S754_zero sb))
      | _ =>
          match SFdiv prec emax (S754_finite (a <? 0)%Z (Z.to_pos (Z.abs a)) 0)
                                    (S754_finite sb (Z.to_pos (Z.abs b)) 0) with
          | S754_infinity _ => Raise OverflowError
          | q => Ok (SF2Prim q)
          end
      end
  end.

Definition _to_hex (self : App) (ex ey : Z) : result (Z * Z) :=
  fx ← of_int ex;
  fy ← of_int ey;
  pixel_to_hex (fx - cam_x self) (fy - cam_y self) (hex_size self).

(** [_overlay_hit]: the overlays are tried from the last to the first; [i]
    is the index of the head of [rev_ovs], the overlays in reverse. *)
Fixpoint overlay_hit_from (self : App) (ex ey : Z) (rev_ovs : list PlacedOverlay)
    (i : nat) : result (option nat) :=
  match rev_ovs with
  | [] => Ok None
  | ov :: rest =>
      '(hx, hy) ← hex_to_pixel (ov_col ov) (ov_row ov) (hex_size self);
      let cx := cam_x self + hx + ov_offset_x ov in
      let cy := cam_y self + hy + ov_offset_y ov in
      fsize ← of_int (hex_size self);
      hw ← int_of_float (fsize * ov_scale ov * 1.2);
      fx ← of_int ex;
      inside ←
        (if float_le_int (abs (fx - cx)) hw
         then fy ← of_int ey; Ok (float_le_int (abs (fy - cy)) hw)
         else Ok false);
      if inside : bool then Ok (Some i)
      else overlay_hit_from self ex ey rest (Nat.pred i)
  end.

Definition _overlay_hit (self : App) (ex ey : Z) : result (option nat) :=
  let ovs := overlays (hex_map self) in
  overlay_hit_from self ex ey (rev ovs) (Nat.pred (length ovs)).

(** [_on_click] while [mode == "place_overlay"], up to the calls of
    [_rebuild_sidebar] and [_redraw] that end each branch. *)
Definition click_overlay (ex ey col row : Z) : py App unit :=
  self ← read;
  hit ← eval (_overlay_hit self ex ey);
  match hit with
  | Some i =>
      assign (set_selected_ov_idx (Some i));;
      assign (set_drag_ov_idx (Some i));;
      match overlays (hex_map self) !! i with
      | None => mret tt (* not reached: [_overlay_hit] returns an index of the list *)
      | Some ov =>
          '(hx, hy) ← eval (hex_to_pixel (ov_col ov) (ov_row ov) (hex_size self));
          fx ← eval (of_int ex);
          fy ← eval (of_int ey);
          assign (set_drag_ov_offset
                    (fx - (cam_x self + hx) - ov_offset_x ov,
                     fy - (cam_y self + hy) - ov_offset_y ov))
      end
  | None =>
      match sel_overlay_idx self, truthy (sel_ov_category self) with
      | Some idx, Some cat =>
          let ovs := get (overlay_categories (library self) !! cat) [] in
          match ovs !! idx with
          | Some info =>
              let hm := hex_map self in
              let new := overlays hm ++ [new_overlay col row (oi_path info)] in
              assign (set_hex_map (set_overlays new hm));;
              assign (set_selected_ov_idx (Some (Nat.pred (length new))))
          | None => mret tt
          end
      | _, _ => mret tt
      end
  end.

(** [_on_click] in the other modes, up to the same two calls. *)
Definition click_tile (col row : Z) : py App unit :=
  assign (set_selected_hex (Some (col, row)));;
  self ← read;
  match mode self, sel_tile_idx self, truthy (sel_category self) with
  | place_tile, Some idx, Some cat =>
      let ts := get (categories (library self) !! cat) [] in
      match ts !! idx with
      | Some t =>
          let hm := hex_map self in
          let placed := mkPlacedTile col row (ti_path t) cat (placement_rot self) in
          assign (set_hex_map (set_tiles (<[(col, row) := placed]> (tiles hm)) hm))
      | None => mret tt
      end
  | _, _, _ => mret tt
  end.

(** The outcome is that of the statements before the redraw: [Ok] says
    that these have all run, not that the redraw returns. *)
Definition _on_click (ex ey : Z) : py App unit :=
  self ← read;
  '(col, row) ← eval (_to_hex self ex ey);
  if decide (mode self = place_overlay)
  then click_overlay ex ey col row
  else click_tile col row.

(** [_zoom] up to its last statement, the call of [_redraw]; the outcome
    is that of the statements before it. *)
Definition _zoom (direction : Z) (ex ey : Z) : py App unit :=
  self ← read;
  let old := hex_size self in
  let new := Z.max MIN_HEX_SIZE (Z.min MAX_HEX_SIZE (hex_size self + direction * 5)) in
  assign (set_hex_size new);;
  scale ← eval (int_true_div new old);
  fx ← eval (of_int ex);
  assign (set_cam_x (fx - scale * (fx - cam_x self)));;
  fy ← eval (of_int ey);
  assign (set_cam_y (fy - scale * (fy - cam_y self))).

(** [(rotation + delta) % 360] with [delta] an [int]: on an [int] the
    remainder of the floor division, on a [float] the sum and the remainder
    of binary64, after the conversion of [delta]. *)
Definition rotate_by (delta : Z) (rotation : number) : result number :=
  match rotation with
  | Int n => Ok (Int ((n + delta) mod 360)%Z)
  | Float x =>
      fdelta ← of_int delta;
      r ← py_mod (x + fdelta) 360;
      Ok (Float r)
  end.

(** [ov.rotation = (ov.rotation + delta) % 360]: the overlay after the
    assignment, or as it was when the right-hand side raised. *)
Definition rotated (delta : Z) (ov : PlacedOverlay) : PlacedOverlay :=
  match rotate_by delta (ov_rotation ov) with
  | Ok r =>
      mkPlacedOverlay (ov_col ov) (ov_row ov) (ov_path ov) (ov_offset_x ov)
                      (ov_offset_y ov) r (ov_scale ov)
  | Raise _ => ov
  end.

(** [ov.scale = round(max(0.1, min(5.0, ov.scale + delta)), 2)] *)
Definition new_scale (scale delta : float) : float :=
  round2 (py_max 0.1 (py_min 5.0 (scale + delta))).

Definition scaled (delta : float) (ov : PlacedOverlay) : PlacedOverlay :=
  mkPlacedOverlay (ov_col ov) (ov_row ov) (ov_path ov) (ov_offset_x ov) (ov_offset_y ov)
                  (ov_rotation ov) (new_scale (ov_scale ov) delta).

(** The guard [self.selected_ov_idx is not None and self.selected_ov_idx <
    len(self.hex_map.overlays)] followed by an update of that overlay. *)
Definition with_selected_overlay (f : PlacedOverlay -> PlacedOverlay) (self : App) : App :=
  match selected_ov_idx self with
  | Some i =>
      match overlays (hex_map self) !! i with
      | Some ov =>
          set_hex_map (set_overlays (<[i := f ov]> (overlays (hex_map self))) (hex_map self))
                      self
      | None => self
      end
  | None => self
  end.

Definition _rotate_overlay (delta : Z) (self : App) : App :=
  with_selected_overlay (rotated delta) self.

Definition _scale_overlay (delta : float) (self : App) : App :=
  with_selected_overlay (scaled delta) self.

(** [_load_map], given the answer of the file dialog and the outcome of
    the redraw, which runs inside the [try] when [load] has returned. *)
Definition _load_map (fs : disk) (chosen : option string) (redraw : result unit)
    (self : App) : App :=
  match truthy chosen with
  | None => self
  | Some path =>
      match load fs path (hex_map self) with
      | (Ok _, hm) =>
          match redraw with
          | Ok _ => set_hex_map hm self
          | Raise e => show (showerror "Load error" e) (set_hex_map hm self)
          end
      | (Raise e, hm) => show (showerror "Load error" e) (set_hex_map hm self)
      end
  end.

End Handlers.

(** * Properties *)

(** ** Folder names and the library *)

Section LibraryFacts.

Local Open Scope string_scope.

Definition forest_folder : string := "1 • Realm Brew - Forest Tiles".
Definition magic_folder : string := "Magic Overlays".

(** A root folder holding the two folders of the scenarios, one image each. *)
Definition bundle : list dir_entry :=
  [ mkDirEntry magic_folder true ["rune.png"];
    mkDirEntry forest_folder true ["oak.png"] ].

(** An entry counts for [TileLibrary.load] when it is a directory with at
    least one [*.png] inside. *)
Definition qualifies (d : dir_entry) : bool :=
  is_dir d && negb (bool_decide (glob_png d = [])).

Lemma sorted_nil_inv (l : list string) : sorted l = [] -> l = [].
Proof.
  intros H. apply Permutation_nil_r. rewrite <- H. unfold sorted.
  symmetry. apply merge_sort_Permutation.
Qed.

Lemma load_entry_tiles_mono root lib d k :
  is_Some (categories lib !! k) -> is_Some (categories (load_entry root lib d) !! k).
Proof.
  intros Hk. unfold load_entry.
  destruct (negb (is_dir d)); [done|].
  destruct (sorted (glob_png d)); [done|].
  destruct (_is_overlay_folder (name d)); simpl; [done|].
  destruct (decide (_clean_display_name (name d) = k)) as [->|Hne].
  - rewrite lookup_insert_eq. eauto.
  - by rewrite lookup_insert_ne.
Qed.

Lemma foldl_load_entry_mono root ds : forall lib k,
  is_Some (categories lib !! k) ->
  is_Some (categories (foldl (load_entry root) lib ds) !! k).
Proof.
  induction ds as [|d ds IH]; intros lib k Hk; simpl; [done|].
  apply IH. by apply load_entry_tiles_mono.
Qed.

Lemma load_entry_adds_tiles root lib d :
  qualifies d = true -> _is_overlay_folder (name d) = false ->
  is_Some (categories (load_entry root lib d) !! _clean_display_name (name d)).
Proof.
  unfold qualifies, load_entry. intros Hq Hov.
  apply andb_prop in Hq as [Hdir Hpng]. rewrite Hdir. simpl.
  destruct (sorted (glob_png d)) eqn:Hs.
  - apply sorted_nil_inv in Hs. rewrite Hs in Hpng.
    by rewrite bool_decide_eq_true_2 in Hpng.
  - rewrite Hov. simpl. rewrite lookup_insert_eq. eauto.
Qed.

Lemma foldl_load_entry_adds root ds : forall lib d,
  d ∈ ds -> qualifies d = true -> _is_overlay_folder (name d) = false ->
  is_Some (categories (foldl (load_entry root) lib ds) !! _clean_display_name (name d)).
Proof.
  induction ds as [|d' ds IH]; intros lib d Hin Hq Hov; simpl.
  - by apply elem_of_nil in Hin.
  - apply elem_of_cons in Hin as [->|Hin].
    + apply foldl_load_entry_mono. by apply load_entry_adds_tiles.
    + by apply IH.
Qed.

(** Every folder with an image whose name has no "overlay" in it becomes a
    tile category, whatever else its name contains: [_is_tile_folder] is
    never consulted. *)
Lemma load_takes_every_other_folder root entries d :
  d ∈ entries -> qualifies d = true -> _is_overlay_folder (name d) = false ->
  is_Some (categories (TileLibrary_load root entries).1 !! _clean_display_name (name d)).
Proof.
  intros Hin Hq Hov. unfold TileLibrary_load. simpl.
  apply foldl_load_entry_adds; [|done..].
  unfold sorted_entries. by rewrite merge_sort_Permutation.
Qed.

(** C9.  The folder ["1 • Realm Brew - Forest Tiles"] yields the display
    name ["Forest"], has no "overlay" in its name, has the keyword "tile",
    and is loaded as a tile category and not as an overlay category; the
    folder ["Magic Overlays"] yields ["Magic"], matches "overlay", and is
    loaded as an overlay category and not as a tile category. *)
Theorem scenario_folders_classified :
  _clean_display_name forest_folder = "Forest"
  /\ _is_overlay_folder forest_folder = false
  /\ _is_tile_folder forest_folder = true
  /\ _clean_display_name magic_folder = "Magic"
  /\ _is_overlay_folder magic_folder = true
  /\ let lib := (TileLibrary_load "/bundle" bundle).1 in
     categories lib !! "Forest"
       = Some [mkTileInfo "/bundle/1 • Realm Brew - Forest Tiles/oak.png" forest_folder "Forest"]
     /\ overlay_categories lib !! "Forest" = None
     /\ overlay_categories lib !! "Magic"
       = Some [mkOverlayInfo "/bundle/Magic Overlays/rune.png" magic_folder "Magic"]
     /\ categories lib !! "Magic" = None.
Proof. vm_compute. repeat split; reflexivity. Qed.

(** A folder whose name matches neither heuristic. *)
Definition maps_folder : dir_entry := mkDirEntry "Maps" true ["cave.png"].

(** C2.  The folder ["Maps"] holds an image and matches neither the
    "overlay" test nor any tile keyword, yet [TileLibrary.load] adds it as
    a tile category and reports success. *)
Theorem load_keeps_unmatched_folder :
  qualifies maps_folder = true
  /\ _is_overlay_folder (name maps_folder) = false
  /\ _is_tile_folder (name maps_folder) = false
  /\ categories (TileLibrary_load "/bundle" [maps_folder]).1 !! "Maps"
     = Some [mkTileInfo "/bundle/Maps/cave.png" "Maps" "Maps"]
  /\ (TileLibrary_load "/bundle" [maps_folder]).2 = true.
Proof. vm_compute. repeat split; reflexivity. Qed.

End LibraryFacts.

(** ** Saving and loading *)

Section Persistence.

Local Open Scope string_scope.

(** The key of every tile is the coordinate the tile itself records. *)
Definition keys_agree (m : gmap (Z * Z) PlacedTile) : Prop :=
  map_Forall (fun k t => k = (tile_col t, tile_row t)) m.

#[local] Instance keys_agree_dec m : Decision (keys_agree m).
Proof. unfold keys_agree. apply _. Defined.

Lemma keys_agree_empty : keys_agree ∅.
Proof. apply map_Forall_empty. Qed.

Lemma keys_agree_insert m c r p cat rot :
  keys_agree m -> keys_agree (<[(c, r) := mkPlacedTile c r p cat rot]> m).
Proof. intros H. by apply map_Forall_insert_2. Qed.

(** *** What [load] does step by step *)

Lemma load_unfold fs path self :
  load fs path self =
    match json_load fs path with
    | Raise e => (Raise e, self)
    | Ok data =>
        match tiles_of_json (get (doc_tiles data) []) with
        | Raise e => (Raise e, self)
        | Ok ts =>
            match overlays_of_json (get (doc_overlays data) []) with
            | Raise e => (Raise e, set_tiles ts self)
            | Ok os =>
                (Ok tt, set_filepath (Some path) (set_overlays os (set_tiles ts self)))
            end
        end
    end.
Proof.
  unfold load, mbind, py_bind, eval, assign.
  destruct (json_load fs path) as [data|e]; [|done].
  destruct (tiles_of_json _) as [ts|e]; [|done].
  destruct (overlays_of_json _) as [os|e]; done.
Qed.

(** A failure while the file is read or while the tiles are built leaves
    the map as it was. *)
Lemma load_fails_early fs path self e :
  (json_load fs path = Raise e
   \/ exists data, json_load fs path = Ok data
                   /\ tiles_of_json (get (doc_tiles data) []) = Raise e) ->
  load fs path self = (Raise e, self).
Proof.
  rewrite load_unfold. intros [-> | (data & -> & ->)]; done.
Qed.

(** Whatever makes [load] fail, the overlay list and the file path are
    the old ones. *)
Lemma load_fails_overlays_kept fs path self e self' :
  load fs path self = (Raise e, self') ->
  overlays self' = overlays self /\ filepath self' = filepath self.
Proof.
  rewrite load_unfold. intros H.
  destruct (json_load fs path) as [data|e0]; [|by inversion H].
  destruct (tiles_of_json _) as [ts|e0]; [|by inversion H].
  destruct (overlays_of_json _) as [os|e0]; by inversion H.
Qed.

(** The map in memory before the failing load, and a document whose only
    overlay entry has no ["col"]. *)
Definition map_before : HexMap :=
  mkHexMap {[ (0, 0) := mkPlacedTile 0 0 "oak.png" "Forest" 0 ]}
           [new_overlay 1 1 "rune.png"] (Some "old.hexmap").

Definition overlay_without_col : document :=
  mkDocument
    (Some [mkTileEntry (Some 5) (Some 5) (Some "cave.png") (Some "Caverns") (Some 2)])
    (Some [mkOverlayEntry None (Some 0) (Some "rune.png") None None None None]).

(** C1.  Loading a well-formed document whose overlay entry lacks ["col"]
    raises [KeyError], and the map is left with the tiles of the document
    (the old tile at (0,0) is gone, the tile of the document is at (5,5)),
    its old overlays and its old file path. *)
Theorem load_failure_replaces_tiles :
  let fs : disk := {[ "bad.hexmap" := Json overlay_without_col ]} in
  let '(outcome, after) := load fs "bad.hexmap" map_before in
  outcome = Raise (KeyError "col")
  /\ tiles map_before !! (0, 0) = Some (mkPlacedTile 0 0 "oak.png" "Forest" 0)
  /\ tiles after !! (0, 0) = None
  /\ tiles after !! (5, 5) = Some (mkPlacedTile 5 5 "cave.png" "Caverns" 2)
  /\ overlays after = overlays map_before
  /\ filepath after = filepath map_before.
Proof. vm_compute. repeat split; reflexivity. Qed.

(** *** Round trip *)

Lemma tile_round_trip t :
  tile_of_json (tile_to_json t) = Ok ((tile_col t, tile_row t), t).
Proof. by destruct t. Qed.

Lemma overlay_round_trip o : overlay_of_json (overlay_to_json o) = Ok o.
Proof. by destruct o. Qed.

Lemma overlays_round_trip os :
  overlays_of_json (overlay_to_json <$> os) = Ok os.
Proof.
  induction os as [|o os IH]; [done|].
  cbn [fmap list_fmap overlays_of_json]. rewrite overlay_round_trip.
  cbn. change (list_fmap _ _ overlay_to_json os) with (overlay_to_json <$> os).
  by rewrite IH.
Qed.

(** Storing the items of a list one after the other. *)
Definition store_all (init : gmap (Z * Z) PlacedTile)
    (l : list ((Z * Z) * PlacedTile)) : gmap (Z * Z) PlacedTile :=
  foldl (fun m kv => <[kv.1 := kv.2]> m) init l.

Lemma store_all_notin l : forall init k,
  k ∉ l.*1 -> store_all init l !! k = init !! k.
Proof.
  induction l as [|[k' v'] l IH]; intros init k Hk; [done|].
  cbn in *. apply not_elem_of_cons in Hk as [Hne Hk].
  unfold store_all in *. cbn. rewrite IH by done. by rewrite lookup_insert_ne.
Qed.

Lemma store_all_in l : forall init k v,
  NoDup l.*1 -> (k, v) ∈ l -> store_all init l !! k = Some v.
Proof.
  induction l as [|[k' v'] l IH]; intros init k v Hnd Hin.
  - by apply elem_of_nil in Hin.
  - cbn in Hnd. apply NoDup_cons in Hnd as [Hk' Hnd].
    apply elem_of_cons in Hin as [Heq|Hin].
    + inversion Heq; subst. unfold store_all. cbn.
      fold (store_all (<[k':=v']> init) l).
      rewrite store_all_notin by done. apply lookup_insert_eq.
    + unfold store_all. cbn. fold (store_all (<[k':=v']> init) l). by apply IH.
Qed.

Lemma store_all_listed (m : gmap (Z * Z) PlacedTile) (l : list ((Z * Z) * PlacedTile)) :
  l ≡ₚ map_to_list m -> store_all ∅ l = m.
Proof.
  intros Hl. apply map_eq. intros k. destruct (m !! k) as [v|] eqn:Hk.
  - apply store_all_in.
    + rewrite Hl. apply NoDup_fst_map_to_list.
    + rewrite Hl. by apply elem_of_map_to_list.
  - rewrite store_all_notin; [done|].
    intros Hin. apply list_elem_of_fmap in Hin as ([k' v] & -> & Hin).
    rewrite Hl in Hin. apply elem_of_map_to_list in Hin. cbn in Hk. congruence.
Qed.

Lemma tiles_of_json_values l : forall init,
  Forall (fun kv : (Z * Z) * PlacedTile => kv.1 = (tile_col kv.2, tile_row kv.2)) l ->
  for_each (tile_to_json <$> (snd <$> l))
           (fun t m => '(k, v) ← tile_of_json t; Ok (<[k := v]> m)) init
  = Ok (store_all init l).
Proof.
  induction l as [|[k v] l IH]; intros init Hall; [done|].
  apply Forall_cons in Hall as [Hk Hall]. cbn in Hk.
  cbn [fmap list_fmap for_each snd].
  rewrite tile_round_trip. cbn. rewrite <- Hk.
  change (list_fmap _ _ tile_to_json (list_fmap _ _ snd l))
    with (tile_to_json <$> (snd <$> l)).
  by rewrite IH.
Qed.

(** *** The order in which a dictionary yields its values *)

Lemma yield_Permutation {A} (order : list nat) : forall l : list A, yield order l ≡ₚ l.
Proof.
  induction order as [|n order IH]; intros l; cbn; [done|].
  destruct (l !! (n mod length l)%nat) as [x|] eqn:Hx; [|done].
  rewrite IH. symmetry. by apply delete_Permutation.
Qed.

(** Every order of the items is the one some [order] picks. *)
Lemma yield_any_order {A} (l' : list A) : forall l,
  l' ≡ₚ l -> exists order, yield order l = l'.
Proof.
  induction l' as [|x l' IH]; intros l Hl.
  - apply Permutation_nil_l in Hl as ->. by exists [].
  - assert (Hx : x ∈ l) by (rewrite <- Hl; left).
    apply list_elem_of_lookup_1 in Hx as [i Hi].
    pose proof (delete_Permutation l i x Hi) as Hd.
    rewrite Hd in Hl. apply Permutation_cons_inv in Hl.
    destruct (IH _ Hl) as [order Ho].
    exists (i :: order). cbn.
    rewrite Nat.mod_small by (by eapply lookup_lt_Some).
    by rewrite Hi, Ho.
Qed.

Lemma yield_fmap {A B} (f : A -> B) (order : list nat) : forall l : list A,
  yield order (f <$> l) = f <$> yield order l.
Proof.
  induction order as [|n order IH]; intros l; cbn; [done|].
  rewrite length_fmap, list_lookup_fmap.
  destruct (l !! (n mod length l)%nat) as [x|]; cbn; [|done].
  by rewrite <- IH, list_fmap_delete.
Qed.

Lemma tiles_round_trip (order : list nat) (self : HexMap) :
  keys_agree (tiles self) ->
  tiles_of_json (tile_to_json <$> values order self) = Ok (tiles self).
Proof.
  intros Hm. unfold tiles_of_json, values. rewrite yield_fmap.
  pose proof (yield_Permutation order (map_to_list (tiles self))) as Hp.
  rewrite tiles_of_json_values.
  - by rewrite (store_all_listed (tiles self)).
  - apply Forall_forall. intros [k v] Hin. rewrite Hp in Hin.
    apply elem_of_map_to_list in Hin. by apply Hm in Hin.
Qed.

(** *** Reading with the defaults *)

(** An entry [t] of a document read as the tile [v]: the three keys that
    [load] requires are there, and each of the other two is the value of
    the entry or, where the entry has none, the default of the format. *)
Definition tile_reads_as (t : tile_entry) (v : PlacedTile) : Prop :=
  te_col t = Some (tile_col v) /\ te_row t = Some (tile_row v)
  /\ te_path t = Some (tile_path v)
  /\ tile_category v = default "" (te_category t)
  /\ tile_rotation v = default 0 (te_rotation t).

Definition overlay_reads_as (o : overlay_entry) (v : PlacedOverlay) : Prop :=
  oe_col o = Some (ov_col v) /\ oe_row o = Some (ov_row v)
  /\ oe_path o = Some (ov_path v)
  /\ ov_offset_x v = default 0%float (oe_offset_x o)
  /\ ov_offset_y v = default 0%float (oe_offset_y o)
  /\ ov_rotation v = default (Int 0) (oe_rotation o)
  /\ ov_scale v = default 0.5%float (oe_scale o).

(** The dictionary whose items are those of the list, a later item
    replacing an earlier one with its key. *)
Definition tiles_listed (vs : list PlacedTile) : gmap (Z * Z) PlacedTile :=
  list_to_map (reverse ((fun v => ((tile_col v, tile_row v), v)) <$> vs)).

Lemma tile_reads_as_spec (t : tile_entry) (v : PlacedTile) :
  tile_reads_as t v -> tile_of_json t = Ok ((tile_col v, tile_row v), v).
Proof.
  destruct t as [c r p cat rot], v as [vc vr vp vcat vrot].
  unfold tile_reads_as. cbn. intros (-> & -> & -> & -> & ->). reflexivity.
Qed.

Lemma overlay_reads_as_spec (o : overlay_entry) (v : PlacedOverlay) :
  overlay_reads_as o v -> overlay_of_json o = Ok v.
Proof.
  destruct o as [c r p ox oy rot sc], v as [vc vr vp vox voy vrot vsc].
  unfold overlay_reads_as. cbn. intros (-> & -> & -> & -> & -> & -> & ->).
  by destruct ox, oy, rot, sc.
Qed.

Lemma overlays_read (os : list overlay_entry) (vs : list PlacedOverlay) :
  Forall2 overlay_reads_as os vs -> overlays_of_json os = Ok vs.
Proof.
  induction 1 as [|o v os vs Hov _ IH]; [done|].
  cbn [overlays_of_json]. rewrite (overlay_reads_as_spec o v Hov). cbn.
  by rewrite IH.
Qed.

Lemma tiles_read (ts : list tile_entry) (vs : list PlacedTile) :
  Forall2 tile_reads_as ts vs ->
  forall init,
    for_each ts (fun t m => '(k, v) ← tile_of_json t; Ok (<[k := v]> m)) init
    = Ok (store_all init ((fun v => ((tile_col v, tile_row v), v)) <$> vs)).
Proof.
  induction 1 as [|t v ts vs Htv _ IH]; intros init; [done|].
  cbn [for_each]. rewrite (tile_reads_as_spec t v Htv). cbn.
  by rewrite IH.
Qed.

Lemma store_all_list_to_map (l : list ((Z * Z) * PlacedTile)) :
  store_all ∅ l = list_to_map (reverse l).
Proof.
  induction l as [|[k v] l IH] using rev_ind; [done|].
  unfold store_all in *. rewrite foldl_app, reverse_app. cbn. by rewrite IH.
Qed.

(** The map of the scenario: one tile at (2,-1) with rotation 3 and one
    overlay at (0,0) with offset (5.5,-3.2), rotation 45 and scale 1.2. *)
Definition scenario_map : HexMap :=
  mkHexMap {[ (2, -1) := mkPlacedTile 2 (-1) "oak.png" "Forest" 3 ]}
           [mkPlacedOverlay 0 0 "rune.png" 5.5%float (-3.2)%float (Int 45) 1.2%float]
           None.

(** C4.  Saving a map whose tiles are stored under the hexes they record
    (as they are in every state the editor reaches) to a file that takes
    the text, in whatever order the tiles are written, and loading that
    file gives back the same tiles, with every field, and the same
    overlays, with every field and in the same order, into whatever map is
    loaded into.  An entry that has its column, row and path is read
    with each of its other fields as the file gives it, or, where the file
    does not give it, as category [""], rotation [0], offset [0] and scale
    [0.5], whichever of the other fields are there; and so is every entry
    of a document that [load] reads. *)
Theorem save_load_round_trip (self into : HexMap) (fs : disk) (path : string)
    (order : list nat) :
  keys_agree (tiles self) ->
  (let '(saved, (self', fs')) := save written order path (self, fs) in
   let '(loaded, back) := load fs' path into in
   saved = Ok tt /\ loaded = Ok tt
   /\ tiles back = tiles self /\ overlays back = overlays self
   /\ back = self')
  /\ (forall c r p category rotation,
        tile_of_json (mkTileEntry (Some c) (Some r) (Some p) category rotation)
        = Ok ((c, r), mkPlacedTile c r p (default "" category) (default 0 rotation)))
  /\ (forall c r p offset_x offset_y rotation scale,
        overlay_of_json
          (mkOverlayEntry (Some c) (Some r) (Some p) offset_x offset_y rotation scale)
        = Ok (mkPlacedOverlay c r p (default 0%float offset_x) (default 0%float offset_y)
                              (default (Int 0) rotation) (default 0.5%float scale)))
  /\ (forall (files : disk) (name : string) (d : document)
             (tvs : list PlacedTile) (ovs : list PlacedOverlay),
        files !! name = Some (Json d) ->
        Forall2 tile_reads_as (default [] (doc_tiles d)) tvs ->
        Forall2 overlay_reads_as (default [] (doc_overlays d)) ovs ->
        load files name into = (Ok tt, mkHexMap (tiles_listed tvs) ovs (Some name))).
Proof.
  intros Hkeys. split; [|split; [|split]].
  - unfold save, mbind, py_bind, read, assign. cbn.
    rewrite load_unfold. unfold json_load. rewrite lookup_insert_eq.
    cbn [get doc_tiles doc_overlays to_document].
    rewrite tiles_round_trip by done. rewrite overlays_round_trip.
    destruct self, into; cbn. done.
  - intros c r p [cat|] [rot|]; reflexivity.
  - intros c r p [ox|] [oy|] [rot|] [sc|]; reflexivity.
  - intros files name d tvs ovs Hfile Hts Hos.
    rewrite load_unfold. unfold json_load. rewrite Hfile.
    assert (Hget : forall A (o : option (list A)), get o [] = default [] o)
      by (by intros A [l|]).
    rewrite !Hget. unfold tiles_of_json.
    rewrite (tiles_read _ tvs Hts), (overlays_read _ ovs Hos).
    rewrite store_all_list_to_map. reflexivity.
Qed.

Lemma save_load_round_trip_witness :
  keys_agree (tiles scenario_map)
  /\ (let '(saved, (self', fs')) := save written [] "map.hexmap" (scenario_map, ∅) in
      let '(loaded, back) := load fs' "map.hexmap" HexMap_init in
      saved = Ok tt /\ loaded = Ok tt
      /\ tiles back = tiles scenario_map /\ overlays back = overlays scenario_map
      /\ back = self').
Proof.
  assert (Hkeys : keys_agree (tiles scenario_map))
    by (apply (bool_decide_unpack _); vm_compute; exact I).
  split; [exact Hkeys|].
  exact (proj1 (save_load_round_trip scenario_map HexMap_init ∅ "map.hexmap" [] Hkeys)).
Defined.

End Persistence.

(** ** Placing tiles *)

Section Placement.

Local Open Scope string_scope.

(** The coordinates of the tiles of a map, as [save] writes them. *)
Definition tile_coords (m : gmap (Z * Z) PlacedTile) : list (Z * Z) :=
  (fun t => (tile_col t, tile_row t)) <$> (snd <$> map_to_list m).

Lemma tile_coords_keys m : keys_agree m -> tile_coords m = (map_to_list m).*1.
Proof.
  intros Hm. unfold tile_coords. rewrite <- list_fmap_compose.
  apply list_fmap_ext. intros i [k t] Hi. cbn.
  apply list_elem_of_lookup_2, elem_of_map_to_list in Hi. symmetry. by apply Hm.
Qed.

(** No two tiles of a map record the same coordinate. *)
Lemma one_tile_per_hex m : keys_agree m -> NoDup (tile_coords m).
Proof. intros Hm. rewrite tile_coords_keys by done. apply NoDup_fst_map_to_list. Qed.

Lemma truthy_some cat : cat <> "" -> truthy (Some cat) = Some cat.
Proof. by destruct cat. Qed.

Lemma truthy_inv s cat : truthy s = Some cat -> s = Some cat.
Proof. destruct s as [[|]|]; cbn; congruence. Qed.

(** [click_tile] either leaves the tiles alone or stores one tile under
    the coordinate it records. *)
Lemma click_tile_tiles col row self :
  let after := (click_tile col row self).2 in
  (click_tile col row self).1 = Ok tt
  /\ overlays (hex_map after) = overlays (hex_map self)
  /\ (tiles (hex_map after) = tiles (hex_map self)
      \/ exists p cat rot,
           tiles (hex_map after)
           = <[(col, row) := mkPlacedTile col row p cat rot]> (tiles (hex_map self))).
Proof.
  unfold click_tile, mbind, py_bind, read, assign. cbn.
  destruct (mode self); cbn; try (by auto).
  destruct (sel_tile_idx self) as [idx|]; cbn; [|by auto].
  destruct (truthy (sel_category self)) as [cat|]; cbn; [|by auto].
  destruct (get (categories (library self) !! cat) [] !! idx) as [t|]; cbn; [|by auto].
  split; [done|]. split; [done|]. right. eauto.
Qed.

Lemma click_overlay_tiles ex ey col row self :
  tiles (hex_map (click_overlay ex ey col row self).2) = tiles (hex_map self).
Proof.
  unfold click_overlay, mbind, py_bind, read, assign, eval. cbn.
  destruct (_overlay_hit self ex ey) as [[i|]|e]; cbn; [| |done].
  - destruct (overlays (hex_map self) !! i) as [ov|]; cbn; [|done].
    destruct (hex_to_pixel _ _ _) as [[hx hy]|e]; cbn; [|done].
    destruct (PyFloat.of_int ex) as [fx|e]; cbn; [|done].
    destruct (PyFloat.of_int ey) as [fy|e]; cbn; done.
  - destruct (sel_overlay_idx self) as [idx|]; cbn; [|done].
    destruct (truthy (sel_ov_category self)) as [cat|]; cbn; [|done].
    destruct (get (overlay_categories (library self) !! cat) [] !! idx); cbn; done.
Qed.

(** Every click keeps the keys of the tiles in agreement with the tiles. *)
Lemma on_click_keys_agree ex ey self :
  keys_agree (tiles (hex_map self)) ->
  keys_agree (tiles (hex_map (_on_click ex ey self).2)).
Proof.
  intros Hk. unfold _on_click, mbind, py_bind, read, eval. cbn.
  destruct (_to_hex self ex ey) as [[col row]|e]; cbn; [|done].
  destruct (decide (mode self = place_overlay)).
  - by rewrite click_overlay_tiles.
  - destruct (click_tile_tiles col row self) as (_ & _ & [-> | (p & cat & rot & ->)]);
      [done|]. by apply keys_agree_insert.
Qed.

(** C5.  A click in place-tile mode on a hex that already holds a tile,
    with a catalog entry selected, stores the new tile (path of the entry,
    selected category, current rotation) at that hex, leaves every other
    hex, the number of tiles and the overlays as they were; and after any
    click no two tiles of the map record the same coordinate. *)
Theorem placing_on_occupied_hex_overwrites :
  (forall (self : App) (ex ey col row : Z) (idx : nat) (cat : string)
          (ts : list TileInfo) (t : TileInfo) (old : PlacedTile),
      mode self = place_tile ->
      _to_hex self ex ey = Ok (col, row) ->
      sel_tile_idx self = Some idx ->
      sel_category self = Some cat -> cat <> "" ->
      categories (library self) !! cat = Some ts -> ts !! idx = Some t ->
      tiles (hex_map self) !! (col, row) = Some old ->
      let after := (_on_click ex ey self).2 in
      (_on_click ex ey self).1 = Ok tt
      /\ size (tiles (hex_map after)) = size (tiles (hex_map self))
      /\ tiles (hex_map after) !! (col, row)
         = Some (mkPlacedTile col row (ti_path t) cat (placement_rot self))
      /\ (forall k, k <> (col, row) ->
            tiles (hex_map after) !! k = tiles (hex_map self) !! k)
      /\ overlays (hex_map after) = overlays (hex_map self))
  /\ (forall (self : App) (ex ey : Z),
        keys_agree (tiles (hex_map self)) ->
        NoDup (tile_coords (tiles (hex_map (_on_click ex ey self).2)))).
Proof.
  split.
  - intros self ex ey col row idx cat ts t old Hmode Hhex Hidx Hcat Hne Hts Ht Hold.
    unfold _on_click, mbind, py_bind, read, eval. cbn. rewrite Hhex. cbn.
    destruct (decide (mode self = place_overlay)) as [Heq|_]; [congruence|].
    unfold click_tile, mbind, py_bind, read, assign. cbn.
    rewrite Hmode, Hidx, Hcat, (truthy_some _ Hne), Hts. cbn. rewrite Ht. cbn.
    split; [done|]. split; [|split; [|split]].
    + apply map_size_insert_Some. eauto.
    + apply lookup_insert_eq.
    + intros k Hk. by apply lookup_insert_ne.
    + done.
  - intros self ex ey Hk. by apply one_tile_per_hex, on_click_keys_agree.
Qed.

End Placement.

Section PlacementExample.

Local Open Scope string_scope.

(** The editor with the bundle opened, the first entry of "Forest" picked
    in place-tile mode with rotation 2, and a tile already at hex (0,0). *)
Definition placing_app : App :=
  set_placement_rot 2
    (set_sel_tile (Some "Forest") (Some 0%nat)
       (set_mode place_tile
          (set_library (TileLibrary_load "/bundle" bundle).1
             (set_hex_map
                (mkHexMap {[ (0, 0) := mkPlacedTile 0 0 "cave.png" "Caverns" 0 ]} [] None)
                App_init)))).

Lemma placing_on_occupied_hex_overwrites_witness :
  let after := (_on_click 550 380 placing_app).2 in
  size (tiles (hex_map after)) = 1%nat
  /\ tiles (hex_map after) !! (0, 0)
     = Some (mkPlacedTile 0 0 "/bundle/1 • Realm Brew - Forest Tiles/oak.png" "Forest" 2).
Proof.
  destruct placing_on_occupied_hex_overwrites as [H _].
  destruct (H placing_app 550 380 0 0 0%nat "Forest"
              [mkTileInfo "/bundle/1 • Realm Brew - Forest Tiles/oak.png"
                          forest_folder "Forest"]
              (mkTileInfo "/bundle/1 • Realm Brew - Forest Tiles/oak.png"
                          forest_folder "Forest")
              (mkPlacedTile 0 0 "cave.png" "Caverns" 0))
    as (_ & Hsize & Hnew & _); try (vm_compute; reflexivity).
  - discriminate.
  - cbv zeta. split.
    + rewrite Hsize. vm_compute. reflexivity.
    + rewrite Hnew. reflexivity.
Defined.

End PlacementExample.

(** ** Rotating and scaling the selected overlay *)

Section SelectedOverlay.

Lemma App_eta (self : App) (hm : HexMap) :
  hm = hex_map self -> set_hex_map hm self = self.
Proof. intros ->. by destruct self. Qed.

Lemma HexMap_eta (hm : HexMap) (os : list PlacedOverlay) :
  os = overlays hm -> set_overlays os hm = hm.
Proof. intros ->. by destruct hm. Qed.

Lemma with_selected_overlay_at f self i ov :
  selected_ov_idx self = Some i ->
  overlays (hex_map self) !! i = Some ov ->
  with_selected_overlay f self
  = set_hex_map (set_overlays (<[i := f ov]> (overlays (hex_map self))) (hex_map self)) self.
Proof. intros Hi Hov. unfold with_selected_overlay. by rewrite Hi, Hov. Qed.

Lemma with_selected_overlay_lookup f self i ov :
  selected_ov_idx self = Some i ->
  overlays (hex_map self) !! i = Some ov ->
  selected_ov_idx (with_selected_overlay f self) = Some i
  /\ overlays (hex_map (with_selected_overlay f self)) !! i = Some (f ov)
  /\ (forall j, j <> i ->
        overlays (hex_map (with_selected_overlay f self)) !! j
        = overlays (hex_map self) !! j)
  /\ tiles (hex_map (with_selected_overlay f self)) = tiles (hex_map self).
Proof.
  intros Hi Hov. rewrite (with_selected_overlay_at f self i ov) by done. cbn.
  split; [done|]. split; [|split; [|done]].
  - apply list_lookup_insert_eq. by eapply lookup_lt_Some.
  - intros j Hj. by apply list_lookup_insert_ne.
Qed.

(** Without a valid selection nothing changes. *)
Lemma with_selected_overlay_none f self :
  (selected_ov_idx self = None
   \/ exists i, selected_ov_idx self = Some i
                /\ (length (overlays (hex_map self)) <= i)%nat) ->
  with_selected_overlay f self = self.
Proof.
  unfold with_selected_overlay. intros [-> | (i & -> & Hlen)]; [done|].
  by rewrite lookup_ge_None_2.
Qed.

(** Applying the handler [n] times applies the update [n] times to the
    selected overlay. *)
Lemma with_selected_overlay_iter f n : forall self i ov,
  selected_ov_idx self = Some i ->
  overlays (hex_map self) !! i = Some ov ->
  Nat.iter n (with_selected_overlay f) self
  = set_hex_map
      (set_overlays (<[i := Nat.iter n f ov]> (overlays (hex_map self))) (hex_map self))
      self.
Proof.
  induction n as [|n IH]; intros self i ov Hi Hov.
  - cbn. rewrite list_insert_id by done.
    rewrite HexMap_eta by done. by rewrite App_eta.
  - change (Nat.iter (S n) (with_selected_overlay f) self)
      with (with_selected_overlay f (Nat.iter n (with_selected_overlay f) self)).
    change (Nat.iter (S n) f ov) with (f (Nat.iter n f ov)).
    rewrite (IH self i ov) by done.
    erewrite with_selected_overlay_at; [| done |].
    + cbn. by rewrite list_insert_insert_eq.
    + cbn. apply list_lookup_insert_eq. by eapply lookup_lt_Some.
Qed.

End SelectedOverlay.

Section Rotation.

Import PyFloat.

(** An overlay with its rotation replaced. *)
Definition with_ov_rotation (r : number) (ov : PlacedOverlay) : PlacedOverlay :=
  mkPlacedOverlay (ov_col ov) (ov_row ov) (ov_path ov) (ov_offset_x ov) (ov_offset_y ov)
                  r (ov_scale ov).

Lemma with_ov_rotation_id (ov : PlacedOverlay) : with_ov_rotation (ov_rotation ov) ov = ov.
Proof. by destruct ov. Qed.

(** The assignment changes the rotation and nothing else. *)
Lemma rotated_rotation (delta : Z) (ov : PlacedOverlay) :
  rotated delta ov = with_ov_rotation (ov_rotation (rotated delta ov)) ov.
Proof.
  unfold rotated. destruct (rotate_by delta (ov_rotation ov)); [done|].
  by rewrite with_ov_rotation_id.
Qed.

Lemma rotated_int (delta n : Z) (ov : PlacedOverlay) :
  ov_rotation ov = Int n ->
  rotated delta ov = with_ov_rotation (Int ((n + delta) mod 360)) ov.
Proof. intros Hn. unfold rotated. by rewrite Hn. Qed.

Lemma rotated_iter_int (delta n : Z) (k : nat) (ov : PlacedOverlay) :
  ov_rotation ov = Int n ->
  Nat.iter (S k) (rotated delta) ov
  = with_ov_rotation (Int ((n + Z.of_nat (S k) * delta) mod 360)) ov.
Proof.
  intros Hn. induction k as [|k IH].
  - change (Nat.iter 1 (rotated delta) ov) with (rotated delta ov).
    rewrite (rotated_int delta n) by done. do 3 f_equal. lia.
  - change (Nat.iter (S (S k)) (rotated delta) ov)
      with (rotated delta (Nat.iter (S k) (rotated delta) ov)).
    rewrite IH. erewrite rotated_int; [|reflexivity].
    unfold with_ov_rotation. cbn. do 2 f_equal.
    rewrite Zplus_mod_idemp_l. f_equal. lia.
Qed.

(** The editor with one overlay placed, of the given rotation, and
    selected. *)
Definition turned_app (rotation : number) : App :=
  set_selected_ov_idx (Some 0%nat)
    (set_hex_map
       (mkHexMap ∅ [mkPlacedOverlay 0 0 "rune.png" 0%float 0%float rotation 0.5%float] None)
       App_init).

Definition rotating_app : App := turned_app (Int 45).

(** A document whose overlay has the rotation 0.1. *)
Definition tenth_of_a_degree : document :=
  mkDocument None
    (Some [mkOverlayEntry (Some 0) (Some 0) (Some "rune.png"%string) None None
                          (Some (Float 0.1)) None]).

(** C7, as far as it holds.  With an overlay selected whose rotation is an
    [int], as it is from the moment the editor places an overlay, a
    rotation by any delta stores the [int] that is the old rotation plus
    the delta modulo 360, a value in [0,360); twenty-four rotations by +15
    change nothing but the rotation of that overlay, which they leave at the
    old one modulo 360: the editor is exactly as it was when the rotation
    was in [0,360), and only then. *)
Theorem overlay_rotation_wraps (self : App) (i : nat) (ov : PlacedOverlay) (r : Z) :
  selected_ov_idx self = Some i ->
  overlays (hex_map self) !! i = Some ov ->
  ov_rotation ov = Int r ->
  (forall delta,
      overlays (hex_map (_rotate_overlay delta self)) !! i
      = Some (with_ov_rotation (Int ((r + delta) mod 360)) ov)
      /\ 0 <= (r + delta) mod 360 < 360)
  /\ Nat.iter 24 (_rotate_overlay 15) self
     = set_hex_map
         (set_overlays (<[i := with_ov_rotation (Int (r mod 360)) ov]> (overlays (hex_map self)))
                       (hex_map self))
         self
  /\ (Nat.iter 24 (_rotate_overlay 15) self = self <-> 0 <= r < 360).
Proof.
  intros Hi Hov Hr.
  assert (H24 : Nat.iter 24 (_rotate_overlay 15) self
                = set_hex_map
                    (set_overlays
                       (<[i := with_ov_rotation (Int (r mod 360)) ov]> (overlays (hex_map self)))
                       (hex_map self))
                    self).
  { unfold _rotate_overlay.
    rewrite (with_selected_overlay_iter _ 24 self i ov) by done.
    rewrite (rotated_iter_int 15 r 23 ov) by done.
    replace (r + Z.of_nat 24 * 15) with (r + 1 * 360) by lia.
    by rewrite Z_mod_plus_full. }
  split; [|split].
  - intros delta. split; [|apply Z.mod_pos_bound; lia].
    unfold _rotate_overlay.
    destruct (with_selected_overlay_lookup (rotated delta) self i ov Hi Hov)
      as (_ & -> & _).
    by rewrite (rotated_int delta r).
  - exact H24.
  - rewrite H24. split.
    + intros Hsame.
      assert (Hl : overlays (hex_map self) !! i
                   = Some (with_ov_rotation (Int (r mod 360)) ov)).
      { rewrite <- Hsame at 1. cbn.
        apply list_lookup_insert_eq. by eapply lookup_lt_Some. }
      rewrite Hov in Hl. injection Hl as Hl.
      apply (f_equal ov_rotation) in Hl. rewrite Hr in Hl. cbn in Hl.
      injection Hl as Hl. rewrite Hl. apply Z.mod_pos_bound. lia.
    + intros Hrange. rewrite Z.mod_small by done. rewrite <- Hr.
      rewrite with_ov_rotation_id, list_insert_id by done.
      rewrite HexMap_eta by done. by rewrite App_eta.
Qed.

Lemma overlay_rotation_wraps_witness :
  (forall delta,
      overlays (hex_map (_rotate_overlay delta rotating_app)) !! 0%nat
      = Some (with_ov_rotation (Int ((45 + delta) mod 360))
                (mkPlacedOverlay 0 0 "rune.png" 0%float 0%float (Int 45) 0.5%float))
      /\ 0 <= (45 + delta) mod 360 < 360)
  /\ Nat.iter 24 (_rotate_overlay 15) rotating_app = rotating_app.
Proof.
  destruct (overlay_rotation_wraps rotating_app 0%nat
              (mkPlacedOverlay 0 0 "rune.png" 0%float 0%float (Int 45) 0.5%float) 45)
    as (Hstep & _ & Hback); [reflexivity | reflexivity | reflexivity |].
  split; [exact Hstep|]. apply Hback. lia.
Defined.

(** The rotations a file can give, for which C7 fails as it is stated.
    [load] stores the rotation 0.1 of a document as the [float] it is; from
    there twenty-four rotations by +15 end at 0.10000000000002274, which
    is another rotation; one rotation by -15 from 14.999999999999998
    stores 360.0, which is not below 360; and from the [int] 400
    twenty-four rotations by +15 end at 40. *)
Lemma loaded_rotation_does_not_wrap :
  overlays (load {[ "map.hexmap"%string := Json tenth_of_a_degree ]} "map.hexmap"
                 HexMap_init).2
  = overlays (hex_map (turned_app (Float 0.1)))
  /\ ov_rotation <$> overlays (hex_map (Nat.iter 24 (_rotate_overlay 15)
                                          (turned_app (Float 0.1)))) !! 0%nat
     = Some (Float 0.10000000000002274)
  /\ (0.10000000000002274 =? 0.1)%float = false
  /\ Nat.iter 24 (_rotate_overlay 15) (turned_app (Float 0.1)) <> turned_app (Float 0.1)
  /\ ov_rotation <$> overlays (hex_map (_rotate_overlay (-15)
                                          (turned_app (Float 14.999999999999998)))) !! 0%nat
     = Some (Float 360)
  /\ (360 <? 360)%float = false
  /\ ov_rotation <$> overlays (hex_map (Nat.iter 24 (_rotate_overlay 15)
                                          (turned_app (Int 400)))) !! 0%nat
     = Some (Int 40).
Proof.
  assert (H24 : ov_rotation <$> overlays (hex_map (Nat.iter 24 (_rotate_overlay 15)
                                                     (turned_app (Float 0.1)))) !! 0%nat
                = Some (Float 0.10000000000002274))
    by (vm_compute; reflexivity).
  split; [vm_compute; reflexivity|]. split; [exact H24|].
  split; [vm_compute; reflexivity|]. split.
  - intros Hsame.
    apply (f_equal (fun a => ov_rotation <$> overlays (hex_map a) !! 0%nat)) in Hsame.
    rewrite H24 in Hsame.
    apply (f_equal (fun r => match r with
                             | Some (Float x) => (x =? 0.1)%float
                             | _ => true
                             end)) in Hsame.
    discriminate Hsame.
  - split; [vm_compute; reflexivity|]. split; vm_compute; reflexivity.
Qed.

End Rotation.

(** ** Scaling the selected overlay *)

Section ScaleFacts.

Import PyFloat.
Local Open Scope float_scope.

(** The float nearest to [k / 100]. *)
Definition hundredths (k : Z) : float :=
  SF2Prim (SFdiv prec emax (S754_finite false (Z.to_pos k) 0) (S754_finite false 100 0)).

(** [max(0.1, min(5.0, x))] *)
Definition clamp (x : float) : float := py_max 0.1 (py_min 5.0 x).

(** The exact value of a float, a rational; zero for what is not a finite
    number. *)
Definition exact_value (x : float) : Q :=
  match Prim2SF x with
  | S754_finite s m e =>
      let v := if s then Zneg m else Zpos m in
      match e with
      | Zneg p => v # 2 ^ p
      | _ => inject_Z (v * 2 ^ e)
      end
  | _ => 0%Q
  end.

(** [k] hundredths is the decimal with two places nearest to [x]: a
    hundred times [x] is within a half of [k], and where it is a half away
    [k] is the even one of the two. *)
Definition nearest_hundredth (x : float) (k : Z) : Prop :=
  let d := Qabs (100 * exact_value x - inject_Z k) in
  (d <= 1 # 2)%Q /\ (d == 1 # 2 -> Z.even k = true)%Q.

(** [x] held between 0.1 and 5.0: [x] itself where it lies strictly
    between the two, otherwise 0.1 where it is below 5.0 and 5.0 where it
    is not (as for what is no number). *)
Definition clamped (x : float) : float :=
  if (0.1 <? x) && (x <? 5) then x else if x <? 5 then 0.1 else 5.

Lemma clamp_clamped (x : float) : clamp x = clamped x.
Proof.
  unfold clamp, clamped, py_max, py_min.
  destruct (x <? 5) eqn:Hhi.
  - by destruct (0.1 <? x).
  - rewrite andb_false_r. reflexivity.
Qed.

Lemma digits2_pos_bounds (m : positive) :
  (2 ^ (Zpos (digits2_pos m) - 1) <= Zpos m < 2 ^ Zpos (digits2_pos m))%Z.
Proof.
  induction m as [m IH|m IH|]; cbn [digits2_pos].
  - rewrite Pos2Z.inj_succ.
    replace (Z.succ (Zpos (digits2_pos m)) - 1)%Z with (Z.succ (Zpos (digits2_pos m) - 1))%Z by lia.
    rewrite !Z.pow_succ_r by lia. lia.
  - rewrite Pos2Z.inj_succ.
    replace (Z.succ (Zpos (digits2_pos m)) - 1)%Z with (Z.succ (Zpos (digits2_pos m) - 1))%Z by lia.
    rewrite !Z.pow_succ_r by lia. lia.
  - cbn. lia.
Qed.

(** A valid finite float above the subnormal range has a full mantissa. *)
Lemma normal_mantissa (s : bool) (m : positive) (e : Z) :
  valid_binary (S754_finite s m e) = true -> (-1074 < e)%Z ->
  (2 ^ 52 <= Zpos m < 2 ^ 53)%Z.
Proof.
  unfold valid_binary, SpecFloat.valid_binary, bounded, canonical_mantissa, fexp,
    SpecFloat.emin, prec, emax.
  intros Hv He. apply andb_prop in Hv as [Hc _]. apply Z.eqb_eq in Hc.
  assert (Hd : Zpos (digits2_pos m) = 53%Z) by lia.
  pose proof (digits2_pos_bounds m) as Hb. rewrite Hd in Hb. exact Hb.
Qed.

Lemma Prim2SF_tenth : Prim2SF 0.1 = S754_finite false 7205759403792794 (-56).
Proof. reflexivity. Qed.

Lemma Prim2SF_five : Prim2SF 5 = S754_finite false 5629499534213120 (-50).
Proof. reflexivity. Qed.

(** The strict comparison of two positive finite floats. *)
Lemma SFltb_positive (m1 m2 : positive) (e1 e2 : Z) :
  SFltb (S754_finite false m1 e1) (S754_finite false m2 e2) = true ->
  (e1 < e2)%Z \/ (e1 = e2 /\ (Zpos m1 < Zpos m2)%Z).
Proof.
  unfold SFltb, SFcompare.
  change (Pos.compare_cont Eq m1 m2) with (Pos.compare m1 m2).
  destruct (Z.compare_spec e1 e2) as [He|He|He]; try discriminate.
  - destruct (Pos.compare_spec m1 m2) as [Hm|Hm|Hm]; try discriminate.
    intros _. right. split; [exact He | exact Hm].
  - intros _. left. exact He.
Qed.

(** What a float strictly between [0.1] and [5.0] looks like. *)
Lemma strictly_between (x : float) :
  (0.1 <? x) = true -> (x <? 5) = true ->
  exists m p,
    Prim2SF x = S754_finite false m (Zneg p)
    /\ (50 <= Zpos p <= 56)%Z
    /\ (2 ^ 52 <= Zpos m < 2 ^ 53)%Z
    /\ (Zpos p = 56 -> 7205759403792794 < Zpos m)%Z
    /\ (Zpos p = 50 -> Zpos m < 5629499534213120)%Z.
Proof.
  rewrite !ltb_spec, Prim2SF_tenth, Prim2SF_five.
  pose proof (Prim2SF_valid x) as Hv.
  destruct (Prim2SF x) as [s|s| |s m e].
  - discriminate.
  - destruct s; discriminate.
  - discriminate.
  - destruct s; [discriminate|].
    intros Hlo Hhi.
    apply SFltb_positive in Hlo. apply SFltb_positive in Hhi.
    assert (Hsub : (-1074 < e)%Z) by (clear Hv Hhi; lia).
    pose proof (normal_mantissa false m e Hv Hsub) as Hm.
    clear Hv Hsub.
    destruct e as [|p|p]; [exfalso; clear Hm; lia | exfalso; clear Hm; lia |].
    exists m, p. split; [reflexivity|]. lia.
Qed.

Lemma round_half_even_bounds (n d a b : Z) :
  (0 < d)%Z -> (a * d <= n)%Z -> (n <= b * d)%Z ->
  (a <= round_half_even n d <= b)%Z.
Proof.
  intros Hd Ha Hb. unfold round_half_even.
  pose proof (Z.div_mod n d ltac:(lia)) as Hdm.
  pose proof (Z.mod_pos_bound n d Hd) as Hr.
  assert (a <= n / d)%Z by (apply Z.div_le_lower_bound; lia).
  assert (n / d <= b)%Z by (apply Z.div_le_upper_bound; lia).
  destruct (Z.compare_spec (2 * (n mod d)) d) as [Hc|Hc|Hc].
  - destruct (Z.even (n / d)); [lia|]. nia.
  - lia.
  - nia.
Qed.

Lemma round_half_even_nearest (n d : Z) :
  (0 < d)%Z ->
  let k := round_half_even n d in
  (2 * Z.abs (n - k * d) <= d)%Z
  /\ ((2 * Z.abs (n - k * d) = d)%Z -> Z.even k = true).
Proof.
  intros Hd. cbv zeta. unfold round_half_even.
  pose proof (Z.div_mod n d ltac:(lia)) as Hdm.
  pose proof (Z.mod_pos_bound n d Hd) as Hr.
  set (q := (n / d)%Z) in *. set (r := (n mod d)%Z) in *.
  destruct (Z.compare_spec (2 * r) d) as [Hc|Hc|Hc].
  - destruct (Z.even q) eqn:He.
    + split; [nia | done].
    + split; [nia|]. intros _. rewrite Z.even_add, He. reflexivity.
  - split; [nia | nia].
  - split; [nia | nia].
Qed.

Lemma nearest_hundredth_finite (x : float) (m p : positive) (k : Z) :
  Prim2SF x = S754_finite false m (Zneg p) ->
  (2 * Z.abs (100 * Zpos m - k * 2 ^ Zpos p) <= 2 ^ Zpos p)%Z ->
  ((2 * Z.abs (100 * Zpos m - k * 2 ^ Zpos p) = 2 ^ Zpos p)%Z -> Z.even k = true) ->
  nearest_hundredth x k.
Proof.
  intros Hx Hle Htie. unfold nearest_hundredth, exact_value. rewrite Hx. cbv zeta.
  unfold Qle, Qeq, Qabs, Qminus, Qplus, Qmult, Qopp, inject_Z. cbn [Qnum Qden].
  rewrite !Pos.mul_1_r, !Pos.mul_1_l, !Z.mul_1_r, !Z.mul_1_l, Pos2Z.inj_pow.
  change (Zpos 2) with 2%Z.
  replace (100 * Zpos m + - k * 2 ^ Zpos p)%Z with (100 * Zpos m - k * 2 ^ Zpos p)%Z by lia.
  split; [lia|]. intros H. apply Htie. lia.
Qed.

(** Rounding a float strictly between [0.1] and [5.0] to two places gives
    the float nearest to [k / 100], for the [k] from 10 to 500 that is
    nearest to a hundred times the float. *)
Lemma round2_between (x : float) :
  (0.1 <? x) = true -> (x <? 5) = true ->
  exists k, (10 <= k <= 500)%Z /\ round2 x = hundredths k /\ nearest_hundredth x k.
Proof.
  intros Hlo Hhi.
  destruct (strictly_between x Hlo Hhi) as (m & p & Hx & Hp & Hm & H56 & H50).
  unfold round2. rewrite Hx.
  assert (Hk : (10 <= round_half_even (100 * Zpos m) (2 ^ Zpos p) <= 500)%Z).
  { assert (Hcase : (Zpos p = 50 \/ Zpos p = 51 \/ Zpos p = 52 \/ Zpos p = 53
                     \/ Zpos p = 54 \/ Zpos p = 55 \/ Zpos p = 56)%Z) by lia.
    change (2 ^ 52)%Z with 4503599627370496%Z in Hm.
    change (2 ^ 53)%Z with 9007199254740992%Z in Hm.
    clear Hx Hlo Hhi Hp.
    destruct Hcase as [E|[E|[E|[E|[E|[E|E]]]]]]; rewrite E in *;
      match goal with
      | |- context [(2 ^ ?k)%Z] =>
          let d := eval vm_compute in (2 ^ k)%Z in change (2 ^ k)%Z with d
      end;
      apply round_half_even_bounds; lia. }
  assert (Hd : (0 < 2 ^ Zpos p)%Z) by (apply Z.pow_pos_nonneg; lia).
  destruct (round_half_even_nearest (100 * Zpos m) (2 ^ Zpos p) Hd) as [Hle Htie].
  destruct (round_half_even (100 * Zpos m) (2 ^ Zpos p)) as [|n|n] eqn:Hn;
    [exfalso; clear -Hk; lia | | exfalso; clear -Hk; lia].
  exists (Zpos n). split; [clear -Hk; lia|]. split; [reflexivity|].
  by apply (nearest_hundredth_finite x m p).
Qed.

Lemma clamp_cases (x : float) :
  clamp x = 0.1 \/ clamp x = 5
  \/ (clamp x = x /\ (0.1 <? x) = true /\ (x <? 5) = true).
Proof.
  unfold clamp, py_max, py_min.
  destruct (x <? 5) eqn:Hhi.
  - destruct (0.1 <? x) eqn:Hlo; auto.
  - right. left. reflexivity.
Qed.

Lemma nearest_hundredth_tenth : nearest_hundredth 0.1 10.
Proof.
  apply (nearest_hundredth_finite 0.1 7205759403792794 56 10); [reflexivity| |done].
  apply Z.leb_le. vm_compute. reflexivity.
Qed.

Lemma nearest_hundredth_five : nearest_hundredth 5 500.
Proof.
  apply (nearest_hundredth_finite 5 5629499534213120 50 500); [reflexivity| |done].
  apply Z.leb_le. vm_compute. reflexivity.
Qed.

(** The new scale is the float nearest to [k / 100] for the [k] nearest to
    a hundred times the clamped sum. *)
Lemma new_scale_nearest (scale delta : float) :
  exists k, (10 <= k <= 500)%Z /\ new_scale scale delta = hundredths k
            /\ nearest_hundredth (clamped (scale + delta)) k.
Proof.
  unfold new_scale. fold (clamp (scale + delta)).
  rewrite <- clamp_clamped.
  destruct (clamp_cases (scale + delta)) as [-> | [-> | (-> & Hlo & Hhi)]].
  - exists 10%Z. split; [lia|]. split; [vm_compute; reflexivity|].
    apply nearest_hundredth_tenth.
  - exists 500%Z. split; [lia|]. split; [vm_compute; reflexivity|].
    apply nearest_hundredth_five.
  - by apply round2_between.
Qed.

Lemma new_scale_hundredths (scale delta : float) :
  exists k, (10 <= k <= 500)%Z /\ new_scale scale delta = hundredths k.
Proof.
  destruct (new_scale_nearest scale delta) as (k & Hk & Hs & _). by exists k.
Qed.

(** What is checked, by evaluation, of each of the 491 two-place values: it
    lies between [0.1] and [5.0], rounding it to two places gives it back,
    and a step of [-0.1] or [+0.1] leads to the value ten hundredths away,
    or to the bound. *)
Definition hundredths_ok (k : Z) : bool :=
  (0.1 <=? hundredths k) && (hundredths k <=? 5)
  && Leibniz.eqb (round2 (hundredths k)) (hundredths k)
  && Leibniz.eqb (new_scale (hundredths k) (-0.1)) (hundredths (Z.max 10 (k - 10)))
  && Leibniz.eqb (new_scale (hundredths k) 0.1) (hundredths (Z.min 500 (k + 10))).

Lemma hundredths_table : forallb hundredths_ok (seqZ 10 491) = true.
Proof. vm_compute. reflexivity. Qed.

Lemma hundredths_facts (k : Z) :
  (10 <= k <= 500)%Z ->
  (0.1 <=? hundredths k) = true
  /\ (hundredths k <=? 5) = true
  /\ round2 (hundredths k) = hundredths k
  /\ new_scale (hundredths k) (-0.1) = hundredths (Z.max 10 (k - 10))
  /\ new_scale (hundredths k) 0.1 = hundredths (Z.min 500 (k + 10)).
Proof.
  intros Hk. pose proof hundredths_table as Ht.
  rewrite forallb_forall in Ht.
  assert (Hin : In k (seqZ 10 491)).
  { apply list_elem_of_In, elem_of_seqZ. lia. }
  specialize (Ht k Hin). unfold hundredths_ok in Ht.
  repeat (apply andb_prop in Ht as [Ht ?]).
  repeat split; try done; by apply Leibniz.eqb_spec.
Qed.

Lemma hundredths_10 : hundredths 10 = 0.1.
Proof. vm_compute. reflexivity. Qed.

Lemma hundredths_500 : hundredths 500 = 5.
Proof. vm_compute. reflexivity. Qed.

(** Every new scale lies between [0.1] and [5.0]. *)
Lemma new_scale_range (scale delta : float) :
  (0.1 <=? new_scale scale delta) = true /\ (new_scale scale delta <=? 5) = true.
Proof.
  destruct (new_scale_hundredths scale delta) as (k & Hk & ->).
  by destruct (hundredths_facts k Hk) as (? & ? & _).
Qed.

Lemma steps_down (n : nat) : forall k,
  (10 <= k <= 500)%Z ->
  Nat.iter n (fun s => new_scale s (-0.1)) (hundredths k)
  = hundredths (Z.max 10 (k - 10 * Z.of_nat n)).
Proof.
  induction n as [|n IH]; intros k Hk.
  - cbn. f_equal. lia.
  - rewrite Nat.iter_succ_r.
    destruct (hundredths_facts k Hk) as (_ & _ & _ & -> & _).
    rewrite IH by lia. f_equal. lia.
Qed.

Lemma steps_up (n : nat) : forall k,
  (10 <= k <= 500)%Z ->
  Nat.iter n (fun s => new_scale s 0.1) (hundredths k)
  = hundredths (Z.min 500 (k + 10 * Z.of_nat n)).
Proof.
  induction n as [|n IH]; intros k Hk.
  - cbn. f_equal. lia.
  - rewrite Nat.iter_succ_r.
    destruct (hundredths_facts k Hk) as (_ & _ & _ & _ & ->).
    rewrite IH by lia. f_equal. lia.
Qed.

(** From any scale at all, fifty steps of [-0.1] (or more) end at exactly
    [0.1], and fifty steps of [+0.1] at exactly [5.0]. *)
Lemma scale_saturates (scale : float) (n : nat) :
  (50 <= n)%nat ->
  Nat.iter n (fun s => new_scale s (-0.1)) scale = 0.1
  /\ Nat.iter n (fun s => new_scale s 0.1) scale = 5.
Proof.
  intros Hn. destruct n as [|n]; [lia|]. rewrite !Nat.iter_succ_r. split.
  - destruct (new_scale_hundredths scale (-0.1)) as (k & Hk & ->).
    rewrite steps_down by done. rewrite <- hundredths_10. f_equal. lia.
  - destruct (new_scale_hundredths scale 0.1) as (k & Hk & ->).
    rewrite steps_up by done. rewrite <- hundredths_500. f_equal. lia.
Qed.

End ScaleFacts.

Section Scaling.

Import PyFloat.
Local Open Scope float_scope.

(** An overlay with its scale replaced. *)
Definition with_scale (s : float) (ov : PlacedOverlay) : PlacedOverlay :=
  mkPlacedOverlay (ov_col ov) (ov_row ov) (ov_path ov) (ov_offset_x ov) (ov_offset_y ov)
                  (ov_rotation ov) s.

Lemma scaled_iter (delta : float) (n : nat) (ov : PlacedOverlay) :
  Nat.iter n (scaled delta) ov
  = with_scale (Nat.iter n (fun s => new_scale s delta) (ov_scale ov)) ov.
Proof.
  induction n as [|n IH].
  - by destruct ov.
  - change (Nat.iter (S n) (scaled delta) ov)
      with (scaled delta (Nat.iter n (scaled delta) ov)).
    rewrite IH. reflexivity.
Qed.

Lemma scale_overlay_iter (delta : float) (n : nat) (self : App) (i : nat)
    (ov : PlacedOverlay) :
  selected_ov_idx self = Some i ->
  overlays (hex_map self) !! i = Some ov ->
  overlays (hex_map (Nat.iter n (_scale_overlay delta) self)) !! i
  = Some (with_scale (Nat.iter n (fun s => new_scale s delta) (ov_scale ov)) ov).
Proof.
  intros Hi Hov. unfold _scale_overlay.
  rewrite (with_selected_overlay_iter _ n self i ov) by done. cbn.
  rewrite list_lookup_insert_eq by (by eapply lookup_lt_Some).
  by rewrite scaled_iter.
Qed.

(** C6.  With an overlay selected, a scale change by any delta stores a
    scale between [0.1] and [5.0]; whatever the scale was, fifty or more
    steps of [-0.1] leave it at exactly [0.1] and fifty or more steps of
    [+0.1] leave it at exactly [5.0], and every scale on the way is in the
    range. *)
Theorem overlay_scale_clamped (self : App) (i : nat) (ov : PlacedOverlay) :
  selected_ov_idx self = Some i ->
  overlays (hex_map self) !! i = Some ov ->
  (forall delta n,
      exists s,
        overlays (hex_map (Nat.iter (S n) (_scale_overlay delta) self)) !! i
        = Some (with_scale s ov)
        /\ (0.1 <=? s) = true /\ (s <=? 5) = true)
  /\ (forall n, (50 <= n)%nat ->
        overlays (hex_map (Nat.iter n (_scale_overlay (-0.1)) self)) !! i
        = Some (with_scale 0.1 ov))
  /\ (forall n, (50 <= n)%nat ->
        overlays (hex_map (Nat.iter n (_scale_overlay 0.1) self)) !! i
        = Some (with_scale 5 ov)).
Proof.
  intros Hi Hov. split; [|split].
  - intros delta n. eexists. split.
    + by apply scale_overlay_iter.
    + change (Nat.iter (S n) (fun s => new_scale s delta) (ov_scale ov))
        with (new_scale (Nat.iter n (fun s => new_scale s delta) (ov_scale ov)) delta).
      apply new_scale_range.
  - intros n Hn. rewrite (scale_overlay_iter _ n self i ov) by done.
    by destruct (scale_saturates (ov_scale ov) n Hn) as [-> _].
  - intros n Hn. rewrite (scale_overlay_iter _ n self i ov) by done.
    by destruct (scale_saturates (ov_scale ov) n Hn) as [_ ->].
Qed.

(** The editor with one overlay placed and selected, at the default scale. *)
Definition scaling_app : App :=
  set_selected_ov_idx (Some 0%nat)
    (set_hex_map (mkHexMap ∅ [new_overlay 0 0 "rune.png"] None) App_init).

Lemma overlay_scale_clamped_witness :
  overlays (hex_map (Nat.iter 50 (_scale_overlay (-0.1)) scaling_app)) !! 0%nat
  = Some (with_scale 0.1 (new_overlay 0 0 "rune.png"))
  /\ overlays (hex_map (Nat.iter 50 (_scale_overlay 0.1) scaling_app)) !! 0%nat
     = Some (with_scale 5 (new_overlay 0 0 "rune.png")).
Proof.
  destruct (overlay_scale_clamped scaling_app 0%nat (new_overlay 0 0 "rune.png"))
    as (_ & Hdown & Hup); [reflexivity | reflexivity |].
  split; [apply Hdown | apply Hup]; lia.
Defined.

(** C10.  With an overlay selected, a scale change stores the two-place
    rounding of the clamped sum: with the old scale plus the delta held
    between 0.1 and 5.0, the stored scale is the float nearest to [k / 100]
    for the whole [k], from 10 to 500, that is nearest to a hundred times
    that value (the even one where two are as near); and rounding the
    stored scale to two places again gives it back. *)
Theorem overlay_scale_two_places (self : App) (i : nat) (ov : PlacedOverlay)
    (delta : float) :
  selected_ov_idx self = Some i ->
  overlays (hex_map self) !! i = Some ov ->
  exists s k,
    overlays (hex_map (_scale_overlay delta self)) !! i = Some (with_scale s ov)
    /\ (10 <= k <= 500)%Z
    /\ s = hundredths k
    /\ nearest_hundredth (clamped (ov_scale ov + delta)) k
    /\ round2 s = s.
Proof.
  intros Hi Hov.
  destruct (new_scale_nearest (ov_scale ov) delta) as (k & Hk & Hs & Hnear).
  exists (new_scale (ov_scale ov) delta), k. split; [|split; [|split; [|split]]].
  - apply (scale_overlay_iter delta 1 self i ov Hi Hov).
  - exact Hk.
  - exact Hs.
  - exact Hnear.
  - rewrite Hs. by destruct (hundredths_facts k Hk) as (_ & _ & -> & _).
Qed.

Lemma overlay_scale_two_places_witness :
  exists s k,
    overlays (hex_map (_scale_overlay 0.1 scaling_app)) !! 0%nat
    = Some (with_scale s (new_overlay 0 0 "rune.png"))
    /\ (10 <= k <= 500)%Z
    /\ s = hundredths k
    /\ nearest_hundredth (clamped (0.5 + 0.1)) k
    /\ round2 s = s.
Proof.
  apply (overlay_scale_two_places scaling_app 0%nat (new_overlay 0 0 "rune.png") 0.1);
    reflexivity.
Defined.

(** The default scale with one step up is [0.6], although [0.5 + 0.1] is
    not. *)
Example scale_step_from_default :
  new_scale OVERLAY_SCALE_DEFAULT 0.1 = 0.6 /\ new_scale 0.6 0.1 = 0.7.
Proof. vm_compute. split; reflexivity. Qed.

End Scaling.

(** ** Zoom *)

(** The transform in exact arithmetic, over the rationals. *)
Module Exact.

Local Open Scope Q_scope.

(** [pointer - scale * (pointer - offset)] with [scale = new / old]. *)
Definition zoom_offset (pointer offset : Q) (new old : Z) : Q :=
  pointer - (inject_Z new / inject_Z old) * (pointer - offset).

(** The map point shown at a screen position, in units of the hex radius,
    and the screen position of a map point. *)
Definition map_point (screen offset : Q) (size : Z) : Q :=
  (screen - offset) / inject_Z size.

Definition screen_point (point offset : Q) (size : Z) : Q :=
  offset + inject_Z size * point.

Lemma pointer_fixed (pointer offset : Q) (new old : Z) :
  old <> 0%Z ->
  screen_point (map_point pointer offset old) (zoom_offset pointer offset new old) new
  == pointer.
Proof.
  intros Hold. unfold screen_point, map_point, zoom_offset.
  assert (Hq : ~ inject_Z old == 0).
  { intros H. apply Hold. unfold Qeq in H. cbn in H. lia. }
  field. exact Hq.
Qed.

End Exact.

Section Zoom.

Import PyFloat.
Local Open Scope float_scope.

(** The radius [_zoom] sets. *)
Definition zoomed_size (size direction : Z) : Z :=
  Z.max MIN_HEX_SIZE (Z.min MAX_HEX_SIZE (size + direction * 5)).

Lemma zoomed_size_range (size direction : Z) :
  (20 <= zoomed_size size direction <= 160)%Z.
Proof. unfold zoomed_size, MIN_HEX_SIZE, MAX_HEX_SIZE. lia. Qed.

(** Whether [_zoom] returns or raises, the radius is the clamped one. *)
Lemma zoom_size (direction ex ey : Z) (self : App) :
  hex_size (_zoom direction ex ey self).2 = zoomed_size (hex_size self) direction.
Proof.
  unfold _zoom, mbind, py_bind, read, assign, eval. cbn.
  fold (zoomed_size (hex_size self) direction).
  destruct (int_true_div _ _) as [scale|e]; cbn; [|done].
  destruct (of_int ex) as [fx|e]; cbn; [|done].
  destruct (of_int ey) as [fy|e]; cbn; done.
Qed.

(** The quotient of two radii of the valid range is a float. *)
Definition ratio_ok (new old : Z) : bool :=
  match int_true_div new old with
  | Ok _ => true
  | Raise _ => false
  end.

Lemma ratio_table :
  forallb (fun old => forallb (fun new => ratio_ok new old) (seqZ 20 141)) (seqZ 20 141)
  = true.
Proof. vm_compute. reflexivity. Qed.

Lemma ratio_defined (new old : Z) :
  (20 <= new <= 160)%Z -> (20 <= old <= 160)%Z ->
  exists scale, int_true_div new old = Ok scale.
Proof.
  intros Hn Ho. pose proof ratio_table as Ht.
  rewrite forallb_forall in Ht.
  assert (Hin : forall k, (20 <= k <= 160)%Z -> In k (seqZ 20 141)).
  { intros k Hk. apply list_elem_of_In, elem_of_seqZ. lia. }
  specialize (Ht old (Hin old Ho)). rewrite forallb_forall in Ht.
  specialize (Ht new (Hin new Hn)). unfold ratio_ok in Ht.
  destruct (int_true_div new old) as [scale|e]; [eauto | discriminate].
Qed.

(** The map point shown at a screen coordinate, in units of the hex radius,
    and the screen coordinate of a map point, as the drawing code computes
    them: [cam + size * point]. *)
Definition map_coord (screen cam : float) (size : Z) : result float :=
  fsize ← of_int size; py_div (screen - cam) fsize.

Definition screen_coord (point cam : float) (size : Z) : result float :=
  fsize ← of_int size; Ok (cam + fsize * point).

(** How far the map point under the pointer coordinate [e] moves on the
    screen when the camera coordinate goes from [cam] to [cam'] and the
    radius from [old] to [new]. *)
Definition pointer_drift (e : Z) (cam cam' : float) (old new : Z) : result float :=
  fe ← of_int e;
  point ← map_coord fe cam old;
  after ← screen_coord point cam' new;
  Ok (abs (after - fe)).

Definition within_one_pixel (r : result float) : bool :=
  match r with
  | Ok d => d <? 1
  | Raise _ => false
  end.

(** C8.  [_zoom] sets the radius to the old one plus five times the
    direction, clamped to [20,160], whether it returns or raises; from a
    radius in that range and a pointer whose coordinates are floats no
    statement before the redraw raises, and each camera coordinate is set
    to [pointer - scale * (pointer - old coordinate)] with [scale] the
    quotient of the new and the old radius; in exact arithmetic this transform leaves the map point under
    the pointer exactly where it is; and in the scenario (pointer (400,300),
    radius 60 to 65, the initial camera) the point moves by less than one
    pixel in binary64. *)
Theorem zoom_to_cursor :
  (forall (self : App) (direction ex ey : Z),
      hex_size (_zoom direction ex ey self).2 = zoomed_size (hex_size self) direction
      /\ (20 <= hex_size (_zoom direction ex ey self).2 <= 160)%Z)
  /\ (forall (self : App) (direction ex ey : Z) (fx fy : float),
        (20 <= hex_size self <= 160)%Z ->
        of_int ex = Ok fx -> of_int ey = Ok fy ->
        exists scale,
          int_true_div (zoomed_size (hex_size self) direction) (hex_size self) = Ok scale
          /\ _zoom direction ex ey self
             = (Ok tt,
                set_cam_y (fy - scale * (fy - cam_y self))
                  (set_cam_x (fx - scale * (fx - cam_x self))
                     (set_hex_size (zoomed_size (hex_size self) direction) self))))
  /\ (forall (pointer offset : Q) (new old : Z),
        old <> 0%Z ->
        Qeq (Exact.screen_point (Exact.map_point pointer offset old)
               (Exact.zoom_offset pointer offset new old) new)
            pointer)
  /\ (let after := (_zoom 1 400 300 App_init).2 in
      hex_size App_init = 60%Z /\ hex_size after = 65%Z
      /\ within_one_pixel (pointer_drift 400 (cam_x App_init) (cam_x after) 60 65) = true
      /\ within_one_pixel (pointer_drift 300 (cam_y App_init) (cam_y after) 60 65) = true).
Proof.
  split; [|split; [|split]].
  - intros self direction ex ey. rewrite zoom_size.
    split; [reflexivity | apply zoomed_size_range].
  - intros self direction ex ey fx fy Hsize Hx Hy.
    destruct (ratio_defined (zoomed_size (hex_size self) direction) (hex_size self)
                (zoomed_size_range _ _) Hsize) as [scale Hscale].
    exists scale. split; [exact Hscale|].
    unfold _zoom, mbind, py_bind, read, assign, eval. cbn.
    fold (zoomed_size (hex_size self) direction).
    rewrite Hscale. cbn. rewrite Hx. cbn. rewrite Hy. reflexivity.
  - intros pointer offset new old Hold. by apply Exact.pointer_fixed.
  - vm_compute. repeat split; reflexivity.
Qed.

Lemma zoom_to_cursor_witness :
  exists scale,
    int_true_div (zoomed_size (hex_size App_init) 1) (hex_size App_init) = Ok scale
    /\ _zoom 1 400 300 App_init
       = (Ok tt,
          set_cam_y (300 - scale * (300 - cam_y App_init))
            (set_cam_x (400 - scale * (400 - cam_x App_init))
               (set_hex_size (zoomed_size (hex_size App_init) 1) App_init))).
Proof.
  destruct zoom_to_cursor as (_ & H & _).
  apply (H App_init 1%Z 400%Z 300%Z 400 300);
    [unfold App_init, HEX_SIZE_DEFAULT; cbn; lia | reflexivity | reflexivity].
Defined.

End Zoom.

(** ** Signs of float results *)

(** Facts about binary64 sums and squares that the search of [pixel_to_hex]
    relies on, from the specification of the primitive operations. *)
Section FloatSigns.

Local Open Scope Z_scope.

Abbreviation emin64 := (SpecFloat.emin prec emax).

(** Not negative: NaN, or a zero, infinity or finite number with sign [+]. *)
Definition sf_nonneg (x : spec_float) : Prop :=
  match x with
  | S754_nan => True
  | S754_zero s | S754_infinity s | S754_finite s _ _ => s = false
  end.

(** Strictly positive. *)
Definition sf_pos (x : spec_float) : Prop :=
  match x with
  | S754_infinity false | S754_finite false _ _ => True
  | _ => False
  end.

Lemma sf_pos_nonneg x : sf_pos x -> sf_nonneg x.
Proof. destruct x as [s|s| |s m e]; cbn; try done; by destruct s. Qed.

Lemma binary_round_aux_nonneg mx ex lx :
  sf_nonneg (binary_round_aux prec emax false mx ex lx).
Proof.
  unfold binary_round_aux.
  destruct (shr_fexp prec emax mx ex lx) as [mrs' e'].
  destruct (shr_fexp prec emax _ e' loc_Exact) as [mrs'' e''].
  destruct (shr_m mrs''); [done| |done].
  by destruct (e'' <=? emax - prec).
Qed.

Lemma binary_round_nonneg m e : sf_nonneg (binary_round prec emax false m e).
Proof.
  unfold binary_round. destruct (shl_align m e _) as [mz ez].
  apply binary_round_aux_nonneg.
Qed.

Lemma SFmul_self_nonneg x : sf_nonneg (SFmul prec emax x x).
Proof.
  destruct x as [[]|[]| |s m e]; cbn [SFmul sf_nonneg xorb]; try done.
  replace (xorb s s) with false by (by destruct s).
  apply binary_round_aux_nonneg.
Qed.

Lemma SFadd_nonneg x y :
  sf_nonneg x -> sf_nonneg y -> sf_nonneg (SFadd prec emax x y).
Proof.
  destruct x as [sx|sx| |sx mx ex], y as [sy|sy| |sy my ey];
    cbn [sf_nonneg]; intros Hx Hy; subst; cbn [SFadd sf_nonneg]; try done.
  cbn [cond_Zopp Z.add binary_normalize]. apply binary_round_nonneg.
Qed.

(** *** A sum of positive floats does not vanish *)

Lemma shr_1_m r : 0 <= shr_m r -> shr_m (shr_1 r) = Z.div2 (shr_m r).
Proof. destruct r as [[|[p|p|]|p] r s]; cbn [shr_m]; intros H; try reflexivity; lia. Qed.

Lemma iter_shr_1_m (k : positive) : forall r,
  0 <= shr_m r -> shr_m (SpecFloat.iter_pos shr_1 k r) = shr_m r / 2 ^ Zpos k.
Proof.
  assert (Hnonneg : forall a b : Z, 0 <= a -> 0 < b -> 0 <= a / b)
    by (intros a b Ha Hb; apply Z.div_pos; lia).
  induction k as [k IH|k IH|]; intros r Hr; cbn [SpecFloat.iter_pos].
  - assert (H1 : 0 <= shr_m (shr_1 r))
      by (rewrite shr_1_m, Z.div2_div by done; apply Hnonneg; lia).
    assert (H2 : 0 <= shr_m (SpecFloat.iter_pos shr_1 k (shr_1 r)))
      by (rewrite IH by done; apply Hnonneg; [done | apply Z.pow_pos_nonneg; lia]).
    rewrite IH by done. rewrite IH by done.
    rewrite shr_1_m, Z.div2_div by done.
    assert (Hp : 0 < 2 ^ Zpos k) by (apply Z.pow_pos_nonneg; lia).
    assert (E : 2 ^ Zpos k~1 = 2 * 2 ^ Zpos k * 2 ^ Zpos k).
    { replace (Zpos k~1) with (1 + Zpos k + Zpos k) by lia.
      rewrite !Z.pow_add_r by lia. reflexivity. }
    rewrite E. rewrite !Z.div_div by lia. f_equal. ring.
  - assert (H2 : 0 <= shr_m (SpecFloat.iter_pos shr_1 k r))
      by (rewrite IH by done; apply Hnonneg; [done | apply Z.pow_pos_nonneg; lia]).
    rewrite IH by done. rewrite IH by done.
    assert (Hp : 0 < 2 ^ Zpos k) by (apply Z.pow_pos_nonneg; lia).
    assert (E : 2 ^ Zpos k~0 = 2 ^ Zpos k * 2 ^ Zpos k).
    { replace (Zpos k~0) with (Zpos k + Zpos k) by lia.
      rewrite Z.pow_add_r by lia. reflexivity. }
    rewrite E. rewrite Z.div_div by lia. reflexivity.
  - rewrite shr_1_m, Z.div2_div by done. reflexivity.
Qed.

Lemma shr_record_of_loc_m m l : shr_m (shr_record_of_loc m l) = m.
Proof. by destruct l as [|[]]. Qed.

(** Shifting a positive mantissa to its canonical exponent leaves it
    positive when the exponent is not below the least one. *)
Lemma shr_fexp_pos (p : positive) (e : Z) (l : location) :
  emin64 <= e ->
  0 < shr_m (shr_fexp prec emax (Zpos p) e l).1
  /\ emin64 <= (shr_fexp prec emax (Zpos p) e l).2.
Proof.
  intros He. unfold shr_fexp, shr, fexp. cbn [Zdigits2].
  pose proof (digits2_pos_bounds p) as Hd.
  set (d := Zpos (digits2_pos p)) in *.
  destruct (Z.max (d + e - prec) emin64 - e) as [|k|k] eqn:Hn; cbn [fst snd].
  - rewrite shr_record_of_loc_m. lia.
  - assert (Hk : Zpos k = d - prec) by lia.
    rewrite iter_shr_1_m by (rewrite shr_record_of_loc_m; lia).
    rewrite shr_record_of_loc_m. split; [|lia].
    apply Z.div_str_pos. split; [apply Z.pow_pos_nonneg; lia|].
    transitivity (2 ^ (d - 1)); [|lia].
    apply Z.pow_le_mono_r; unfold prec in *; lia.
  - rewrite shr_record_of_loc_m. lia.
Qed.

Lemma round_nearest_even_pos m l : 0 < m -> 0 < round_nearest_even m l.
Proof.
  intros Hm. destruct l as [|[]]; cbn; try lia. destruct (Z.even m); lia.
Qed.

Lemma binary_round_aux_pos (p : positive) (e : Z) (l : location) :
  emin64 <= e -> sf_pos (binary_round_aux prec emax false (Zpos p) e l).
Proof.
  intros He. unfold binary_round_aux.
  destruct (shr_fexp_pos p e l He) as [Hm1 He1].
  destruct (shr_fexp prec emax (Zpos p) e l) as [mrs' e']. cbn [fst snd] in *.
  pose proof (round_nearest_even_pos (shr_m mrs') (loc_of_shr_record mrs') Hm1) as Hr.
  destruct (round_nearest_even (shr_m mrs') (loc_of_shr_record mrs')) as [|q|q];
    try lia.
  destruct (shr_fexp_pos q e' loc_Exact He1) as [Hm2 _].
  destruct (shr_fexp prec emax (Zpos q) e' loc_Exact) as [mrs'' e'']. cbn [fst snd] in *.
  destruct (shr_m mrs'') as [|q'|q']; try lia.
  by destruct (e'' <=? emax - prec).
Qed.

Lemma binary_round_pos (m : positive) (e : Z) :
  emin64 <= e -> sf_pos (binary_round prec emax false m e).
Proof.
  intros He. unfold binary_round, shl_align, fexp.
  destruct (Z.max (Zpos (digits2_pos m) + e - prec) emin64 - e) eqn:Hn;
    apply binary_round_aux_pos; lia.
Qed.

Lemma valid_emin s m e : valid_binary (S754_finite s m e) = true -> emin64 <= e.
Proof.
  unfold valid_binary, SpecFloat.valid_binary, bounded, canonical_mantissa, fexp.
  intros H. apply andb_prop in H as [H _]. apply Z.eqb_eq in H. lia.
Qed.

Lemma SFadd_pos x y :
  valid_binary x = true -> valid_binary y = true ->
  sf_pos x -> sf_nonneg y ->
  sf_pos (SFadd prec emax x y) \/ SFadd prec emax x y = S754_nan.
Proof.
  destruct x as [sx|sx| |sx mx ex]; cbn [sf_pos]; try done;
    destruct sx; try done; intros Hvx Hvy _ Hy;
    destruct y as [sy|sy| |sy my ey]; cbn [sf_nonneg] in Hy; subst;
    cbn [SFadd sf_pos]; auto.
  left. cbn [cond_Zopp Z.add binary_normalize].
  apply binary_round_pos.
  apply valid_emin in Hvx, Hvy. lia.
Qed.

End FloatSigns.

Section FloatOrder.

Local Open Scope float_scope.

Lemma Prim2SF_zero : Prim2SF 0 = S754_zero false.
Proof. reflexivity. Qed.

Lemma ltb_zero_pos (d : float) : (0 <? d) = true <-> sf_pos (Prim2SF d).
Proof.
  rewrite ltb_spec, Prim2SF_zero.
  destruct (Prim2SF d) as [[]|[]| |[] m e]; unfold SFltb; cbn; by split.
Qed.

Lemma ltb_nonneg_zero (d : float) : sf_nonneg (Prim2SF d) -> (d <? 0) = false.
Proof.
  rewrite ltb_spec, Prim2SF_zero.
  destruct (Prim2SF d) as [[]|[]| |[] m e]; unfold SFltb; cbn; done.
Qed.

Lemma ltb_nan_l (d b : float) : Prim2SF d = S754_nan -> (d <? b) = false.
Proof. rewrite ltb_spec. by intros ->. Qed.

Lemma square_nonneg (u : float) : sf_nonneg (Prim2SF (u * u)).
Proof. rewrite mul_spec. apply SFmul_self_nonneg. Qed.

(** A sum of two squares is never below zero. *)
Lemma sum_of_squares_not_negative (u v : float) : (u * u + v * v <? 0) = false.
Proof.
  apply ltb_nonneg_zero. rewrite add_spec.
  apply SFadd_nonneg; apply square_nonneg.
Qed.

(** A sum of two squares one of which is positive is positive, if it is a
    number at all. *)
Lemma sum_of_squares_positive (u v b : float) :
  (0 <? u * u) = true -> (u * u + v * v <? b) = true -> (0 <? u * u + v * v) = true.
Proof.
  intros Hu Hlt. apply ltb_zero_pos. apply ltb_zero_pos in Hu.
  rewrite add_spec.
  destruct (SFadd_pos (Prim2SF (u * u)) (Prim2SF (v * v))) as [H|H];
    auto using Prim2SF_valid, square_nonneg.
  rewrite <- add_spec in H. by rewrite (ltb_nan_l _ b H) in Hlt.
Qed.

(** Adding a positive float to [+0] gives it back. *)
Lemma zero_plus_positive (y : float) : (0 <? y) = true -> 0 + y = y.
Proof.
  intros Hy. apply ltb_zero_pos in Hy. apply Prim2SF_inj.
  rewrite add_spec, Prim2SF_zero.
  destruct (Prim2SF y) as [[]|[]| |[] m e]; cbn in Hy; done.
Qed.

End FloatOrder.

(** ** Converting small integers *)

Section FastConversion.

Import PyFloat.
Local Open Scope float_scope.

Lemma binary_round_aux_opp mx ex lx :
  binary_round_aux prec emax true mx ex lx
  = SFopp (binary_round_aux prec emax false mx ex lx).
Proof.
  unfold binary_round_aux.
  destruct (shr_fexp prec emax mx ex lx) as [mrs' e'].
  destruct (shr_fexp prec emax _ e' loc_Exact) as [mrs'' e''].
  destruct (shr_m mrs''); [done| |done].
  by destruct (e'' <=? emax - prec)%Z.
Qed.

Lemma binary_round_opp m e :
  binary_round prec emax true m e = SFopp (binary_round prec emax false m e).
Proof.
  unfold binary_round. destruct (shl_align m e _) as [mz ez].
  apply binary_round_aux_opp.
Qed.

(** A float that has the value [of_int] looks for is its result. *)
Lemma of_int_from_spec (n : Z) (f : float) :
  binary_normalize prec emax n 0 false = Prim2SF f ->
  is_infinity f = false ->
  of_int n = Ok f.
Proof.
  intros Hn Hf. unfold of_int. rewrite Hn.
  destruct (Prim2SF f) as [s|s| |s m e] eqn:E;
    try (rewrite <- E, SF2Prim_Prim2SF; reflexivity).
  rewrite <- (SF2Prim_Prim2SF f), E in Hf. by destruct s.
Qed.

(** The conversion by the primitive operation on machine integers. *)
Definition small_int_to_float (n : Z) : float :=
  if (n <? 0)%Z then - of_uint63 (Uint63.of_Z (- n)) else of_uint63 (Uint63.of_Z n).

Definition small_int_bound : Z := Eval vm_compute in (2 ^ 62)%Z.

Definition convertible (n : Z) : bool :=
  (Z.abs n <? small_int_bound)%Z && negb (is_infinity (small_int_to_float n)).

Lemma of_Z_small (n : Z) :
  (0 <= n < 2 ^ 62)%Z -> Uint63.to_Z (Uint63.of_Z n) = n.
Proof.
  intros Hn. rewrite Uint63.of_Z_spec. apply Z.mod_small.
  change Uint63.wB with (2 ^ 63)%Z.
  assert (2 ^ 62 < 2 ^ 63)%Z by (apply Z.pow_lt_mono_r; lia). lia.
Qed.

Lemma of_int_small (n : Z) :
  convertible n = true -> of_int n = Ok (small_int_to_float n).
Proof.
  unfold convertible, small_int_to_float. intros H.
  apply andb_prop in H as [Hr Hi]. apply Z.ltb_lt in Hr.
  change small_int_bound with (2 ^ 62)%Z in Hr.
  apply negb_true_iff in Hi.
  apply of_int_from_spec; [|exact Hi].
  destruct (Z.ltb_spec n 0) as [Hneg|Hpos].
  - rewrite opp_spec, of_uint63_spec, of_Z_small by lia.
    destruct n as [|p|p]; try lia. cbn [Z.opp binary_normalize].
    apply binary_round_opp.
  - by rewrite of_uint63_spec, of_Z_small by lia.
Qed.

(** [round_half_even] by a power of two, with shifts. *)
Definition nearest_int_shift (m : Z) (p : positive) : Z :=
  let q := Z.shiftr m (Zpos p) in
  let r := Z.land m (Z.ones (Zpos p)) in
  match (2 * r ?= Z.shiftl 1 (Zpos p))%Z with
  | Lt => q
  | Gt => (q + 1)%Z
  | Eq => if Z.even q then q else (q + 1)%Z
  end.

Lemma nearest_int_shift_eq (m : Z) (p : positive) :
  nearest_int_shift m p = round_half_even m (2 ^ Zpos p).
Proof.
  unfold nearest_int_shift, round_half_even.
  rewrite Z.shiftr_div_pow2, Z.land_ones, Z.shiftl_1_l by lia. reflexivity.
Qed.

Definition round_int_fast (x : float) : result Z :=
  match Prim2SF x with
  | S754_nan => Raise ValueError
  | S754_infinity _ => Raise OverflowError
  | S754_zero _ => Ok 0%Z
  | S754_finite s m e =>
      let n := match e with
               | Zneg p => nearest_int_shift (Zpos m) p
               | _ => nearest_int (Zpos m) e
               end in
      Ok (if s then (- n)%Z else n)
  end.

Lemma round_int_fast_eq (x : float) : round_int_fast x = round_int x.
Proof.
  unfold round_int_fast, round_int.
  destruct (Prim2SF x) as [s|s| |s m [|p|p]]; try reflexivity.
  cbn [nearest_int]. by rewrite nearest_int_shift_eq.
Qed.

End FastConversion.

(** ** The round trip through pixel space *)

Section RoundTrip.

Import PyFloat.
Local Open Scope float_scope.

Lemma for_each_app {A S : Type} (l1 l2 : list A) (body : A -> S -> result S) (s : S) :
  for_each (l1 ++ l2) body s = (s' ← for_each l1 body s; for_each l2 body s').
Proof.
  revert s. induction l1 as [|x l1 IH]; intros s; cbn; [done|].
  destruct (body x s) as [s'|e]; cbn; [apply IH | done].
Qed.

Lemma py_sq_square (x y : float) : py_sq x = Ok y -> y = x * x.
Proof.
  unfold py_sq. destruct (is_infinity (x * x) && negb (is_infinity x)); congruence.
Qed.

(** The parity of a column and of the columns next to it. *)
Lemma land_one (c : Z) : Z.land c 1 = (c mod 2)%Z.
Proof. change (Z.land c (Z.ones 1) = c mod 2 ^ 1)%Z. apply Z.land_ones. lia. Qed.

Lemma parity_range (c : Z) : Z.land c 1 = 0%Z \/ Z.land c 1 = 1%Z.
Proof. rewrite land_one. pose proof (Z.mod_pos_bound c 2). lia. Qed.

Lemma parity_next (c d : Z) :
  (d = 1 \/ d = -1)%Z -> Z.land (c + d) 1 = (1 - Z.land c 1)%Z.
Proof.
  intros Hd. rewrite !land_one.
  pose proof (Z.mod_pos_bound c 2). pose proof (Z.mod_pos_bound (c + d) 2).
  pose proof (Z.div_mod c 2). pose proof (Z.div_mod (c + d) 2). lia.
Qed.

(** One candidate of the search, from the values its steps produce. *)
Lemma candidate_steps (px py : float) (size col dc dr : Z) (best : Z * Z) (best_d : float)
    (fsize fpar fc fr q dx2 dy2 : float) (r0 : Z) :
  of_int size = Ok fsize ->
  of_int (Z.land (col + dc) 1) = Ok fpar ->
  py_div py (fsize * sqrt3) = Ok q ->
  round_int (q - 0.5 * fpar) = Ok r0 ->
  of_int (col + dc) = Ok fc ->
  of_int (r0 + dr) = Ok fr ->
  py_sq (px - fsize * 1.5 * fc) = Ok dx2 ->
  py_sq (py - fsize * sqrt3 * (fr + 0.5 * fpar)) = Ok dy2 ->
  candidate px py size col dc dr (best, best_d)
  = Ok (if dx2 + dy2 <? best_d
        then (((col + dc)%Z, (r0 + dr)%Z), dx2 + dy2)
        else (best, best_d)).
Proof.
  intros Hs Hp Hq Hr Hc Hfr Hx Hy.
  unfold candidate, hex_to_pixel, mbind, result_bind.
  rewrite Hs, Hp, Hq, Hr. cbv beta iota zeta.
  rewrite ?Hs, Hc, ?Hp, Hfr. cbv beta iota zeta.
  rewrite Hx, Hy. reflexivity.
Qed.

(** The best distance so far is positive. *)
Definition ahead (st : (Z * Z) * float) : Prop := (0 <? st.2) = true.

(** The search has found [hex] at distance zero. *)
Definition found (hex : Z * Z) (st : (Z * Z) * float) : Prop := st = (hex, 0).

(** A candidate at a positive distance keeps the best distance positive. *)
Lemma candidate_ahead (px py : float) (size col dc dr : Z) (st : (Z * Z) * float)
    (fsize fpar fc fr q dx2 dy2 : float) (r0 : Z) :
  of_int size = Ok fsize ->
  of_int (Z.land (col + dc) 1) = Ok fpar ->
  py_div py (fsize * sqrt3) = Ok q ->
  round_int (q - 0.5 * fpar) = Ok r0 ->
  of_int (col + dc) = Ok fc ->
  of_int (r0 + dr) = Ok fr ->
  py_sq (px - fsize * 1.5 * fc) = Ok dx2 ->
  py_sq (py - fsize * sqrt3 * (fr + 0.5 * fpar)) = Ok dy2 ->
  ((0 <? dx2) = true \/ (dx2 = 0 /\ (0 <? dy2) = true)) ->
  ahead st ->
  exists st', candidate px py size col dc dr st = Ok st' /\ ahead st'.
Proof.
  intros Hs Hp Hq Hr Hc Hfr Hx Hy Hpos Hst. destruct st as [best best_d].
  rewrite (candidate_steps _ _ _ _ _ _ _ _ _ _ _ _ _ _ _ _ Hs Hp Hq Hr Hc Hfr Hx Hy).
  eexists. split; [reflexivity|].
  destruct (dx2 + dy2 <? best_d) eqn:Hlt; [|exact Hst].
  unfold ahead. cbn [snd].
  destruct Hpos as [Hpos | [-> Hpos]].
  - apply py_sq_square in Hx, Hy. subst dx2 dy2.
    by eapply sum_of_squares_positive.
  - by rewrite zero_plus_positive.
Qed.

(** The candidate at distance zero is taken when the best distance so far is
    positive. *)
Lemma candidate_found (px py : float) (size col dc dr : Z) (st : (Z * Z) * float)
    (fsize fpar fc fr q : float) (r0 : Z) :
  of_int size = Ok fsize ->
  of_int (Z.land (col + dc) 1) = Ok fpar ->
  py_div py (fsize * sqrt3) = Ok q ->
  round_int (q - 0.5 * fpar) = Ok r0 ->
  of_int (col + dc) = Ok fc ->
  of_int (r0 + dr) = Ok fr ->
  py_sq (px - fsize * 1.5 * fc) = Ok 0 ->
  py_sq (py - fsize * sqrt3 * (fr + 0.5 * fpar)) = Ok 0 ->
  ahead st ->
  candidate px py size col dc dr st = Ok (((col + dc)%Z, (r0 + dr)%Z), 0).
Proof.
  intros Hs Hp Hq Hr Hc Hfr Hx Hy Hst. destruct st as [best best_d].
  rewrite (candidate_steps _ _ _ _ _ _ _ _ _ _ _ _ _ _ _ _ Hs Hp Hq Hr Hc Hfr Hx Hy).
  unfold ahead in Hst. cbn [snd] in Hst.
  change (0 + 0) with 0. by rewrite Hst.
Qed.

(** Once a hex is found at distance zero no candidate replaces it. *)
Lemma candidate_kept (px py : float) (size col dc dr : Z) (hex : Z * Z)
    (fsize fpar fc fr q dx2 dy2 : float) (r0 : Z) :
  of_int size = Ok fsize ->
  of_int (Z.land (col + dc) 1) = Ok fpar ->
  py_div py (fsize * sqrt3) = Ok q ->
  round_int (q - 0.5 * fpar) = Ok r0 ->
  of_int (col + dc) = Ok fc ->
  of_int (r0 + dr) = Ok fr ->
  py_sq (px - fsize * 1.5 * fc) = Ok dx2 ->
  py_sq (py - fsize * sqrt3 * (fr + 0.5 * fpar)) = Ok dy2 ->
  candidate px py size col dc dr (hex, 0) = Ok (hex, 0).
Proof.
  intros Hs Hp Hq Hr Hc Hfr Hx Hy.
  rewrite (candidate_steps _ _ _ _ _ _ _ _ _ _ _ _ _ _ _ _ Hs Hp Hq Hr Hc Hfr Hx Hy).
  apply py_sq_square in Hx, Hy. subst dx2 dy2.
  by rewrite sum_of_squares_not_negative.
Qed.

(** *** The steps of a candidate, checked by evaluation *)

(** The horizontal step for the candidate column [c]: [c] converts and the
    square of the horizontal distance is a float for which [P] holds. *)
Definition col_step (px fsize : float) (c : Z) (P : float -> Prop) : Prop :=
  exists fc a, of_int c = Ok fc /\ py_sq (px - fsize * 1.5 * fc) = Ok a /\ P a.

Definition col_stepb (px fsize : float) (c : Z) (p : float -> bool) : bool :=
  convertible c
  && match py_sq (px - fsize * 1.5 * small_int_to_float c) with
     | Ok a => p a
     | Raise _ => false
     end.

Lemma col_stepb_spec px fsize c p :
  col_stepb px fsize c p = true -> col_step px fsize c (fun a => p a = true).
Proof.
  unfold col_stepb, col_step. intros H. apply andb_prop in H as [Hc H].
  destruct (py_sq _) as [a|e] eqn:Ha; [|discriminate].
  exists (small_int_to_float c), a. by rewrite of_int_small.
Qed.

(** The vertical step for the candidate row [r] in a column of the parity
    whose float is [fpar]. *)
Definition row_step (py fsize fpar : float) (r : Z) (P : float -> Prop) : Prop :=
  exists fr d,
    of_int r = Ok fr /\ py_sq (py - fsize * sqrt3 * (fr + 0.5 * fpar)) = Ok d /\ P d.

Definition row_stepb (py fsize fpar : float) (r : Z) (p : float -> bool) : bool :=
  convertible r
  && match py_sq (py - fsize * sqrt3 * (small_int_to_float r + 0.5 * fpar)) with
     | Ok d => p d
     | Raise _ => false
     end.

Lemma row_stepb_spec py fsize fpar r p :
  row_stepb py fsize fpar r p = true -> row_step py fsize fpar r (fun d => p d = true).
Proof.
  unfold row_stepb, row_step. intros H. apply andb_prop in H as [Hc H].
  destruct (py_sq _) as [d|e] eqn:Hd; [|discriminate].
  exists (small_int_to_float r), d. by rewrite of_int_small.
Qed.

Lemma row_steps_spec py fsize fpar r0 p drs :
  forallb (fun dr => row_stepb py fsize fpar (r0 + dr) p) drs = true ->
  Forall (fun dr => row_step py fsize fpar (r0 + dr)%Z (fun d => p d = true)) drs.
Proof.
  intros H. apply Forall_forall. intros dr Hin.
  rewrite forallb_forall in H. apply row_stepb_spec, H. by apply list_elem_of_In.
Qed.

(** *** The inner loop *)

Section Inner.

Variables (px py : float) (size col dc : Z) (fsize fpar q : float) (r0 : Z).
Hypothesis Hsize : of_int size = Ok fsize.
Hypothesis Hpar : of_int (Z.land (col + dc) 1) = Ok fpar.
Hypothesis Hq : py_div py (fsize * sqrt3) = Ok q.
Hypothesis Hr0 : round_int (q - 0.5 * fpar) = Ok r0.

Abbreviation inner drs st :=
  (for_each drs (fun dr s => candidate px py size col dc dr s) st).

(** Rows at a positive distance, or in a column at a positive distance. *)
Lemma inner_ahead (drs : list Z) (P : float -> Prop) (Q : float -> Prop) :
  (forall a d, P a -> Q d -> (0 <? a) = true \/ (a = 0 /\ (0 <? d) = true)) ->
  col_step px fsize (col + dc) P ->
  Forall (fun dr => row_step py fsize fpar (r0 + dr)%Z Q) drs ->
  forall st, ahead st -> exists st', inner drs st = Ok st' /\ ahead st'.
Proof.
  intros HPQ (fc & a & Hc & Ha & HP) Hrows.
  induction Hrows as [|dr drs (fr & d & Hfr & Hd & HQ) _ IH]; intros st Hst.
  - exists st. by split.
  - destruct (candidate_ahead px py size col dc dr st fsize fpar fc fr q a d r0)
      as (st1 & E1 & Hst1); auto.
    destruct (IH st1 Hst1) as (st' & E' & Hst').
    exists st'. split; [|done]. cbn [for_each]. by rewrite E1.
Qed.

(** After the hex has been found. *)
Lemma inner_kept (drs : list Z) (hex : Z * Z) :
  col_step px fsize (col + dc) (fun _ => true = true) ->
  Forall (fun dr => row_step py fsize fpar (r0 + dr)%Z (fun _ => true = true)) drs ->
  inner drs (hex, 0) = Ok (hex, 0).
Proof.
  intros (fc & a & Hc & Ha & _) Hrows.
  induction Hrows as [|dr drs (fr & d & Hfr & Hd & _) _ IH]; [done|].
  cbn [for_each].
  rewrite (candidate_kept px py size col dc dr hex fsize fpar fc fr q a d r0); auto.
Qed.

End Inner.

(** *** What is checked of a column and of a row *)

Definition column_ok (size col : Z) : bool :=
  convertible size && convertible col
  && let fsize := small_int_to_float size in
     let px := fsize * 1.5 * small_int_to_float col in
     match py_div px (fsize * 1.5) with
     | Ok q => match round_int_fast q with Ok c => (c =? col)%Z | Raise _ => false end
     | Raise _ => false
     end
     && col_stepb px fsize (col + -1) (fun a => 0 <? a)
     && col_stepb px fsize (col + 0) (fun a => Leibniz.eqb a 0)
     && col_stepb px fsize (col + 1) (fun _ => true).

Definition row_ok (size par row : Z) : bool :=
  convertible size && convertible par && convertible (1 - par) && convertible row
  && let fsize := small_int_to_float size in
     let fpar := small_int_to_float par in
     let fother := small_int_to_float (1 - par) in
     let py := fsize * sqrt3 * (small_int_to_float row + 0.5 * fpar) in
     match py_div py (fsize * sqrt3) with
     | Ok q =>
         match round_int_fast (q - 0.5 * fpar) with
         | Ok r0 =>
             (r0 =? row)%Z
             && forallb (fun dr => row_stepb py fsize fpar (row + dr) (fun d => 0 <? d))
                        [-2; -1]%Z
             && row_stepb py fsize fpar (row + 0) (fun d => Leibniz.eqb d 0)
             && forallb (fun dr => row_stepb py fsize fpar (row + dr) (fun _ => true))
                        [1; 2]%Z
         | Raise _ => false
         end
         && match round_int_fast (q - 0.5 * fother) with
            | Ok r0 =>
                forallb (fun dr => row_stepb py fsize fother (r0 + dr) (fun _ => true))
                        [-2; -1; 0; 1; 2]%Z
            | Raise _ => false
            end
     | Raise _ => false
     end.

(** *** From the checks to the round trip *)

(** Splits a hypothesis [a && b && ... = true] into its conjuncts. *)
Ltac split_andb H :=
  lazymatch type of H with
  | (?a && ?b) = true =>
      let H1 := fresh "Hb" in
      let H2 := fresh "Hb" in
      apply andb_prop in H as [H1 H2]; split_andb H1; split_andb H2
  | _ => idtac
  end.

Lemma for_each_three {A S : Type} (a b c : A) (body : A -> S -> result S) (s : S) :
  for_each [a; b; c] body s
  = (s1 ← body a s; s2 ← body b s1; body c s2).
Proof.
  cbn. destruct (body a s) as [s1|]; cbn; [|done].
  destruct (body b s1) as [s2|]; cbn; [|done].
  by destruct (body c s2).
Qed.

Lemma for_each_five {A S : Type} (a b c d e : A) (body : A -> S -> result S) (s : S) :
  for_each [a; b; c; d; e] body s
  = (s1 ← for_each [a; b] body s; s2 ← body c s1; for_each [d; e] body s2).
Proof.
  change [a; b; c; d; e] with ([a; b] ++ [c] ++ [d; e]).
  rewrite for_each_app. destruct (for_each [a; b] body s) as [s1|]; cbn; [|done].
  by destruct (body c s1).
Qed.

Lemma ahead_initial (hex : Z * Z) : ahead (hex, infinity).
Proof. reflexivity. Qed.

Lemma round_trip_checked (size col row : Z) :
  column_ok size col = true ->
  row_ok size (Z.land col 1) row = true ->
  exists px py,
    hex_to_pixel col row size = Ok (px, py)
    /\ pixel_to_hex px py size = Ok (col, row).
Proof.
  unfold column_ok, row_ok.
  set (par := Z.land col 1).
  set (fsize := small_int_to_float size).
  set (fcol := small_int_to_float col).
  set (frow := small_int_to_float row).
  set (fpar := small_int_to_float par).
  set (fother := small_int_to_float (1 - par)).
  set (px := fsize * 1.5 * fcol).
  set (py := fsize * sqrt3 * (frow + 0.5 * fpar)).
  cbv zeta. intros Hcol Hrow.
  split_andb Hcol. split_andb Hrow.
  match goal with H : convertible size = true |- _ =>
    pose proof (of_int_small size H) as Hsize end.
  match goal with H : convertible col = true |- _ =>
    pose proof (of_int_small col H) as Hfcol end.
  match goal with H : convertible par = true |- _ =>
    pose proof (of_int_small par H) as Hfpar end.
  match goal with H : convertible (1 - par) = true |- _ =>
    pose proof (of_int_small (1 - par) H) as Hfother end.
  match goal with H : convertible row = true |- _ =>
    pose proof (of_int_small row H) as Hfrow end.
  fold fsize in Hsize. fold fcol in Hfcol. fold fpar in Hfpar.
  fold fother in Hfother. fold frow in Hfrow.
  exists px, py. split.
  { unfold hex_to_pixel, mbind, result_bind. fold par.
    by rewrite Hsize, Hfcol, Hfpar, Hfrow. }
  (* the column estimate *)
  destruct (py_div px (fsize * 1.5)) as [q0|] eqn:Hq0; [|discriminate].
  destruct (round_int_fast q0) as [c|] eqn:Hc; [|discriminate].
  rewrite round_int_fast_eq in Hc.
  match goal with H : (c =? col)%Z = true |- _ => apply Z.eqb_eq in H; subst c end.
  (* the rows *)
  destruct (py_div py (fsize * sqrt3)) as [q|] eqn:Hq; [|discriminate].
  match goal with H : (_ && _) = true |- _ => apply andb_prop in H as [Hown Hoth] end.
  destruct (round_int_fast (q - 0.5 * fpar)) as [r0|] eqn:Hr0; [|discriminate].
  destruct (round_int_fast (q - 0.5 * fother)) as [r1|] eqn:Hr1; [|discriminate].
  rewrite round_int_fast_eq in Hr0, Hr1.
  split_andb Hown.
  match goal with H : (r0 =? row)%Z = true |- _ => apply Z.eqb_eq in H; subst r0 end.
  repeat match goal with
         | H : col_stepb _ _ _ _ = true |- _ => apply col_stepb_spec in H
         | H : row_stepb _ _ _ _ _ = true |- _ => apply row_stepb_spec in H
         | H : forallb _ _ = true |- _ => apply row_steps_spec in H
         end.
  assert (Hpm : of_int (Z.land (col + -1) 1) = Ok fother)
    by (rewrite parity_next by auto; exact Hfother).
  assert (Hp0 : of_int (Z.land (col + 0) 1) = Ok fpar)
    by (rewrite Z.add_0_r; exact Hfpar).
  assert (Hpp : of_int (Z.land (col + 1) 1) = Ok fother)
    by (rewrite parity_next by auto; exact Hfother).
  unfold pixel_to_hex, mbind at 1 2 3, result_bind at 1 2 3.
  rewrite Hsize, Hq0, Hc. rewrite for_each_three.
  (* the column before *)
  destruct (inner_ahead px py size col (-1) fsize fother q r1 Hsize Hpm Hq Hr1
              [-2; -1; 0; 1; 2]%Z (fun a => (0 <? a) = true) (fun _ => true = true))
    with (st := ((col, 0%Z), infinity)) as (s1 & -> & Hs1); auto using ahead_initial.
  cbn [mbind result_bind].
  rewrite (for_each_five _ _ _ _ _ _ s1).
  (* the column itself: the rows before, the row, the rows after *)
  destruct (inner_ahead px py size col 0 fsize fpar q row Hsize Hp0 Hq Hr0
              [-2; -1]%Z (fun a => Leibniz.eqb a 0 = true) (fun d => (0 <? d) = true))
    with (st := s1) as (s2 & -> & Hs2); auto.
  { intros a d Ha Hd. right. split; [by apply Leibniz.eqb_spec | done]. }
  cbn [mbind result_bind].
  match goal with
  | Hx : col_step px fsize (col + 0) _, Hy : row_step py fsize fpar (row + 0) _ |- _ =>
      destruct Hx as (fc & a & Hfc & Ha & Ha0);
      destruct Hy as (fr & d & Hfr & Hd & Hd0)
  end.
  apply Leibniz.eqb_spec in Ha0, Hd0. subst a d.
  rewrite (candidate_found px py size col 0 0 s2 fsize fpar fc fr q row); auto.
  cbn [mbind result_bind].
  rewrite (inner_kept px py size col 0 fsize fpar q row Hsize Hp0 Hq Hr0); auto.
  2:{ exists fc, 0. auto. }
  cbn [mbind result_bind].
  (* the column after *)
  rewrite (inner_kept px py size col 1 fsize fother q r1 Hsize Hpp Hq Hr1); auto.
  cbn [mbind result_bind fst]. by rewrite !Z.add_0_r.
Qed.

(** *** The checked range *)

Definition sizes : list Z := seqZ 20 141.
Definition coordinates (n : Z) : list Z := seqZ (- n) (2 * n + 1).

Definition columns_ok (n : Z) : bool :=
  let cs := coordinates n in
  forallb (fun size => forallb (column_ok size) cs) sizes.

Definition rows_ok (n : Z) : bool :=
  let rs := coordinates n in
  forallb (fun size => forallb (fun par => forallb (row_ok size par) rs) [0; 1]%Z) sizes.

Lemma columns_ok_spec (n size col : Z) :
  columns_ok n = true -> In size sizes -> In col (coordinates n) ->
  column_ok size col = true.
Proof.
  unfold columns_ok. cbv zeta. intros H Hs Hc.
  rewrite forallb_forall in H. specialize (H size Hs).
  rewrite forallb_forall in H. exact (H col Hc).
Qed.

Lemma rows_ok_spec (n size col row : Z) :
  rows_ok n = true -> In size sizes -> In row (coordinates n) ->
  row_ok size (Z.land col 1) row = true.
Proof.
  unfold rows_ok. cbv zeta. intros H Hs Hr.
  rewrite forallb_forall in H. specialize (H size Hs).
  rewrite forallb_forall in H.
  assert (Hpar : In (Z.land col 1) [0; 1]%Z).
  { destruct (parity_range col) as [-> | ->]; cbn; auto. }
  specialize (H (Z.land col 1) Hpar).
  rewrite forallb_forall in H. exact (H row Hr).
Qed.

Lemma columns_table : columns_ok 200 = true.
Proof. vm_compute. reflexivity. Qed.

Lemma rows_table : rows_ok 200 = true.
Proof. vm_compute. reflexivity. Qed.

Lemma in_sizes (size : Z) : (20 <= size <= 160)%Z -> In size sizes.
Proof. intros H. apply list_elem_of_In, elem_of_seqZ. lia. Qed.

Lemma in_coordinates (k : Z) : (-200 <= k <= 200)%Z -> In k (coordinates 200).
Proof. intros H. apply list_elem_of_In, elem_of_seqZ. lia. Qed.

(** X1.  For every integer radius from 20 to 160 and every column and row
    from -200 to 200, [hex_to_pixel] returns a point and [pixel_to_hex]
    returns, for that point, exactly the column and the row. *)
Theorem round_trip_within_range (size col row : Z) :
  (20 <= size <= 160)%Z ->
  (-200 <= col <= 200)%Z ->
  (-200 <= row <= 200)%Z ->
  exists px py,
    hex_to_pixel col row size = Ok (px, py)
    /\ pixel_to_hex px py size = Ok (col, row).
Proof.
  intros Hsize Hcol Hrow. apply round_trip_checked.
  - exact (columns_ok_spec 200 size col columns_table (in_sizes size Hsize)
             (in_coordinates col Hcol)).
  - exact (rows_ok_spec 200 size col row rows_table (in_sizes size Hsize)
             (in_coordinates row Hrow)).
Qed.

Lemma round_trip_within_range_witness :
  exists px py,
    hex_to_pixel 2 (-1) 60 = Ok (px, py) /\ pixel_to_hex px py 60 = Ok (2, -1)%Z.
Proof. apply (round_trip_within_range 60 2 (-1)); lia. Defined.

(** The round trip composed. *)
Definition round_trip (col row size : Z) : result (Z * Z) :=
  p ← hex_to_pixel col row size; pixel_to_hex p.1 p.2 size.

(** Column [2^54 + 2] has no float of its own: [hex_to_pixel] places it
    where column [2^54] is, and [pixel_to_hex] returns that column. *)
Lemma round_trip_fails_far_out :
  round_trip 18014398509481986 0 60 = Ok (18014398509481984, 0)%Z
  /\ (18014398509481984 =? 18014398509481986)%Z = false.
Proof. split; vm_compute; reflexivity. Qed.

End RoundTrip.

(** ** What [load] accepts and what it leaves behind *)

Section LoadFacts.

Local Open Scope string_scope.

(** Whether a key is present in a JSON object. *)
Definition present {A} (field : option A) : bool :=
  match field with
  | Some _ => true
  | None => false
  end.

(** The entries [load] can read: the keys it reads with [t["..."]] are
    present. *)
Definition tile_entry_ok (t : tile_entry) : bool :=
  present (te_col t) && present (te_row t) && present (te_path t).



Definition required_keys : list string := ["col"; "row"; "path"].

(** The loop of the dict comprehension, from any dictionary. *)
Definition store_entries (ts : list tile_entry) (init : gmap (Z * Z) PlacedTile)
  : result (gmap (Z * Z) PlacedTile) :=
  for_each ts (fun t m => '(k, v) ← tile_of_json t; Ok (<[k := v]> m)) init.

Lemma tile_of_json_cases (t : tile_entry) :
  (tile_entry_ok t = true
   /\ exists c r p cat rot,
        tile_of_json t = Ok ((c, r), mkPlacedTile c r p cat rot))
  \/ (tile_entry_ok t = false
      /\ exists k, tile_of_json t = Raise (KeyError k) /\ k ∈ required_keys).
Proof.
  destruct t as [[c|] [r|] [p|] cat rot]; cbn;
    first [ left; split; [reflexivity | by eauto 10]
          | right; split; [reflexivity|];
            eexists; split; [reflexivity|]; unfold required_keys; set_solver ].
Qed.


Lemma store_entries_cases (ts : list tile_entry) : forall init,
  (forallb tile_entry_ok ts = true /\ exists m, store_entries ts init = Ok m)
  \/ (forallb tile_entry_ok ts = false
      /\ exists k, store_entries ts init = Raise (KeyError k) /\ k ∈ required_keys).
Proof.
  induction ts as [|t ts IH]; intros init.
  - left. split; [reflexivity|]. by exists init.
  - unfold store_entries. cbn [for_each forallb].
    destruct (tile_of_json_cases t) as [[-> (c & r & p & cat & rot & ->)]
                                       | [-> (k & -> & Hk)]]; cbn.
    + apply IH.
    + right. split; [reflexivity|]. by exists k.
Qed.



Lemma tile_of_json_key (t : tile_entry) (k : Z * Z) (v : PlacedTile) :
  tile_of_json t = Ok (k, v) -> k = (tile_col v, tile_row v).
Proof.
  destruct t as [[c|] [r|] [p|] cat rot]; cbn; intros H; try discriminate.
  by inversion H.
Qed.

Lemma store_entries_keys_agree (ts : list tile_entry) : forall init m,
  keys_agree init -> store_entries ts init = Ok m -> keys_agree m.
Proof.
  induction ts as [|t ts IH]; intros init m Hinit; unfold store_entries; cbn.
  - intros [= <-]. exact Hinit.
  - destruct (tile_of_json t) as [[k v]|e] eqn:Ht; cbn; [|discriminate].
    apply IH. apply tile_of_json_key in Ht. subst k.
    by apply map_Forall_insert_2.
Qed.

(** X3.  After [HexMap.load], whether it returned or raised, every tile
    of the map is stored under the coordinate it records, provided this
    held before or the call returned. *)
Theorem load_keys_agree (fs : disk) (path : string) (self : HexMap) :
  keys_agree (tiles self) \/ (load fs path self).1 = Ok tt ->
  keys_agree (tiles (load fs path self).2).
Proof.
  rewrite load_unfold. intros H.
  destruct (json_load fs path) as [d|e]; cbn in *; [|by destruct H].
  destruct (tiles_of_json (get (doc_tiles d) [])) as [m|e] eqn:Hm; cbn in *;
    [|by destruct H].
  assert (Hk : keys_agree m).
  { apply (store_entries_keys_agree (get (doc_tiles d) []) ∅ m);
      [apply keys_agree_empty | exact Hm]. }
  destruct (overlays_of_json _) as [vs|e]; cbn; exact Hk.
Qed.

Lemma load_keys_agree_witness :
  keys_agree (tiles (load {[ "bad.hexmap" := Json overlay_without_col ]}
                          "bad.hexmap" map_before).2).
Proof.
  apply (load_keys_agree {[ "bad.hexmap" := Json overlay_without_col ]}
                         "bad.hexmap" map_before).
  left. apply (bool_decide_unpack _). vm_compute. exact I.
Defined.

(** X4.  When [HexMap.load] raises, the overlays and the file path of
    the map are the old ones; and when the file could not be read, was
    not JSON, or one of its tile entries lacked a required key, the
    whole map is the old one. *)
Theorem load_failure_keeps (fs : disk) (path : string) (self self' : HexMap)
    (e : exn) :
  load fs path self = (Raise e, self') ->
  overlays self' = overlays self
  /\ filepath self' = filepath self
  /\ ((forall d, fs !! path = Some (Json d) ->
         forallb tile_entry_ok (get (doc_tiles d) []) = false) ->
      self' = self).
Proof.
  rewrite load_unfold. unfold json_load. intros H.
  destruct (fs !! path) as [[|d]|]; cbn in H; [by inversion H| |by inversion H].
  change (tiles_of_json (get (doc_tiles d) []))
    with (store_entries (get (doc_tiles d) []) ∅) in H.
  destruct (store_entries_cases (get (doc_tiles d) []) ∅)
    as [[Hok (m & Hm)] | [Hbad (k & Hm & Hk)]]; rewrite Hm in H; cbn in H.
  - destruct (overlays_of_json _) as [vs|e']; inversion H; subst.
    split; [done|]. split; [done|]. intros Hd.
    specialize (Hd d eq_refl). congruence.
  - by inversion H.
Qed.

Lemma load_failure_keeps_witness :
  let self' := (load ∅ "missing.hexmap" map_before).2 in
  overlays self' = overlays map_before
  /\ filepath self' = filepath map_before
  /\ ((forall d, (∅ : disk) !! "missing.hexmap" = Some (Json d) ->
         forallb tile_entry_ok (get (doc_tiles d) []) = false) ->
      self' = map_before).
Proof.
  apply (load_failure_keeps ∅ "missing.hexmap" map_before _ OSError).
  reflexivity.
Defined.

(** Whether one of the entries [ts] records the coordinate [k]. *)
Definition later_with_key (k : Z * Z) (ts : list tile_entry) : bool :=
  existsb (fun t => bool_decide (te_col t = Some k.1) && bool_decide (te_row t = Some k.2)) ts.

Lemma store_entries_app (ts ts' : list tile_entry) (init : gmap (Z * Z) PlacedTile) :
  store_entries (ts ++ ts') init = m ← store_entries ts init; store_entries ts' m.
Proof.
  revert init. induction ts as [|t ts IH]; intros init; [done|].
  unfold store_entries in *. cbn.
  destruct (tile_of_json t) as [[k v]|e]; cbn; [apply IH | done].
Qed.

Lemma store_entries_other_keys (ts : list tile_entry) (k : Z * Z) : forall init m,
  later_with_key k ts = false -> store_entries ts init = Ok m -> m !! k = init !! k.
Proof.
  induction ts as [|t ts IH]; intros init m Hlater; unfold store_entries; cbn.
  - by intros [= <-].
  - cbn in Hlater. apply orb_false_elim in Hlater as [Ht Hlater].
    destruct (tile_of_json t) as [[k' v']|e] eqn:Hk'; cbn; [|discriminate].
    intros H. rewrite (IH _ _ Hlater H).
    apply lookup_insert_ne. intros ->.
    destruct t as [[c|] [r|] [p|] cat rot]; cbn in Hk'; try discriminate.
    inversion Hk'; subst. cbn in Ht.
    by rewrite !bool_decide_eq_true_2 in Ht.
Qed.

(** X5.  When a document lists several tiles for one coordinate,
    [HexMap.load] keeps the last of them: an entry followed by no entry
    with its column and row is the tile of that coordinate after the
    load, with the defaults for the keys it lacks. *)
Theorem load_last_entry_wins (before after : list tile_entry) (t : tile_entry)
    (c r : Z) (p : string) :
  te_col t = Some c -> te_row t = Some r -> te_path t = Some p ->
  forallb tile_entry_ok before = true ->
  forallb tile_entry_ok after = true ->
  later_with_key (c, r) after = false ->
  exists m,
    tiles_of_json (before ++ t :: after) = Ok m
    /\ m !! (c, r)
       = Some (mkPlacedTile c r p (get (te_category t) "") (get (te_rotation t) 0)).
Proof.
  intros Hc Hr Hp Hbefore Hafter Hlater.
  change (tiles_of_json (before ++ t :: after))
    with (store_entries (before ++ t :: after) ∅).
  rewrite store_entries_app.
  destruct (store_entries_cases before ∅) as [[_ (m0 & ->)] | [Hbad _]];
    [|congruence].
  cbn [mbind result_bind]. unfold store_entries at 1. cbn [for_each].
  assert (Ht : tile_of_json t
               = Ok ((c, r), mkPlacedTile c r p (get (te_category t) "")
                                          (get (te_rotation t) 0))).
  { unfold tile_of_json. rewrite Hc, Hr, Hp. reflexivity. }
  rewrite Ht. cbn [mbind result_bind].
  match goal with
  | |- context [for_each after ?body ?init] =>
      change (for_each after body init) with (store_entries after init);
      destruct (store_entries_cases after init) as [[_ (m & Hm)] | [Hbad _]];
        [|congruence]
  end.
  exists m. split; [exact Hm|].
  rewrite (store_entries_other_keys after (c, r) _ m Hlater Hm).
  apply lookup_insert_eq.
Qed.

Lemma load_last_entry_wins_witness :
  exists m,
    tiles_of_json
      ([mkTileEntry (Some 1) (Some 2) (Some "oak.png") (Some "Forest") (Some 4)]
       ++ mkTileEntry (Some 1) (Some 2) (Some "cave.png") None None :: [])
    = Ok m
    /\ m !! (1, 2) = Some (mkPlacedTile 1 2 "cave.png" "" 0).
Proof.
  apply (load_last_entry_wins
           [mkTileEntry (Some 1) (Some 2) (Some "oak.png") (Some "Forest") (Some 4)]
           [] (mkTileEntry (Some 1) (Some 2) (Some "cave.png") None None)
           1 2 "cave.png"); reflexivity.
Defined.

End LoadFacts.

(** ** What the library holds after [TileLibrary.load] *)

Section LibraryContents.

Local Open Scope string_scope.

(** The folders that feed the tile category, and the overlay category, of
    display name [k]. *)
Definition tile_folder_for (k : string) (d : dir_entry) : bool :=
  qualifies d && negb (_is_overlay_folder (name d))
  && String.eqb (_clean_display_name (name d)) k.

Definition overlay_folder_for (k : string) (d : dir_entry) : bool :=
  qualifies d && _is_overlay_folder (name d)
  && String.eqb (_clean_display_name (name d)) k.

(** The list [load] stores for a folder. *)
Definition tile_infos (root : string) (d : dir_entry) : list TileInfo :=
  (fun p => mkTileInfo (join root (name d) p) (name d) (_clean_display_name (name d)))
    <$> sorted (glob_png d).

Definition overlay_infos (root : string) (d : dir_entry) : list OverlayInfo :=
  (fun p => mkOverlayInfo (join root (name d) p) (name d) (_clean_display_name (name d)))
    <$> sorted (glob_png d).

Lemma load_entry_skips (root : string) (lib : TileLibrary) (d : dir_entry) :
  qualifies d = false -> load_entry root lib d = lib.
Proof.
  unfold qualifies, load_entry. intros Hq.
  destruct (is_dir d); cbn in *; [|done].
  apply negb_false_iff, bool_decide_eq_true_1 in Hq.
  rewrite Hq. reflexivity.
Qed.

Lemma load_entry_stores (root : string) (lib : TileLibrary) (d : dir_entry) :
  qualifies d = true ->
  load_entry root lib d
  = if _is_overlay_folder (name d)
    then mkTileLibrary (categories lib)
           (<[_clean_display_name (name d) := overlay_infos root d]>
              (overlay_categories lib))
    else mkTileLibrary
           (<[_clean_display_name (name d) := tile_infos root d]> (categories lib))
           (overlay_categories lib).
Proof.
  unfold qualifies, load_entry, tile_infos, overlay_infos. intros Hq.
  apply andb_prop in Hq as [-> Hpng]. cbn [negb].
  destruct (sorted (glob_png d)) eqn:Hs; [|reflexivity].
  apply sorted_nil_inv in Hs. rewrite Hs in Hpng.
  by rewrite bool_decide_eq_true_2 in Hpng.
Qed.

Lemma last_filter_cons {A} (f : A -> bool) (x : A) (l : list A) :
  last (List.filter f (x :: l))
  = match last (List.filter f l) with
    | Some y => Some y
    | None => if f x then Some x else None
    end.
Proof.
  cbn. destruct (f x); [|by destruct (last _)].
  rewrite last_cons. reflexivity.
Qed.

Lemma foldl_load_entry_categories (root k : string) (ds : list dir_entry) :
  forall lib,
    categories (foldl (load_entry root) lib ds) !! k
    = match last (List.filter (tile_folder_for k) ds) with
      | Some d => Some (tile_infos root d)
      | None => categories lib !! k
      end.
Proof.
  induction ds as [|d ds IH]; intros lib; [done|].
  cbn [foldl]. rewrite IH, last_filter_cons.
  destruct (last (List.filter (tile_folder_for k) ds)); [done|].
  unfold tile_folder_for.
  destruct (qualifies d) eqn:Hq; cbn [andb].
  - rewrite load_entry_stores by done.
    destruct (_is_overlay_folder (name d)); cbn [negb andb categories]; [done|].
    destruct (String.eqb_spec (_clean_display_name (name d)) k) as [->|Hne].
    + apply lookup_insert_eq.
    + by apply lookup_insert_ne.
  - by rewrite load_entry_skips.
Qed.

Lemma foldl_load_entry_overlays (root k : string) (ds : list dir_entry) :
  forall lib,
    overlay_categories (foldl (load_entry root) lib ds) !! k
    = match last (List.filter (overlay_folder_for k) ds) with
      | Some d => Some (overlay_infos root d)
      | None => overlay_categories lib !! k
      end.
Proof.
  induction ds as [|d ds IH]; intros lib; [done|].
  cbn [foldl]. rewrite IH, last_filter_cons.
  destruct (last (List.filter (overlay_folder_for k) ds)); [done|].
  unfold overlay_folder_for.
  destruct (qualifies d) eqn:Hq; cbn [andb].
  - rewrite load_entry_stores by done.
    destruct (_is_overlay_folder (name d)); cbn [andb overlay_categories]; [|done].
    destruct (String.eqb_spec (_clean_display_name (name d)) k) as [->|Hne].
    + apply lookup_insert_eq.
    + by apply lookup_insert_ne.
  - by rewrite load_entry_skips.
Qed.

Lemma library_lookup (root : string) (entries : list dir_entry) (k : string) :
  let lib := (TileLibrary_load root entries).1 in
  categories lib !! k
  = tile_infos root <$> last (List.filter (tile_folder_for k) (sorted_entries entries))
  /\ overlay_categories lib !! k
     = overlay_infos root
         <$> last (List.filter (overlay_folder_for k) (sorted_entries entries)).
Proof.
  unfold TileLibrary_load. cbn [fst]. split.
  - rewrite foldl_load_entry_categories. cbn [categories].
    destruct (last _); [done|]. apply lookup_empty.
  - rewrite foldl_load_entry_overlays. cbn [overlay_categories].
    destruct (last _); [done|]. apply lookup_empty.
Qed.

(** X6.  After [TileLibrary.load], the tile category of display name [k]
    holds the images, in name order, of the last folder in name order
    that is a directory with a [*.png], has no "overlay" in its name and
    has display name [k]; there is no such category when there is no such
    folder.  The overlay categories are the same with the folders that do
    have "overlay" in their name.  So of two folders with one display name
    only the later one is kept. *)
Theorem library_category (root : string) (entries : list dir_entry) (k : string) :
  let lib := (TileLibrary_load root entries).1 in
  categories lib !! k
  = tile_infos root <$> last (List.filter (tile_folder_for k) (sorted_entries entries))
  /\ overlay_categories lib !! k
     = overlay_infos root
         <$> last (List.filter (overlay_folder_for k) (sorted_entries entries)).
Proof.
  unfold TileLibrary_load. cbn [fst]. split.
  - rewrite foldl_load_entry_categories. cbn [categories].
    destruct (last _); [done|]. apply lookup_empty.
  - rewrite foldl_load_entry_overlays. cbn [overlay_categories].
    destruct (last _); [done|]. apply lookup_empty.
Qed.

Lemma last_filter_Some {A} (f : A -> bool) (l : list A) (x : A) :
  In x l -> f x = true -> is_Some (last (List.filter f l)).
Proof.
  intros Hin Hf.
  assert (Hx : In x (List.filter f l)) by (apply filter_In; auto).
  destruct (List.filter f l) as [|y l'] using rev_ind; [done|].
  rewrite last_snoc. eauto.
Qed.

Lemma last_filter_None {A} (f : A -> bool) (l : list A) :
  (forall x, In x l -> f x = false) -> last (List.filter f l) = None.
Proof.
  intros H. induction l as [|x l IH]; [done|].
  cbn. rewrite (H x) by (by left). apply IH. intros y Hy. apply H. by right.
Qed.

Lemma in_sorted_entries (entries : list dir_entry) (d : dir_entry) :
  In d (sorted_entries entries) <-> d ∈ entries.
Proof.
  rewrite <- list_elem_of_In. unfold sorted_entries.
  by rewrite merge_sort_Permutation.
Qed.

Lemma nonempty_false {A} (m : gmap string A) : nonempty m = false <-> m = ∅.
Proof.
  unfold nonempty. rewrite negb_false_iff. apply bool_decide_eq_true.
Qed.

Lemma library_load_empty (root : string) (entries : list dir_entry) :
  (TileLibrary_load root entries).2 = false ->
  categories (TileLibrary_load root entries).1 = ∅
  /\ overlay_categories (TileLibrary_load root entries).1 = ∅.
Proof.
  unfold TileLibrary_load. cbn [fst snd].
  by rewrite orb_false_iff, !nonempty_false.
Qed.

(** X7.  [TileLibrary.load] returns [False] exactly when no entry of the
    root is a directory holding a [*.png], and then both dictionaries of
    the library are empty. *)
Theorem library_load_reports (root : string) (entries : list dir_entry) :
  let '(lib, ok) := TileLibrary_load root entries in
  (ok = false <-> forall d, d ∈ entries -> qualifies d = false)
  /\ (ok = false -> categories lib = ∅ /\ overlay_categories lib = ∅).
Proof.
  pose proof (library_lookup root entries) as Hcat.
  unfold TileLibrary_load in *. cbn [fst] in Hcat.
  set (lib := foldl (load_entry root) (mkTileLibrary ∅ ∅) (sorted_entries entries)) in *.
  rewrite orb_false_iff, !nonempty_false.
  split; [|tauto]. split.
  - intros [Hc Ho] d Hd.
    destruct (qualifies d) eqn:Hq; [|done]. exfalso.
    apply in_sorted_entries in Hd.
    destruct (Hcat (_clean_display_name (name d))) as [Hk Hk'].
    destruct (_is_overlay_folder (name d)) eqn:Hov.
    + destruct (last_filter_Some
                  (overlay_folder_for (_clean_display_name (name d))) _ d Hd)
        as [d' Hd'].
      { unfold overlay_folder_for. by rewrite Hq, Hov, String.eqb_refl. }
      rewrite Hd', Ho, lookup_empty in Hk'. discriminate.
    + destruct (last_filter_Some
                  (tile_folder_for (_clean_display_name (name d))) _ d Hd)
        as [d' Hd'].
      { unfold tile_folder_for. by rewrite Hq, Hov, String.eqb_refl. }
      rewrite Hd', Hc, lookup_empty in Hk. discriminate.
  - intros Hall. split; apply map_eq; intros k; rewrite lookup_empty;
      destruct (Hcat k) as [Hk Hk'].
    + rewrite Hk, last_filter_None; [done|].
      intros d Hd. apply in_sorted_entries in Hd.
      unfold tile_folder_for. by rewrite (Hall d Hd).
    + rewrite Hk', last_filter_None; [done|].
      intros d Hd. apply in_sorted_entries in Hd.
      unfold overlay_folder_for. by rewrite (Hall d Hd).
Qed.

End LibraryContents.

(** ** The other handlers of [App] *)

Definition set_sel_overlay (cat : option string) (idx : option nat) (a : App) : App :=
  mkApp (library a) (hex_map a) (hex_size a) (cam_x a) (cam_y a) (mode a) (selected_hex a)
        (sel_category a) (sel_tile_idx a) (placement_rot a) cat
        idx (selected_ov_idx a) (_drag_ov_idx a) (_drag_ov_offset a)
        (dialogs a).

Section Actions.

Import PyFloat.
Local Open Scope string_scope.

(** [_set_mode]; the status line, the buttons and the sidebar are widgets. *)
Definition _set_mode (m : mode_t) (self : App) : App :=
  set_selected_ov_idx None (set_selected_hex None (set_mode m self)).

Definition _escape (self : App) : App :=
  match selected_ov_idx self with
  | Some _ => set_selected_ov_idx None self
  | None => _set_mode view self
  end.

(** [_new_map], given the answer to the question it asks. *)
Definition _new_map (yes : bool) (self : App) : App :=
  if yes
  then set_selected_ov_idx None (set_selected_hex None (set_hex_map HexMap_init self))
  else self.

(** [_save_map], given the answer of the file dialog, which is asked only
    when the map has no file path yet, what the file system does with the
    writing, and the order of the tiles in their dictionary. *)
Definition _save_map (chosen : option string) (w : writing) (order : list nat)
    (st : App * disk) : App * disk :=
  let '(self, fs) := st in
  let path :=
    match truthy (filepath (hex_map self)) with
    | Some p => Some p
    | None => chosen
    end in
  match truthy path with
  | None => st
  | Some p =>
      match save w order p (hex_map self, fs) with
      | (Ok _, (hm, fs')) => (set_hex_map hm self, fs')
      | (Raise e, (hm, fs')) => (show (showerror "Save error" e) (set_hex_map hm self), fs')
      end
  end.

Definition _on_release (self : App) : App := set_drag_ov_idx None self.

(** [_on_zoom]: the wheel event carries [delta]. *)
Definition _on_zoom (delta ex ey : Z) : py App unit :=
  _zoom (if (0 <? delta)%Z then 1 else -1) ex ey.

(** [tile.rotation = rot] *)
Definition with_rotation (rot : Z) (t : PlacedTile) : PlacedTile :=
  mkPlacedTile (tile_col t) (tile_row t) (tile_path t) (tile_category t) rot.

Definition _rotate_tile (delta : Z) (self : App) : App :=
  if decide (mode self = place_tile) then
    let rot := ((placement_rot self + delta) mod ROTATIONS)%Z in
    let self := set_placement_rot rot self in
    match selected_hex self with
    | Some hex =>
        match tiles (hex_map self) !! hex with
        | Some t =>
            set_hex_map
              (set_tiles (<[hex := with_rotation rot t]> (tiles (hex_map self)))
                         (hex_map self))
              self
        | None => self
        end
    | None => self
    end
  else self.

Definition _delete_overlay (idx : nat) (self : App) : App :=
  if decide (idx < length (overlays (hex_map self)))%nat then
    set_selected_ov_idx None
      (set_hex_map (set_overlays (delete idx (overlays (hex_map self))) (hex_map self))
                   self)
  else self.

Definition _delete_action (self : App) : App :=
  match mode self, selected_ov_idx self with
  | place_overlay, Some i => _delete_overlay i self
  | _, _ =>
      match selected_hex self with
      | Some hex =>
          match tiles (hex_map self) !! hex with
          | Some _ =>
              set_hex_map (set_tiles (delete hex (tiles (hex_map self))) (hex_map self))
                          self
          | None => self
          end
      | None => self
      end
  end.

(** The pickers of the sidebar. *)
Definition _sel_tile_cat (cat : string) (self : App) : App :=
  set_sel_tile (Some cat) None self.

Definition _sel_tile (idx : nat) (self : App) : App :=
  set_sel_tile (sel_category self) (Some idx) self.

Definition _sel_ov_cat (cat : string) (self : App) : App :=
  set_sel_overlay (Some cat) None self.

Definition _sel_overlay (idx : nat) (self : App) : App :=
  set_sel_overlay (sel_ov_category self) (Some idx) self.

(** [list(d.keys())[0] if d else None] for the two dictionaries [load]
    fills: a dictionary lists its keys in the order in which they were
    first inserted, and [load] inserts in the order of the folders. *)
Definition first_category (entries : list dir_entry) : option string :=
  head ((fun d => _clean_display_name (name d))
          <$> List.filter (fun d => qualifies d && negb (_is_overlay_folder (name d)))
                          (sorted_entries entries)).

Definition first_overlay_category (entries : list dir_entry) : option string :=
  head ((fun d => _clean_display_name (name d))
          <$> List.filter (fun d => qualifies d && _is_overlay_folder (name d))
                          (sorted_entries entries)).

(** [_prompt_folder], given the answer of the folder dialog and the
    entries of the folder chosen. *)
Definition _prompt_folder (chosen : option string) (entries : list dir_entry)
    (self : App) : App :=
  match truthy chosen with
  | None => self
  | Some folder =>
      let '(lib, ok) := TileLibrary_load folder entries in
      let self := set_library lib self in
      if ok then
        set_sel_overlay (first_overlay_category entries) None
          (set_sel_tile (first_category entries) None self)
      else show (showwarning "Nothing found") self
  end.

(** The test of [_overlay_hit] for one overlay. *)
Definition hit_test (self : App) (ex ey : Z) (ov : PlacedOverlay) : result bool :=
  '(hx, hy) ← hex_to_pixel (ov_col ov) (ov_row ov) (hex_size self);
  let cx := (cam_x self + hx + ov_offset_x ov)%float in
  let cy := (cam_y self + hy + ov_offset_y ov)%float in
  fsize ← of_int (hex_size self);
  hw ← int_of_float (fsize * ov_scale ov * 1.2)%float;
  fx ← of_int ex;
  if float_le_int (abs (fx - cx)) hw
  then fy ← of_int ey; Ok (float_le_int (abs (fy - cy)) hw)
  else Ok false.

End Actions.

(** ** Properties of the handlers *)

Section ActionFacts.

Import PyFloat.
Local Open Scope string_scope.

Lemma overlay_hit_from_cons (self : App) (ex ey : Z) (ov : PlacedOverlay)
    (rest : list PlacedOverlay) (i : nat) :
  overlay_hit_from self ex ey (ov :: rest) i
  = inside ← hit_test self ex ey ov;
    if inside : bool then Ok (Some i)
    else overlay_hit_from self ex ey rest (Nat.pred i).
Proof.
  cbn [overlay_hit_from]. unfold hit_test.
  destruct (hex_to_pixel _ _ _) as [[hx hy]|e]; cbn [mbind result_bind]; [|done].
  destruct (of_int (hex_size self)) as [fsize|e]; cbn [mbind result_bind]; [|done].
  destruct (int_of_float _) as [hw|e]; cbn [mbind result_bind]; [|done].
  destruct (of_int ex) as [fx|e]; cbn [mbind result_bind]; [|done].
  destruct (float_le_int _ hw); cbn [mbind result_bind]; [|done].
  destruct (of_int ey) as [fy|e]; cbn [mbind result_bind]; done.
Qed.

Lemma hit_test_set_hex_map (hm : HexMap) (self : App) (ex ey : Z) (ov : PlacedOverlay) :
  hit_test (set_hex_map hm self) ex ey ov = hit_test self ex ey ov.
Proof. reflexivity. Qed.

Lemma overlay_hit_from_set_hex_map (hm : HexMap) (self : App) (ex ey : Z)
    (l : list PlacedOverlay) :
  forall i, overlay_hit_from (set_hex_map hm self) ex ey l i
            = overlay_hit_from self ex ey l i.
Proof.
  induction l as [|o l IH]; intros i; [done|].
  rewrite !overlay_hit_from_cons, hit_test_set_hex_map, IH. reflexivity.
Qed.

Lemma overlay_hit_snoc (self : App) (ex ey : Z) (ovs : list PlacedOverlay)
    (ov : PlacedOverlay) :
  _overlay_hit (set_hex_map (set_overlays (ovs ++ [ov]) (hex_map self)) self) ex ey
  = inside ← hit_test self ex ey ov;
    if inside : bool then Ok (Some (length ovs))
    else _overlay_hit (set_hex_map (set_overlays ovs (hex_map self)) self) ex ey.
Proof.
  unfold _overlay_hit. cbn [hex_map set_hex_map overlays set_overlays].
  rewrite rev_app_distr, length_app. cbn [rev app length].
  rewrite Nat.add_1_r. cbn [Nat.pred].
  rewrite overlay_hit_from_cons, hit_test_set_hex_map.
  by rewrite !overlay_hit_from_set_hex_map.
Qed.

Lemma overlay_hit_as_stored (self : App) (ex ey : Z) :
  _overlay_hit self ex ey
  = _overlay_hit (set_hex_map (set_overlays (overlays (hex_map self)) (hex_map self)) self)
                 ex ey.
Proof. by destruct self as [? [] ? ? ? ? ? ? ? ? ? ? ? ? ? ?]. Qed.

Lemma overlay_hit_spec (self : App) (ex ey : Z) (ovs : list PlacedOverlay) :
  match _overlay_hit (set_hex_map (set_overlays ovs (hex_map self)) self) ex ey with
  | Ok (Some i) =>
      (exists ov, ovs !! i = Some ov /\ hit_test self ex ey ov = Ok true)
      /\ (forall j ov', (i < j)%nat -> ovs !! j = Some ov' ->
            hit_test self ex ey ov' = Ok false)
  | Ok None => forall j ov', ovs !! j = Some ov' -> hit_test self ex ey ov' = Ok false
  | Raise e => exists j ov', ovs !! j = Some ov' /\ hit_test self ex ey ov' = Raise e
  end.
Proof.
  induction ovs as [|ov ovs IH] using rev_ind.
  - cbn. intros j ov' H. by rewrite lookup_nil in H.
  - rewrite overlay_hit_snoc.
    destruct (hit_test self ex ey ov) as [[|]|e] eqn:Hov; cbn [mbind result_bind].
    + split.
      * exists ov. split; [|done]. by rewrite list_lookup_middle.
      * intros j ov' Hj Hl. apply lookup_lt_Some in Hl.
        rewrite length_app in Hl. cbn in Hl. lia.
    + destruct (_overlay_hit _ ex ey) as [[i|]|e].
      * destruct IH as [(o & Ho & Hhit) Hlater]. split.
        -- exists o. split; [|done]. rewrite lookup_app_l; [done|].
           by eapply lookup_lt_Some.
        -- intros j ov' Hj Hl.
           destruct (decide (j < length ovs)%nat) as [Hlt|Hge].
           ++ rewrite lookup_app_l in Hl by done. by eapply Hlater.
           ++ pose proof (lookup_lt_Some _ _ _ Hl) as Hlen.
              rewrite length_app in Hlen. cbn in Hlen.
              assert (j = length ovs) as -> by lia.
              rewrite list_lookup_middle in Hl by done. by inversion Hl; subst.
      * intros j ov' Hl.
        destruct (decide (j < length ovs)%nat) as [Hlt|Hge].
        -- rewrite lookup_app_l in Hl by done. by eapply IH.
        -- pose proof (lookup_lt_Some _ _ _ Hl) as Hlen.
           rewrite length_app in Hlen. cbn in Hlen.
           assert (j = length ovs) as -> by lia.
           rewrite list_lookup_middle in Hl by done. by inversion Hl; subst.
      * destruct IH as (j & ov' & Hl & Hhit). exists j, ov'. split; [|done].
        rewrite lookup_app_l; [done|]. by eapply lookup_lt_Some.
    + exists (length ovs), ov. split; [|done]. by rewrite list_lookup_middle.
Qed.

(** X8.  [_overlay_hit] returns the index of an overlay of the map whose
    test succeeds, and the test fails for every overlay after it in the
    list: of the overlays under the pointer the one drawn last is hit.  It
    returns [None] only when the test fails for every overlay, and it
    raises only what the test of some overlay raises. *)
Theorem overlay_hit_topmost (self : App) (ex ey : Z) :
  let ovs := overlays (hex_map self) in
  match _overlay_hit self ex ey with
  | Ok (Some i) =>
      (exists ov, ovs !! i = Some ov /\ hit_test self ex ey ov = Ok true)
      /\ (forall j ov', (i < j)%nat -> ovs !! j = Some ov' ->
            hit_test self ex ey ov' = Ok false)
  | Ok None => forall j ov', ovs !! j = Some ov' -> hit_test self ex ey ov' = Ok false
  | Raise e => exists j ov', ovs !! j = Some ov' /\ hit_test self ex ey ov' = Raise e
  end.
Proof.
  cbv zeta. rewrite overlay_hit_as_stored. apply overlay_hit_spec.
Qed.

End ActionFacts.

Section ClickFacts.

Import PyFloat.
Local Open Scope string_scope.

Lemma on_click_unfold (ex ey : Z) (self : App) :
  _on_click ex ey self
  = match _to_hex self ex ey with
    | Raise e => (Raise e, self)
    | Ok (col, row) =>
        if decide (mode self = place_overlay)
        then click_overlay ex ey col row self
        else click_tile col row self
    end.
Proof.
  unfold _on_click, mbind, py_bind, read, eval. cbn.
  destruct (_to_hex self ex ey) as [[col row]|e]; cbn; [|done].
  by destruct (decide (mode self = place_overlay)).
Qed.

(** X9.  When a click in place-overlay mode hits no overlay and a catalog
    entry is selected, the editor has, whether or not the redraw that ends
    the handler returns, one overlay more: at the end of the list, on the
    hex under the pointer, with that entry's path, no offset, the rotation
    [0] as an [int] and scale 0.5; that overlay is the selected one, and the
    overlays already there, the tiles and the selected hex are as they
    were. *)
Theorem placing_overlay_appends (self : App) (ex ey col row : Z) (idx : nat)
    (cat : string) (ovs : list OverlayInfo) (info : OverlayInfo) :
  mode self = place_overlay ->
  _to_hex self ex ey = Ok (col, row) ->
  _overlay_hit self ex ey = Ok None ->
  sel_overlay_idx self = Some idx ->
  sel_ov_category self = Some cat -> cat <> "" ->
  overlay_categories (library self) !! cat = Some ovs -> ovs !! idx = Some info ->
  let after := (_on_click ex ey self).2 in
  overlays (hex_map after)
  = (overlays (hex_map self)
     ++ [mkPlacedOverlay col row (oi_path info) 0%float 0%float (Int 0) 0.5%float])%list
  /\ selected_ov_idx after = Some (length (overlays (hex_map self)))
  /\ tiles (hex_map after) = tiles (hex_map self)
  /\ selected_hex after = selected_hex self.
Proof.
  intros Hmode Hhex Hhit Hidx Hcat Hne Hovs Hinfo.
  rewrite on_click_unfold, Hhex.
  destruct (decide (mode self = place_overlay)) as [_|Hn]; [|done].
  unfold click_overlay, mbind, py_bind, read, eval, assign. cbn.
  rewrite Hhit. cbn. rewrite Hidx, Hcat, (truthy_some _ Hne), Hovs. cbn.
  rewrite Hinfo. cbn.
  rewrite length_app. cbn. rewrite Nat.add_1_r. done.
Qed.

(** The editor with the bundle opened and the first entry of "Magic"
    picked in place-overlay mode. *)
Definition overlay_app : App :=
  set_sel_overlay (Some "Magic") (Some 0%nat)
    (set_mode place_overlay
       (set_library (TileLibrary_load "/bundle" bundle).1 App_init)).

Lemma placing_overlay_appends_witness :
  let after := (_on_click 550 380 overlay_app).2 in
  overlays (hex_map after)
  = (overlays (hex_map overlay_app)
     ++ [mkPlacedOverlay 0 0 "/bundle/Magic Overlays/rune.png" 0%float 0%float (Int 0)
                         0.5%float])%list
  /\ selected_ov_idx after = Some (length (overlays (hex_map overlay_app)))
  /\ tiles (hex_map after) = tiles (hex_map overlay_app)
  /\ selected_hex after = selected_hex overlay_app.
Proof.
  apply (placing_overlay_appends overlay_app 550 380 0 0 0%nat "Magic"
           [mkOverlayInfo "/bundle/Magic Overlays/rune.png" magic_folder "Magic"]
           (mkOverlayInfo "/bundle/Magic Overlays/rune.png" magic_folder "Magic"));
    try (vm_compute; reflexivity).
  discriminate.
Defined.

Lemma hit_test_true (self : App) (ex ey : Z) (ov : PlacedOverlay) :
  hit_test self ex ey ov = Ok true ->
  exists hx hy fx fy,
    hex_to_pixel (ov_col ov) (ov_row ov) (hex_size self) = Ok (hx, hy)
    /\ of_int ex = Ok fx /\ of_int ey = Ok fy.
Proof.
  unfold hit_test.
  destruct (hex_to_pixel _ _ _) as [[hx hy]|e]; cbn [mbind result_bind]; [|done].
  destruct (of_int (hex_size self)) as [fsize|e]; cbn [mbind result_bind]; [|done].
  destruct (int_of_float _) as [hw|e]; cbn [mbind result_bind]; [|done].
  destruct (of_int ex) as [fx|e]; cbn [mbind result_bind]; [|done].
  destruct (float_le_int _ hw); cbn [mbind result_bind]; [|done].
  destruct (of_int ey) as [fy|e]; cbn [mbind result_bind]; [|done].
  intros _. by exists hx, hy, fx, fy.
Qed.

Lemma overlay_hit_found (self : App) (ex ey : Z) (i : nat) :
  _overlay_hit self ex ey = Ok (Some i) ->
  exists ov, overlays (hex_map self) !! i = Some ov /\ hit_test self ex ey ov = Ok true.
Proof.
  intros H. rewrite overlay_hit_as_stored in H.
  pose proof (overlay_hit_spec self ex ey (overlays (hex_map self))) as Hspec.
  rewrite H in Hspec. by destruct Hspec.
Qed.

(** X10.  When a click in place-overlay mode hits an overlay, the editor
    has, whether or not the redraw that ends the handler returns, that
    overlay selected and being dragged, the index being one of the list;
    nothing is placed, even with a catalog entry selected: the map is as
    it was. *)
Theorem click_on_overlay_selects (self : App) (ex ey col row : Z) (i : nat) :
  mode self = place_overlay ->
  _to_hex self ex ey = Ok (col, row) ->
  _overlay_hit self ex ey = Ok (Some i) ->
  let after := (_on_click ex ey self).2 in
  hex_map after = hex_map self
  /\ selected_ov_idx after = Some i
  /\ _drag_ov_idx after = Some i
  /\ (i < length (overlays (hex_map self)))%nat.
Proof.
  intros Hmode Hhex Hhit.
  destruct (overlay_hit_found self ex ey i Hhit) as (ov & Hov & Htest).
  destruct (hit_test_true self ex ey ov Htest) as (hx & hy & fx & fy & Hpx & Hx & Hy).
  rewrite on_click_unfold, Hhex.
  destruct (decide (mode self = place_overlay)) as [_|Hn]; [|done].
  unfold click_overlay, mbind, py_bind, read, eval, assign. cbn.
  rewrite Hhit. cbn. rewrite Hov. rewrite Hpx. cbn. rewrite Hx. cbn. rewrite Hy. cbn.
  repeat split. by eapply lookup_lt_Some.
Qed.

(** The editor in place-overlay mode with one overlay on hex (0,0). *)
Definition hit_app : App :=
  set_hex_map (mkHexMap ∅ [new_overlay 0 0 "rune.png"] None) overlay_app.

Lemma click_on_overlay_selects_witness :
  let after := (_on_click 555 385 hit_app).2 in
  hex_map after = hex_map hit_app
  /\ selected_ov_idx after = Some 0%nat
  /\ _drag_ov_idx after = Some 0%nat
  /\ (0 < length (overlays (hex_map hit_app)))%nat.
Proof.
  apply (click_on_overlay_selects hit_app 555 385 0 0 0%nat);
    vm_compute; reflexivity.
Defined.

Lemma click_tile_keeps (col row : Z) (self : App) :
  let after := (click_tile col row self).2 in
  library after = library self /\ hex_size after = hex_size self
  /\ cam_x after = cam_x self /\ cam_y after = cam_y self
  /\ mode after = mode self /\ placement_rot after = placement_rot self.
Proof.
  unfold click_tile, mbind, py_bind, read, assign. cbn.
  destruct (mode self) eqn:Hm; cbn; rewrite ?Hm; try done.
  destruct (sel_tile_idx self) as [idx|]; cbn; rewrite ?Hm; [|done].
  destruct (truthy (sel_category self)) as [cat|]; cbn; rewrite ?Hm; [|done].
  destruct (get (categories (library self) !! cat) [] !! idx) as [t|]; cbn;
    rewrite ?Hm; done.
Qed.

Lemma click_overlay_keeps (ex ey col row : Z) (self : App) :
  let after := (click_overlay ex ey col row self).2 in
  library after = library self /\ hex_size after = hex_size self
  /\ cam_x after = cam_x self /\ cam_y after = cam_y self
  /\ mode after = mode self /\ placement_rot after = placement_rot self
  /\ overlays (hex_map self) `prefix_of` overlays (hex_map after).
Proof.
  unfold click_overlay, mbind, py_bind, read, assign, eval. cbn.
  destruct (_overlay_hit self ex ey) as [[i|]|e]; cbn; [| |done].
  - destruct (overlays (hex_map self) !! i) as [ov|]; cbn; [|done].
    destruct (hex_to_pixel _ _ _) as [[hx hy]|e]; cbn; [|done].
    destruct (of_int ex) as [fx|e]; cbn; [|done].
    destruct (of_int ey) as [fy|e]; cbn; done.
  - destruct (sel_overlay_idx self) as [idx|]; cbn; [|done].
    destruct (truthy (sel_ov_category self)) as [cat|]; cbn; [|done].
    destruct (get (overlay_categories (library self) !! cat) [] !! idx); cbn;
      [|done].
    repeat split. by apply prefix_app_r.
Qed.

(** X11.  A click never removes anything from the map and never moves
    the view: every hex that held a tile still holds one, the overlays
    that were there are still there, in order, at the start of the list,
    and the library, the radius, the camera, the mode and the placement
    rotation are unchanged.  In view mode the map is not changed at all. *)
Theorem click_never_removes (self : App) (ex ey : Z) :
  let after := (_on_click ex ey self).2 in
  (forall k, is_Some (tiles (hex_map self) !! k) -> is_Some (tiles (hex_map after) !! k))
  /\ overlays (hex_map self) `prefix_of` overlays (hex_map after)
  /\ (mode self = view -> hex_map after = hex_map self)
  /\ library after = library self /\ hex_size after = hex_size self
  /\ cam_x after = cam_x self /\ cam_y after = cam_y self
  /\ mode after = mode self /\ placement_rot after = placement_rot self.
Proof.
  rewrite on_click_unfold.
  destruct (_to_hex self ex ey) as [[col row]|e]; [|by cbn].
  destruct (decide (mode self = place_overlay)) as [Hm|Hm].
  - pose proof (click_overlay_keeps ex ey col row self) as (Hl & Hs & Hx & Hy & Hmo & Hr & Hp).
    pose proof (click_overlay_tiles ex ey col row self) as Ht.
    cbv zeta. rewrite Ht. repeat split; try done.
    intros Hv. congruence.
  - pose proof (click_tile_keeps col row self) as (Hl & Hs & Hx & Hy & Hmo & Hr).
    pose proof (click_tile_tiles col row self) as (_ & Hov & Ht).
    cbv zeta in *. rewrite Hov. repeat split; try done.
    + intros k Hk. destruct Ht as [-> | (p & cat & rot & ->)]; [done|].
      destruct (decide (k = (col, row))) as [->|Hne].
      * rewrite lookup_insert_eq. eauto.
      * by rewrite lookup_insert_ne.
    + intros Hv. unfold click_tile, mbind, py_bind, read, assign. cbn.
      rewrite Hv. cbn. by destruct (hex_map self).
Qed.

End ClickFacts.

Section KeyFacts.

Import PyFloat.
Local Open Scope string_scope.

Lemma rotate_tile_unfold (delta : Z) (self : App) :
  mode self = place_tile ->
  _rotate_tile delta self
  = let rot := ((placement_rot self + delta) mod 6)%Z in
    match selected_hex self with
    | Some hex =>
        match tiles (hex_map self) !! hex with
        | Some t =>
            set_hex_map
              (set_tiles (<[hex := with_rotation rot t]> (tiles (hex_map self)))
                         (hex_map self))
              (set_placement_rot rot self)
        | None => set_placement_rot rot self
        end
    | None => set_placement_rot rot self
    end.
Proof.
  intros Hm. unfold _rotate_tile.
  destruct (decide (mode self = place_tile)) as [_|Hn]; [reflexivity|done].
Qed.

Lemma rotate_tile_rot (delta : Z) (self : App) :
  mode self = place_tile ->
  mode (_rotate_tile delta self) = place_tile
  /\ placement_rot (_rotate_tile delta self) = ((placement_rot self + delta) mod 6)%Z
  /\ selected_hex (_rotate_tile delta self) = selected_hex self.
Proof.
  intros Hm. rewrite rotate_tile_unfold by done. cbv zeta.
  destruct (selected_hex self) as [hex|] eqn:Hsel; [|by repeat split].
  destruct (tiles (hex_map self) !! hex); by repeat split.
Qed.

(** X12.  [_rotate_tile] does nothing outside place-tile mode.  In
    place-tile mode the placement rotation becomes the old one plus the
    step, modulo 6, so it lies in 0..5; the tile on the selected hex, if
    there is one, gets that rotation whatever its own rotation was, and
    keeps its hex, path and category; every other tile and the overlays
    are unchanged. *)
Theorem rotate_tile_effects (self : App) (delta : Z) :
  let after := _rotate_tile delta self in
  (mode self <> place_tile -> after = self)
  /\ (mode self = place_tile ->
      (0 <= placement_rot after < 6)%Z
      /\ placement_rot after = ((placement_rot self + delta) mod 6)%Z
      /\ overlays (hex_map after) = overlays (hex_map self)
      /\ (forall hex, selected_hex self = Some hex ->
            tiles (hex_map after) !! hex
            = with_rotation (placement_rot after) <$> tiles (hex_map self) !! hex)
      /\ (forall k, selected_hex self <> Some k ->
            tiles (hex_map after) !! k = tiles (hex_map self) !! k)).
Proof.
  cbv zeta. split.
  - intros Hm. unfold _rotate_tile. by destruct (decide (mode self = place_tile)).
  - intros Hm. destruct (rotate_tile_rot delta self Hm) as (_ & Hrot & _).
    rewrite Hrot. split; [apply Z.mod_pos_bound; lia|]. split; [done|].
    rewrite rotate_tile_unfold by done. cbv zeta.
    destruct (selected_hex self) as [hex|]; cbn.
    + destruct (tiles (hex_map self) !! hex) as [t|] eqn:Ht; cbn.
      * split; [done|]. split.
        -- intros ? [= <-]. rewrite Ht. cbn. apply lookup_insert_eq.
        -- intros k Hk. apply lookup_insert_ne. congruence.
      * split; [done|]. split; [|done]. intros ? [= <-]. by rewrite Ht.
    + split; [done|]. split; [|done]. intros ? [=].
Qed.

Lemma rotate_tile_iter (delta : Z) (n : nat) : forall self,
  mode self = place_tile ->
  mode (Nat.iter n (_rotate_tile delta) self) = place_tile
  /\ placement_rot (Nat.iter n (_rotate_tile delta) self)
     = match n with
       | O => placement_rot self
       | S _ => ((placement_rot self + Z.of_nat n * delta) mod 6)%Z
       end.
Proof.
  induction n as [|n IH]; intros self Hm; [done|].
  change (Nat.iter (S n) (_rotate_tile delta) self)
    with (_rotate_tile delta (Nat.iter n (_rotate_tile delta) self)).
  destruct (IH self Hm) as [Hm' Hr].
  destruct (rotate_tile_rot delta _ Hm') as (Hm'' & Hr' & _).
  split; [done|]. rewrite Hr', Hr.
  destruct n as [|n].
  - f_equal. lia.
  - rewrite Zplus_mod_idemp_l. f_equal. lia.
Qed.

(** X13.  In place-tile mode, with the placement rotation in 0..5 as the
    editor keeps it, six presses of the rotate key bring the placement
    rotation back, and so does a step right followed by a step left. *)
Theorem rotate_tile_cycle (self : App) :
  mode self = place_tile ->
  (0 <= placement_rot self < 6)%Z ->
  placement_rot (Nat.iter 6 (_rotate_tile 1) self) = placement_rot self
  /\ placement_rot (_rotate_tile (-1) (_rotate_tile 1 self)) = placement_rot self
  /\ placement_rot (_rotate_tile 1 (_rotate_tile (-1) self)) = placement_rot self.
Proof.
  intros Hm Hr.
  destruct (rotate_tile_iter 1 6 self Hm) as [_ H6].
  destruct (rotate_tile_rot 1 self Hm) as (Hm1 & Hr1 & _).
  destruct (rotate_tile_rot (-1) self Hm) as (Hm2 & Hr2 & _).
  destruct (rotate_tile_rot (-1) _ Hm1) as (_ & Hr3 & _).
  destruct (rotate_tile_rot 1 _ Hm2) as (_ & Hr4 & _).
  rewrite H6, Hr3, Hr4, Hr1, Hr2.
  assert (Hc : (placement_rot self = 0 \/ placement_rot self = 1
                \/ placement_rot self = 2 \/ placement_rot self = 3
                \/ placement_rot self = 4 \/ placement_rot self = 5)%Z) by lia.
  destruct Hc as [-> | [-> | [-> | [-> | [-> | ->]]]]]; done.
Qed.

Lemma rotate_tile_cycle_witness :
  placement_rot (Nat.iter 6 (_rotate_tile 1) placing_app) = placement_rot placing_app
  /\ placement_rot (_rotate_tile (-1) (_rotate_tile 1 placing_app))
     = placement_rot placing_app
  /\ placement_rot (_rotate_tile 1 (_rotate_tile (-1) placing_app))
     = placement_rot placing_app.
Proof.
  apply (rotate_tile_cycle placing_app); [reflexivity | cbn; lia].
Defined.

Lemma delete_action_cases (self : App) :
  let after := _delete_action self in
  (mode self = place_overlay -> is_Some (selected_ov_idx self) ->
   tiles (hex_map after) = tiles (hex_map self))
  /\ (mode self <> place_overlay \/ selected_ov_idx self = None ->
      overlays (hex_map after) = overlays (hex_map self)
      /\ tiles (hex_map after)
         = match selected_hex self with
           | Some hex => delete hex (tiles (hex_map self))
           | None => tiles (hex_map self)
           end)
  /\ selected_hex after = selected_hex self
  /\ mode after = mode self.
Proof.
  cbv zeta. unfold _delete_action, _delete_overlay.
  split; [|split; [|split]].
  - intros -> [i ->].
    by destruct (decide (i < length (overlays (hex_map self)))%nat).
  - intros Hcase.
    assert (Htile :
      let after :=
        match selected_hex self with
        | Some hex =>
            match tiles (hex_map self) !! hex with
            | Some _ =>
                set_hex_map
                  (set_tiles (delete hex (tiles (hex_map self))) (hex_map self)) self
            | None => self
            end
        | None => self
        end in
      overlays (hex_map after) = overlays (hex_map self)
      /\ tiles (hex_map after)
         = match selected_hex self with
           | Some hex => delete hex (tiles (hex_map self))
           | None => tiles (hex_map self)
           end).
    { cbv zeta. destruct (selected_hex self) as [hex|]; [|done].
      destruct (tiles (hex_map self) !! hex) eqn:Ht; cbn; [done|].
      split; [done|]. by rewrite delete_id. }
    destruct (mode self); try exact Htile.
    destruct (selected_ov_idx self); [|exact Htile].
    destruct Hcase; done.
  - destruct self as [lib hm sz cx cy md sh sc sti pr soc soi sel dr dro dl]; cbn.
    destruct md, sel as [i|]; try (destruct sh as [hex|]; [|done];
                                   destruct (tiles hm !! hex); done).
    by destruct (decide (i < length (overlays hm))%nat).
  - destruct self as [lib hm sz cx cy md sh sc sti pr soc soi sel dr dro dl]; cbn.
    destruct md, sel as [i|]; try (destruct sh as [hex|]; [|done];
                                   destruct (tiles hm !! hex); done).
    by destruct (decide (i < length (overlays hm))%nat).
Qed.

(** X14.  [_delete_action] in place-overlay mode with an overlay
    selected never touches the tiles, even when a hex with a tile is
    selected too; in every other case it leaves the overlays alone and
    empties the selected hex, leaving every other hex as it was. *)
Theorem delete_action_effects (self : App) :
  let after := _delete_action self in
  (mode self = place_overlay -> is_Some (selected_ov_idx self) ->
   tiles (hex_map after) = tiles (hex_map self))
  /\ (mode self <> place_overlay \/ selected_ov_idx self = None ->
      overlays (hex_map after) = overlays (hex_map self)
      /\ tiles (hex_map after)
         = match selected_hex self with
           | Some hex => delete hex (tiles (hex_map self))
           | None => tiles (hex_map self)
           end)
  /\ selected_hex after = selected_hex self
  /\ mode after = mode self.
Proof.
  cbv zeta. unfold _delete_action, _delete_overlay.
  split; [|split; [|split]].
  - intros -> [i ->].
    by destruct (decide (i < length (overlays (hex_map self)))%nat).
  - intros Hcase.
    assert (Htile :
      let after :=
        match selected_hex self with
        | Some hex =>
            match tiles (hex_map self) !! hex with
            | Some _ =>
                set_hex_map
                  (set_tiles (delete hex (tiles (hex_map self))) (hex_map self)) self
            | None => self
            end
        | None => self
        end in
      overlays (hex_map after) = overlays (hex_map self)
      /\ tiles (hex_map after)
         = match selected_hex self with
           | Some hex => delete hex (tiles (hex_map self))
           | None => tiles (hex_map self)
           end).
    { cbv zeta. destruct (selected_hex self) as [hex|]; [|done].
      destruct (tiles (hex_map self) !! hex) eqn:Ht; cbn; [done|].
      split; [done|]. by rewrite delete_id. }
    destruct (mode self); try exact Htile.
    destruct (selected_ov_idx self); [|exact Htile].
    destruct Hcase; done.
  - destruct self as [lib hm sz cx cy md sh sc sti pr soc soi sel dr dro dl]; cbn.
    destruct md, sel as [i|]; try (destruct sh as [hex|]; [|done];
                                   destruct (tiles hm !! hex); done).
    by destruct (decide (i < length (overlays hm))%nat).
  - destruct self as [lib hm sz cx cy md sh sc sti pr soc soi sel dr dro dl]; cbn.
    destruct md, sel as [i|]; try (destruct sh as [hex|]; [|done];
                                   destruct (tiles hm !! hex); done).
    by destruct (decide (i < length (overlays hm))%nat).
Qed.

(** X15.  Outside place-overlay mode, a click followed by Delete leaves
    the hex under the pointer empty and every other hex as it was before
    the click: a tile just placed on an empty hex is taken back, and a
    tile placed over another one does not bring the old one back. *)
Theorem click_then_delete (self : App) (ex ey col row : Z) :
  mode self <> place_overlay ->
  _to_hex self ex ey = Ok (col, row) ->
  let after := _delete_action (_on_click ex ey self).2 in
  tiles (hex_map after) = delete (col, row) (tiles (hex_map self))
  /\ overlays (hex_map after) = overlays (hex_map self)
  /\ (tiles (hex_map self) !! (col, row) = None ->
      tiles (hex_map after) = tiles (hex_map self)).
Proof.
  intros Hmode Hhex. cbv zeta.
  assert (Hclick : (_on_click ex ey self).2 = (click_tile col row self).2).
  { rewrite on_click_unfold, Hhex.
    by destruct (decide (mode self = place_overlay)). }
  rewrite Hclick.
  pose proof (click_tile_keeps col row self) as (_ & _ & _ & _ & Hm & _).
  pose proof (click_tile_tiles col row self) as (_ & Hov & Ht).
  cbv zeta in *.
  assert (Hsel : selected_hex (click_tile col row self).2 = Some (col, row)).
  { unfold click_tile, mbind, py_bind, read, assign. cbn.
    destruct (mode self); cbn; try done.
    destruct (sel_tile_idx self) as [idx|]; cbn; [|done].
    destruct (truthy (sel_category self)) as [cat|]; cbn; [|done].
    destruct (get (categories (library self) !! cat) [] !! idx) as [t|]; cbn; done. }
  destruct (delete_action_cases (click_tile col row self).2) as (_ & Hdel & _).
  cbv zeta in Hdel. destruct Hdel as [Hov' Ht']; [left; congruence|].
  rewrite Hsel in Ht'. rewrite Ht', Hov', Hov.
  assert (Hgoal : delete (col, row) (tiles (hex_map (click_tile col row self).2))
                  = delete (col, row) (tiles (hex_map self))).
  { destruct Ht as [-> | (p & cat & rot & ->)]; [done|]. apply delete_insert_eq. }
  rewrite Hgoal. split; [done|]. split; [done|].
  intros Hnone. by apply delete_id.
Qed.

Lemma click_then_delete_witness :
  let after := _delete_action (_on_click 550 380 placing_app).2 in
  tiles (hex_map after) = delete (0, 0) (tiles (hex_map placing_app))
  /\ overlays (hex_map after) = overlays (hex_map placing_app)
  /\ (tiles (hex_map placing_app) !! (0, 0) = None ->
      tiles (hex_map after) = tiles (hex_map placing_app)).
Proof.
  apply (click_then_delete placing_app 550 380 0 0);
    [discriminate | vm_compute; reflexivity].
Defined.

(** X16.  [_delete_overlay] with an index of the list removes that
    overlay and no other: the overlays before it keep their index, the
    ones after it move down by one, and the selection is cleared; with any
    other index it changes nothing.  In both cases the tiles are untouched
    and the index of the overlay being dragged is left as it was. *)
Theorem delete_overlay_effects (self : App) (idx : nat) :
  let ovs := overlays (hex_map self) in
  let after := _delete_overlay idx self in
  tiles (hex_map after) = tiles (hex_map self)
  /\ _drag_ov_idx after = _drag_ov_idx self
  /\ ((idx < length ovs)%nat ->
      S (length (overlays (hex_map after))) = length ovs
      /\ selected_ov_idx after = None
      /\ (forall j, (j < idx)%nat -> overlays (hex_map after) !! j = ovs !! j)
      /\ (forall j, (idx <= j)%nat -> overlays (hex_map after) !! j = ovs !! S j))
  /\ ((length ovs <= idx)%nat -> after = self).
Proof.
  cbv zeta. unfold _delete_overlay.
  destruct (decide (idx < length (overlays (hex_map self)))%nat) as [Hlt|Hge]; cbn.
  - split; [done|]. split; [done|]. split; [|lia]. intros _.
    split; [rewrite length_delete; [lia | by apply lookup_lt_is_Some_2]|].
    split; [done|]. split.
    + intros j Hj. by apply list_lookup_delete_lt.
    + intros j Hj. by apply list_lookup_delete_ge.
  - split; [done|]. split; [done|]. split; [lia|done].
Qed.

(** X17.  Escape with an overlay selected only clears that selection:
    the mode and the selected hex stay.  Escape with no overlay selected
    goes to view mode and clears the selected hex.  So after two presses
    the editor is in view mode with nothing selected; the map is never
    changed. *)
Theorem escape_twice (self : App) :
  (is_Some (selected_ov_idx self) ->
   mode (_escape self) = mode self
   /\ selected_hex (_escape self) = selected_hex self
   /\ selected_ov_idx (_escape self) = None)
  /\ (selected_ov_idx self = None ->
      mode (_escape self) = view /\ selected_hex (_escape self) = None)
  /\ mode (_escape (_escape self)) = view
  /\ selected_hex (_escape (_escape self)) = None
  /\ selected_ov_idx (_escape (_escape self)) = None
  /\ hex_map (_escape (_escape self)) = hex_map self.
Proof.
  unfold _escape, _set_mode.
  destruct (selected_ov_idx self) as [i|] eqn:Hsel; cbn; rewrite ?Hsel.
  - by repeat split.
  - repeat split; try done; by intros [? [=]].
Qed.

End KeyFacts.

Section FileFacts.

Import PyFloat.
Local Open Scope string_scope.

#[local] Existing Instance keys_agree_dec.

Lemma load_map_after_save (self : App) (fs : disk) (p : string) (order : list nat)
    (redraw : result unit) :
  keys_agree (tiles (hex_map self)) -> p <> "" ->
  filepath (hex_map self) = Some p ->
  _load_map (<[p := Json (to_document order (hex_map self))]> fs) (Some p) redraw self
  = match redraw with
    | Ok _ => self
    | Raise e => show (showerror "Load error" e) self
    end.
Proof.
  intros Hk Hp Hf. unfold _load_map. rewrite (truthy_some _ Hp).
  rewrite load_unfold. unfold json_load. rewrite lookup_insert_eq.
  cbn [get doc_tiles doc_overlays to_document].
  rewrite tiles_round_trip by done. rewrite overlays_round_trip.
  destruct self as [lib [ts os f] sz cx cy md sh sc sti pr soc soi sel dr dro dl].
  cbn in *. subst f. by destruct redraw.
Qed.

Lemma save_map_opens (self : App) (fs : disk) (chosen : option string) (p : string)
    (order : list nat) :
  p <> "" ->
  filepath (hex_map self) = Some p
  \/ (filepath (hex_map self) = None /\ chosen = Some p) ->
  _save_map chosen written order (self, fs)
  = (set_hex_map (set_filepath (Some p) (hex_map self)) self,
     <[p := Json (to_document order (hex_map self))]> fs).
Proof.
  intros Hp Hpath. unfold _save_map.
  destruct Hpath as [Hf | [Hf ->]]; rewrite Hf.
  - rewrite (truthy_some _ Hp). cbv beta iota. by rewrite (truthy_some _ Hp).
  - change (truthy None) with (@None string). cbv beta iota.
    by rewrite (truthy_some _ Hp).
Qed.

(** X18.  For a map whose tiles are stored under their own coordinates.
    When the file takes the text, [_save_map] writes the map to its file
    path when it has one, without asking, and otherwise to the file the
    dialog returns; it records that path, changes nothing else of the
    editor, shows no dialog and touches no other file.  Loading that file
    back leaves the editor exactly as it is when the redraw that follows
    the load returns, and adds one "Load error" dialog and nothing else
    when that redraw raises.  A second save no longer asks and rewrites the
    same file, whatever the order of the tiles then.  When the file does
    not open, [_save_map] shows one "Save error" dialog and does nothing
    else: no file is written and no path recorded; when a write fails after
    the file has opened, the same, but the file is left without JSON. *)
Theorem save_map_then_load (self : App) (fs : disk) (chosen : option string)
    (p : string) (order : list nat) :
  keys_agree (tiles (hex_map self)) ->
  p <> "" ->
  filepath (hex_map self) = Some p
  \/ (filepath (hex_map self) = None /\ chosen = Some p) ->
  (let saved := (_save_map chosen written order (self, fs)).1 in
   let fs' := (_save_map chosen written order (self, fs)).2 in
   saved = set_hex_map (set_filepath (Some p) (hex_map self)) self
   /\ fs' = <[p := Json (to_document order (hex_map self))]> fs
   /\ _load_map fs' (Some p) (Ok tt) saved = saved
   /\ (forall e, _load_map fs' (Some p) (Raise e) saved
                 = show (showerror "Load error" e) saved)
   /\ (forall order',
         _save_map None written order' (saved, fs')
         = (saved, <[p := Json (to_document order' (hex_map self))]> fs)))
  /\ _save_map chosen refused order (self, fs)
     = (show (showerror "Save error" OSError) self, fs)
  /\ _save_map chosen cut_short order (self, fs)
     = (show (showerror "Save error" OSError) self, <[p := NotJson]> fs).
Proof.
  intros Hk Hp Hpath. split.
  - cbv zeta. rewrite (save_map_opens self fs chosen p order Hp Hpath). cbn [fst snd].
    assert (Hdoc : to_document order (hex_map self)
                   = to_document order
                       (hex_map (set_hex_map (set_filepath (Some p) (hex_map self)) self)))
      by reflexivity.
    split; [done|]. split; [done|]. split; [|split].
    + rewrite Hdoc at 1. by rewrite load_map_after_save.
    + intros e. rewrite Hdoc at 1. by rewrite load_map_after_save.
    + intros order'. rewrite (save_map_opens _ _ None p order' Hp) by (by left).
      cbn [hex_map set_hex_map]. rewrite insert_insert_eq.
      by destruct self as [lib [ts os f] sz cx cy md sh sc sti pr soc soi sel dr dro dl].
  - assert (Hsome : truthy match truthy (filepath (hex_map self)) with
                           | Some p0 => Some p0
                           | None => chosen
                           end = Some p).
    { destruct Hpath as [Hf | [Hf ->]]; rewrite Hf.
      - rewrite (truthy_some _ Hp). cbv beta iota. by rewrite (truthy_some _ Hp).
      - change (truthy None) with (@None string). cbv beta iota.
        by rewrite (truthy_some _ Hp). }
    unfold _save_map. rewrite Hsome.
    unfold save, mbind, py_bind, read, eval, assign. cbn.
    split; by destruct self as [lib [ts os f] sz cx cy md sh sc sti pr soc soi sel dr dro dl].
Qed.

Lemma save_map_then_load_witness :
  let self := set_hex_map scenario_map App_init in
  (let saved := (_save_map (Some "map.hexmap") written [] (self, ∅)).1 in
   let fs' := (_save_map (Some "map.hexmap") written [] (self, ∅)).2 in
   saved = set_hex_map (set_filepath (Some "map.hexmap") (hex_map self)) self
   /\ fs' = <["map.hexmap" := Json (to_document [] (hex_map self))]> ∅
   /\ _load_map fs' (Some "map.hexmap") (Ok tt) saved = saved
   /\ (forall e, _load_map fs' (Some "map.hexmap") (Raise e) saved
                 = show (showerror "Load error" e) saved)
   /\ (forall order',
         _save_map None written order' (saved, fs')
         = (saved, <["map.hexmap" := Json (to_document order' (hex_map self))]> ∅)))
  /\ _save_map (Some "map.hexmap") refused [] (self, ∅)
     = (show (showerror "Save error" OSError) self, ∅)
  /\ _save_map (Some "map.hexmap") cut_short [] (self, ∅)
     = (show (showerror "Save error" OSError) self, <["map.hexmap" := NotJson]> ∅).
Proof.
  apply (save_map_then_load (set_hex_map scenario_map App_init) ∅
           (Some "map.hexmap") "map.hexmap" []).
  - apply (bool_decide_unpack _). vm_compute. exact I.
  - discriminate.
  - right. split; reflexivity.
Defined.

Lemma head_filter_Some {A B} (f : A -> bool) (g : A -> B) (l : list A) (k : B) :
  head (g <$> List.filter f l) = Some k ->
  exists x, In x l /\ f x = true /\ g x = k.
Proof.
  destruct (List.filter f l) as [|x l'] eqn:Hl; [done|].
  cbn. intros [= <-]. exists x.
  assert (Hx : In x (List.filter f l)) by (rewrite Hl; by left).
  apply filter_In in Hx as [Hin Hf]. done.
Qed.

Lemma head_filter_None {A B} (f : A -> bool) (g : A -> B) (l : list A) :
  head (g <$> List.filter f l) = None -> forall x, In x l -> f x = false.
Proof.
  intros Hh x Hin. destruct (f x) eqn:Hf; [|done].
  assert (Hx : In x (List.filter f l)) by (apply filter_In; auto).
  by destruct (List.filter f l).
Qed.

Lemma first_category_listed (root : string) (entries : list dir_entry) :
  match first_category entries with
  | Some k => is_Some (categories (TileLibrary_load root entries).1 !! k)
  | None => categories (TileLibrary_load root entries).1 = ∅
  end.
Proof.
  pose proof (library_lookup root entries) as Hcat. cbv zeta in Hcat.
  unfold first_category.
  destruct (head _) as [k|] eqn:Hh.
  - apply head_filter_Some in Hh as (d & Hin & Hf & Hk).
    apply andb_prop in Hf as [Hq Hov].
    destruct (Hcat k) as [-> _].
    destruct (last_filter_Some (tile_folder_for k) _ d Hin) as [d' ->]; [|by eexists].
    unfold tile_folder_for. rewrite Hq, Hov, Hk. by rewrite String.eqb_refl.
  - apply map_eq. intros k. rewrite lookup_empty.
    destruct (Hcat k) as [-> _]. rewrite last_filter_None; [done|].
    intros d Hin. pose proof (head_filter_None _ _ _ Hh d Hin) as Hf.
    unfold tile_folder_for. cbn in Hf.
    destruct (qualifies d); [|done]. cbn in *. by rewrite Hf.
Qed.

Lemma first_overlay_category_listed (root : string) (entries : list dir_entry) :
  match first_overlay_category entries with
  | Some k => is_Some (overlay_categories (TileLibrary_load root entries).1 !! k)
  | None => overlay_categories (TileLibrary_load root entries).1 = ∅
  end.
Proof.
  pose proof (library_lookup root entries) as Hcat. cbv zeta in Hcat.
  unfold first_overlay_category.
  destruct (head _) as [k|] eqn:Hh.
  - apply head_filter_Some in Hh as (d & Hin & Hf & Hk).
    apply andb_prop in Hf as [Hq Hov].
    destruct (Hcat k) as [_ ->].
    destruct (last_filter_Some (overlay_folder_for k) _ d Hin) as [d' ->]; [|by eexists].
    unfold overlay_folder_for. rewrite Hq, Hov, Hk. by rewrite String.eqb_refl.
  - apply map_eq. intros k. rewrite lookup_empty.
    destruct (Hcat k) as [_ ->]. rewrite last_filter_None; [done|].
    intros d Hin. pose proof (head_filter_None _ _ _ Hh d Hin) as Hf.
    unfold overlay_folder_for. cbn in Hf.
    destruct (qualifies d); [|done]. cbn in *. by rewrite Hf.
Qed.

Lemma empty_library_click (self : App) (ex ey : Z) :
  categories (library self) = ∅ -> overlay_categories (library self) = ∅ ->
  hex_map (_on_click ex ey self).2 = hex_map self.
Proof.
  intros Hc Ho. rewrite on_click_unfold.
  destruct (_to_hex self ex ey) as [[col row]|e]; [|done].
  destruct (decide (mode self = place_overlay)) as [Hm|Hm].
  - unfold click_overlay, mbind, py_bind, read, assign, eval. cbn.
    destruct (_overlay_hit self ex ey) as [[i|]|e]; cbn; [| |done].
    + destruct (overlays (hex_map self) !! i) as [ov|]; cbn; [|done].
      destruct (hex_to_pixel _ _ _) as [[hx hy]|e]; cbn; [|done].
      destruct (of_int ex) as [fx|e]; cbn; [|done].
      destruct (of_int ey) as [fy|e]; cbn; done.
    + destruct (sel_overlay_idx self) as [idx|]; cbn; [|done].
      destruct (truthy (sel_ov_category self)) as [cat|]; cbn; [|done].
      by rewrite Ho, lookup_empty.
  - unfold click_tile, mbind, py_bind, read, assign. cbn.
    destruct (mode self); cbn; try done.
    destruct (sel_tile_idx self) as [idx|]; cbn; [|done].
    destruct (truthy (sel_category self)) as [cat|]; cbn; [|done].
    by rewrite Hc, lookup_empty.
Qed.

(** X19.  [_prompt_folder] never changes the map.  When the folder holds
    something it picks as current tile category the first one [load]
    made, the display name of the first folder, in the order of the names,
    that is a directory with an image and is no overlay folder; that is a
    category of the library, and there is none only when the library has
    no tile category.  The same holds of the overlay category with the
    overlay folders.  The two picked entries are cleared.  When the folder
    holds nothing it shows one warning, keeps the four old picks, and
    leaves the library empty: the library loaded before is gone, and a
    click then places nothing. *)
Theorem prompt_folder_effects (self : App) (chosen : option string)
    (entries : list dir_entry) (folder : string) :
  truthy chosen = Some folder ->
  let after := _prompt_folder chosen entries self in
  hex_map after = hex_map self
  /\ library after = (TileLibrary_load folder entries).1
  /\ ((TileLibrary_load folder entries).2 = true ->
      sel_tile_idx after = None /\ sel_overlay_idx after = None
      /\ dialogs after = dialogs self
      /\ sel_category after
         = head ((fun d => _clean_display_name (name d))
                   <$> List.filter
                         (fun d => qualifies d && negb (_is_overlay_folder (name d)))
                         (sorted_entries entries))
      /\ sel_ov_category after
         = head ((fun d => _clean_display_name (name d))
                   <$> List.filter (fun d => qualifies d && _is_overlay_folder (name d))
                                   (sorted_entries entries))
      /\ match sel_category after with
         | Some k => is_Some (categories (library after) !! k)
         | None => categories (library after) = ∅
         end
      /\ match sel_ov_category after with
         | Some k => is_Some (overlay_categories (library after) !! k)
         | None => overlay_categories (library after) = ∅
         end)
  /\ ((TileLibrary_load folder entries).2 = false ->
      library after = mkTileLibrary ∅ ∅
      /\ dialogs after = showwarning "Nothing found" :: dialogs self
      /\ sel_category after = sel_category self
      /\ sel_tile_idx after = sel_tile_idx self
      /\ sel_ov_category after = sel_ov_category self
      /\ sel_overlay_idx after = sel_overlay_idx self
      /\ forall ex ey, hex_map (_on_click ex ey after).2 = hex_map self).
Proof.
  intros Hch. cbv zeta. unfold _prompt_folder. rewrite Hch.
  pose proof (first_category_listed folder entries) as Hfirst.
  pose proof (first_overlay_category_listed folder entries) as Hfirst'.
  pose proof (library_load_empty folder entries) as Hempty.
  destruct (TileLibrary_load folder entries) as [lib ok] eqn:Hload. cbn [fst snd] in *.
  destruct ok; cbn.
  - repeat split; try done.
  - destruct (Hempty eq_refl) as [Hc Ho].
    repeat split; try done.
    + destruct lib as [c o]. cbn in *. by subst.
    + intros ex ey. by rewrite empty_library_click.
Qed.

Lemma prompt_folder_effects_witness :
  let after := _prompt_folder (Some "/bundle") bundle App_init in
  hex_map after = hex_map App_init
  /\ sel_category after = Some "Forest"
  /\ sel_ov_category after = Some "Magic".
Proof.
  destruct (prompt_folder_effects App_init (Some "/bundle") bundle "/bundle" eq_refl)
    as (Hmap & _).
  split; [exact Hmap|]. vm_compute. split; reflexivity.
Defined.

(** X20.  From a radius in 20..160, [n] wheel events with a positive
    [delta] give the radius plus [5 n], capped at 160, and [n] events with
    any other [delta], zero included, give the radius minus [5 n], held at
    20; this holds whether or not the calls return. *)
Theorem zoom_steps (self : App) (delta ex ey : Z) (n : nat) :
  (20 <= hex_size self <= 160)%Z ->
  hex_size (Nat.iter n (fun s => (_on_zoom delta ex ey s).2) self)
  = if (0 <? delta)%Z
    then Z.min 160 (hex_size self + 5 * Z.of_nat n)
    else Z.max 20 (hex_size self - 5 * Z.of_nat n).
Proof.
  intros Hs. induction n as [|n IH].
  - cbn. destruct (0 <? delta)%Z; lia.
  - change (Nat.iter (S n) (fun s => (_on_zoom delta ex ey s).2) self)
      with ((_on_zoom delta ex ey
               (Nat.iter n (fun s => (_on_zoom delta ex ey s).2) self)).2).
    unfold _on_zoom at 1. rewrite zoom_size, IH.
    unfold zoomed_size, MIN_HEX_SIZE, MAX_HEX_SIZE.
    destruct (0 <? delta)%Z; lia.
Qed.

Lemma zoom_steps_witness :
  hex_size (Nat.iter 30 (fun s => (_on_zoom 120 400 300 s).2) App_init)
  = Z.min 160 (hex_size App_init + 5 * Z.of_nat 30).
Proof.
  apply (zoom_steps App_init 120 400 300 30).
  unfold App_init, HEX_SIZE_DEFAULT; cbn; lia.
Defined.

End FileFacts.

(** ** Dragging, panning and the bindings *)

(** What the handlers below can raise besides the exceptions above: an
    index out of range, and a subscript applied to [None]. *)
Inductive raised : Type :=
| IndexError
| TypeError
| Builtin (e : exn).

Definition with_offset_x (v : float) (ov : PlacedOverlay) : PlacedOverlay :=
  mkPlacedOverlay (ov_col ov) (ov_row ov) (ov_path ov) v (ov_offset_y ov)
                  (ov_rotation ov) (ov_scale ov).

Definition with_offset_y (v : float) (ov : PlacedOverlay) : PlacedOverlay :=
  mkPlacedOverlay (ov_col ov) (ov_row ov) (ov_path ov) (ov_offset_x ov) v
                  (ov_rotation ov) (ov_scale ov).

(** [self.hex_map.overlays[i]] after an assignment to one of its attributes. *)
Definition set_overlay (i : nat) (ov : PlacedOverlay) (self : App) : App :=
  set_hex_map (set_overlays (<[i := ov]> (overlays (hex_map self))) (hex_map self)) self.

(** The editor with the two attributes of panning. *)
Record Editor := mkEditor {
  ed_app : App;
  _pan_start_mouse : option (Z * Z);
  _pan_start_cam : option (float * float)
}.

Definition Editor_init : Editor := mkEditor App_init None None.

Definition on_app (f : App -> App) (ed : Editor) : Editor :=
  mkEditor (f (ed_app ed)) (_pan_start_mouse ed) (_pan_start_cam ed).

Section Pointer.

Import PyFloat.
Local Open Scope float_scope.

(** [_on_motion]; [hovered_hex] is only read by the drawing code, so of
    its assignment only the call of [_to_hex], which can raise, is kept.
    The handler returns [None] when it returns. *)
Definition _on_motion (ex ey : Z) (self : App) : option raised * App :=
  match _to_hex self ex ey with
  | Raise e => (Some (Builtin e), self)
  | Ok _ =>
      match _drag_ov_idx self with
      | None => (None, self)
      | Some i =>
          match overlays (hex_map self) !! i with
          | None => (Some IndexError, self)
          | Some ov =>
              match hex_to_pixel (ov_col ov) (ov_row ov) (hex_size self) with
              | Raise e => (Some (Builtin e), self)
              | Ok (hx, hy) =>
                  match of_int ex with
                  | Raise e => (Some (Builtin e), self)
                  | Ok fx =>
                      let ov :=
                        with_offset_x (fx - (cam_x self + hx) - (_drag_ov_offset self).1)
                                      ov in
                      let self1 := set_overlay i ov self in
                      match of_int ey with
                      | Raise e => (Some (Builtin e), self1)
                      | Ok fy =>
                          let ov :=
                            with_offset_y
                              (fy - (cam_y self + hy) - (_drag_ov_offset self).2) ov in
                          (None, set_overlay i ov self1)
                      end
                  end
              end
          end
      end
  end.

Definition _pan_start (ex ey : Z) (ed : Editor) : Editor :=
  mkEditor (ed_app ed) (Some (ex, ey)) (Some (cam_x (ed_app ed), cam_y (ed_app ed))).

(** [start + e - m] with [start] a float and [e], [m] two [int]s. *)
Definition pan_coord (start : float) (e m : Z) : result float :=
  fe ← of_int e;
  fm ← of_int m;
  Ok (start + fe - fm).

Definition _pan_move (ex ey : Z) (ed : Editor) : option raised * Editor :=
  match _pan_start_mouse ed with
  | None => (None, ed)
  | Some (mx, my) =>
      match _pan_start_cam ed with
      | None => (Some TypeError, ed)
      | Some (cx, cy) =>
          match pan_coord cx ex mx with
          | Raise e => (Some (Builtin e), ed)
          | Ok x =>
              let ed := on_app (set_cam_x x) ed in
              match pan_coord cy ey my with
              | Raise e => (Some (Builtin e), ed)
              | Ok y => (None, on_app (set_cam_y y) ed)
              end
          end
      end
  end.

Definition _pan_end (ed : Editor) : Editor :=
  mkEditor (ed_app ed) None (_pan_start_cam ed).

End Pointer.

(** The events the editor binds, with what the dialogs answer, what the
    chosen folder holds, what the file system does with a file to save and
    in which order the tiles are written, and what the redraw after a load
    raises.  [Button_3] stands for the two pan buttons,
    [Key_Right] for the three keys that rotate to the right, [Key_Delete]
    for the two keys that delete; the buttons of the sidebar that rotate,
    scale and remove run the handlers of these keys. *)
Inductive event : Type :=
| Motion (ex ey : Z)
| Button_1 (ex ey : Z)
| ButtonRelease_1
| Button_3 (ex ey : Z)
| B3_Motion (ex ey : Z)
| ButtonRelease_3
| MouseWheel (delta ex ey : Z)
| Button_4 (ex ey : Z)
| Button_5 (ex ey : Z)
| Key_Escape
| Key_Right
| Key_Left
| Key_Delete
| Key_bracketright
| Key_bracketleft
| Key_equal
| Key_minus
| Control_s (chosen : option string) (w : writing) (order : list nat)
| Control_l (chosen : option string) (redraw : result unit)
| Control_n (yes : bool)
| Control_o (chosen : option string) (entries : list dir_entry)
| mode_button (m : mode_t)
| tile_category_tab (cat : string)
| tile_thumb (idx : nat)
| overlay_category_tab (cat : string)
| overlay_thumb (idx : nat)
| delete_overlay_button.

Section Bindings.

Local Open Scope float_scope.

(** The editor and the files after the handler bound to an event has run.
    An exception raised by a handler ends that handler only: the main loop
    reports it and goes on. *)
Definition handle (ev : event) (w : Editor * disk) : Editor * disk :=
  let '(ed, fs) := w in
  match ev with
  | Motion ex ey => (on_app (fun self => (_on_motion ex ey self).2) ed, fs)
  | Button_1 ex ey => (on_app (fun self => (_on_click ex ey self).2) ed, fs)
  | ButtonRelease_1 => (on_app _on_release ed, fs)
  | Button_3 ex ey => (_pan_start ex ey ed, fs)
  | B3_Motion ex ey => ((_pan_move ex ey ed).2, fs)
  | ButtonRelease_3 => (_pan_end ed, fs)
  | MouseWheel delta ex ey => (on_app (fun self => (_on_zoom delta ex ey self).2) ed, fs)
  | Button_4 ex ey => (on_app (fun self => (_zoom 1 ex ey self).2) ed, fs)
  | Button_5 ex ey => (on_app (fun self => (_zoom (-1) ex ey self).2) ed, fs)
  | Key_Escape => (on_app _escape ed, fs)
  | Key_Right => (on_app (_rotate_tile 1) ed, fs)
  | Key_Left => (on_app (_rotate_tile (-1)) ed, fs)
  | Key_Delete => (on_app _delete_action ed, fs)
  | Key_bracketright => (on_app (_rotate_overlay 15) ed, fs)
  | Key_bracketleft => (on_app (_rotate_overlay (-15)) ed, fs)
  | Key_equal => (on_app (_scale_overlay 0.1) ed, fs)
  | Key_minus => (on_app (_scale_overlay (-0.1)) ed, fs)
  | Control_s chosen w order =>
      let '(self, fs') := _save_map chosen w order (ed_app ed, fs) in
      (on_app (fun _ => self) ed, fs')
  | Control_l chosen redraw => (on_app (_load_map fs chosen redraw) ed, fs)
  | Control_n yes => (on_app (_new_map yes) ed, fs)
  | Control_o chosen entries => (on_app (_prompt_folder chosen entries) ed, fs)
  | mode_button m => (on_app (_set_mode m) ed, fs)
  | tile_category_tab cat => (on_app (_sel_tile_cat cat) ed, fs)
  | tile_thumb idx => (on_app (_sel_tile idx) ed, fs)
  | overlay_category_tab cat => (on_app (_sel_ov_cat cat) ed, fs)
  | overlay_thumb idx => (on_app (_sel_overlay idx) ed, fs)
  | delete_overlay_button =>
      match selected_ov_idx (ed_app ed) with
      | Some i => (on_app (_delete_overlay i) ed, fs)
      | None => (ed, fs)
      end
  end.

(** The editor after a sequence of events, from its start. *)
Definition run (evs : list event) (fs : disk) : Editor * disk :=
  foldl (fun w ev => handle ev w) (Editor_init, fs) evs.

End Bindings.

Section PointerFacts.

Import PyFloat.
Local Open Scope float_scope.

Lemma on_motion_cases (ex ey : Z) (self : App) :
  (_on_motion ex ey self).2 = self
  \/ (exists i ov ox oy,
        _drag_ov_idx self = Some i
        /\ overlays (hex_map self) !! i = Some ov
        /\ (_on_motion ex ey self).2
           = set_overlay i (with_offset_y oy (with_offset_x ox ov)) self)
  \/ (exists i ov ox,
        _drag_ov_idx self = Some i
        /\ overlays (hex_map self) !! i = Some ov
        /\ (_on_motion ex ey self).1 = Some (Builtin OverflowError)
        /\ (_on_motion ex ey self).2 = set_overlay i (with_offset_x ox ov) self).
Proof.
  unfold _on_motion.
  destruct (_to_hex self ex ey) as [hex|e]; [|by left].
  destruct (_drag_ov_idx self) as [i|] eqn:Hi; [|by left].
  destruct (overlays (hex_map self) !! i) as [ov|] eqn:Hov; [|by left].
  destruct (hex_to_pixel _ _ _) as [[hx hy]|e]; [|by left].
  destruct (of_int ex) as [fx|e]; [|by left].
  destruct (of_int ey) as [fy|e] eqn:Hy; cbn [snd fst].
  - right. left. exists i, ov. eexists. eexists. split; [done|]. split; [done|].
    unfold set_overlay. cbn. by rewrite list_insert_insert_eq.
  - right. right. exists i, ov. eexists. split; [done|]. split; [done|].
    split; [|done]. unfold of_int in Hy.
    destruct (binary_normalize _ _ _ _ _); by inversion Hy.
Qed.

(** X21.  A mouse motion changes nothing unless an overlay is being
    dragged; while one is dragged it changes the two offsets of that
    overlay and nothing else: its hex, path, rotation and scale, the other
    overlays and their order, the tiles, the selection and the view stay.
    With a drag index that is no longer an index of the list it raises
    [IndexError] and changes nothing. *)
Theorem motion_moves_only_the_dragged (self : App) (ex ey : Z) :
  let after := (_on_motion ex ey self).2 in
  (_drag_ov_idx self = None -> after = self)
  /\ (forall i, _drag_ov_idx self = Some i ->
        (length (overlays (hex_map self)) <= i)%nat ->
        after = self
        /\ ((_on_motion ex ey self).1 = Some IndexError
            \/ exists e, _to_hex self ex ey = Raise e))
  /\ tiles (hex_map after) = tiles (hex_map self)
  /\ filepath (hex_map after) = filepath (hex_map self)
  /\ length (overlays (hex_map after)) = length (overlays (hex_map self))
  /\ (forall j ov, overlays (hex_map self) !! j = Some ov ->
        exists ov', overlays (hex_map after) !! j = Some ov'
                    /\ ov_col ov' = ov_col ov /\ ov_row ov' = ov_row ov
                    /\ ov_path ov' = ov_path ov
                    /\ ov_rotation ov' = ov_rotation ov /\ ov_scale ov' = ov_scale ov
                    /\ (_drag_ov_idx self <> Some j -> ov' = ov))
  /\ set_hex_map (hex_map self) after = self.
Proof.
  cbv zeta. split; [|split].
  - intros Hd. unfold _on_motion. rewrite Hd.
    by destruct (_to_hex self ex ey).
  - intros i Hd Hlen. unfold _on_motion. rewrite Hd.
    rewrite (lookup_ge_None_2 _ _ Hlen).
    destruct (_to_hex self ex ey) as [hex|e]; cbn; [by auto | by eauto].
  - destruct (on_motion_cases ex ey self)
      as [-> | [(i & ov & ox & oy & Hi & Hov & ->) | (i & ov & ox & Hi & Hov & _ & ->)]].
    + repeat split; try done.
      * intros j ov Hj. exists ov. by repeat split.
      * by destruct self.
    + unfold set_overlay. cbn. rewrite length_insert. repeat split; try done.
      * intros j ov0 Hj. destruct (decide (j = i)) as [->|Hne].
        -- rewrite list_lookup_insert_eq by (by eapply lookup_lt_Some).
           eexists. split; [done|]. rewrite Hov in Hj. inversion Hj; subst.
           repeat split; try done; intros Hn; congruence.
        -- rewrite list_lookup_insert_ne by done. exists ov0. by repeat split.
      * by destruct self as [lib [ts os f] sz cx cy md sh sc sti pr soc soi sel dr dro dl].
    + unfold set_overlay. cbn. rewrite length_insert. repeat split; try done.
      * intros j ov0 Hj. destruct (decide (j = i)) as [->|Hne].
        -- rewrite list_lookup_insert_eq by (by eapply lookup_lt_Some).
           eexists. split; [done|]. rewrite Hov in Hj. inversion Hj; subst.
           repeat split; try done; intros Hn; congruence.
        -- rewrite list_lookup_insert_ne by done. exists ov0. by repeat split.
      * by destruct self as [lib [ts os f] sz cx cy md sh sc sti pr soc soi sel dr dro dl].
Qed.

Lemma pan_move_unfold (ex ey : Z) (ed : Editor) (mx my : Z) (cx cy : float) :
  _pan_start_mouse ed = Some (mx, my) -> _pan_start_cam ed = Some (cx, cy) ->
  _pan_move ex ey ed
  = match pan_coord cx ex mx with
    | Raise e => (Some (Builtin e), ed)
    | Ok x =>
        match pan_coord cy ey my with
        | Raise e => (Some (Builtin e), on_app (set_cam_x x) ed)
        | Ok y => (None, on_app (set_cam_y y) (on_app (set_cam_x x) ed))
        end
    end.
Proof. intros Hm Hc. unfold _pan_move. by rewrite Hm, Hc. Qed.

(** X22.  Panning is absolute: after the button went down, a pan motion
    that returns sets the camera to the camera of that moment plus the way
    of the pointer since then, so the editor after two motions is the
    editor after the second one alone.  A pan motion changes only the
    camera, and it changes nothing before the button went down or after it
    went up. *)
Theorem pan_is_absolute (ed : Editor) (sx sy ex1 ey1 ex2 ey2 : Z) :
  let started := _pan_start sx sy ed in
  (_pan_move ex2 ey2 started).1 = None ->
  (_pan_move ex2 ey2 (_pan_move ex1 ey1 started).2).2 = (_pan_move ex2 ey2 started).2
  /\ (exists x y,
        pan_coord (cam_x (ed_app ed)) ex2 sx = Ok x
        /\ pan_coord (cam_y (ed_app ed)) ey2 sy = Ok y
        /\ ed_app (_pan_move ex2 ey2 started).2 = set_cam_y y (set_cam_x x (ed_app ed)))
  /\ (_pan_move ex2 ey2 (_pan_end started)).2 = _pan_end started
  /\ (_pan_start_mouse ed = None -> (_pan_move ex2 ey2 ed).2 = ed).
Proof.
  cbv zeta. intros Hret.
  rewrite (pan_move_unfold ex2 ey2 (_pan_start sx sy ed) sx sy
             (cam_x (ed_app ed)) (cam_y (ed_app ed)) eq_refl eq_refl) in Hret |- *.
  destruct (pan_coord (cam_x (ed_app ed)) ex2 sx) as [x2|e] eqn:Hx2; [|done].
  destruct (pan_coord (cam_y (ed_app ed)) ey2 sy) as [y2|e] eqn:Hy2; [|done].
  split; [|split; [|split]].
  - rewrite (pan_move_unfold ex1 ey1 (_pan_start sx sy ed) sx sy
               (cam_x (ed_app ed)) (cam_y (ed_app ed)) eq_refl eq_refl).
    destruct (pan_coord (cam_x (ed_app ed)) ex1 sx) as [x1|e];
      [destruct (pan_coord (cam_y (ed_app ed)) ey1 sy) as [y1|e]|]; cbn [snd];
      (erewrite (pan_move_unfold ex2 ey2); [|reflexivity|reflexivity]);
      rewrite Hx2, Hy2; reflexivity.
  - by exists x2, y2.
  - reflexivity.
  - intros Hm. unfold _pan_move. by rewrite Hm.
Qed.

Lemma pan_is_absolute_witness :
  let started := _pan_start 100 100 Editor_init in
  (_pan_move 130 90 (_pan_move 500 7 started).2).2 = (_pan_move 130 90 started).2
  /\ cam_x (ed_app (_pan_move 130 90 started).2) = 580%float
  /\ cam_y (ed_app (_pan_move 130 90 started).2) = 370%float.
Proof.
  destruct (pan_is_absolute Editor_init 100 100 500 7 130 90 eq_refl) as (H & _).
  split; [exact H|]. vm_compute. split; reflexivity.
Defined.

End PointerFacts.

Section Invariant.

Import PyFloat.
Local Open Scope float_scope.

(** What holds of the editor in every state it reaches. *)
Definition well_formed (ed : Editor) : Prop :=
  keys_agree (tiles (hex_map (ed_app ed)))
  /\ (0 <= placement_rot (ed_app ed) < 6)%Z
  /\ (20 <= hex_size (ed_app ed) <= 160)%Z
  /\ (hex_size (ed_app ed) mod 5 = 0)%Z
  /\ (is_Some (_pan_start_mouse ed) -> is_Some (_pan_start_cam ed)).

(** A handler that leaves the tiles, the placement rotation and the radius
    as they are. *)
Definition keeps_frame (f : App -> App) : Prop :=
  forall self,
    tiles (hex_map (f self)) = tiles (hex_map self)
    /\ placement_rot (f self) = placement_rot self
    /\ hex_size (f self) = hex_size self.

Lemma on_app_well_formed (f : App -> App) (ed : Editor) :
  (keys_agree (tiles (hex_map (ed_app ed))) -> keys_agree (tiles (hex_map (f (ed_app ed)))))
  -> (0 <= placement_rot (ed_app ed) < 6 -> 0 <= placement_rot (f (ed_app ed)) < 6)%Z
  -> (20 <= hex_size (ed_app ed) <= 160 /\ hex_size (ed_app ed) mod 5 = 0 ->
      20 <= hex_size (f (ed_app ed)) <= 160 /\ hex_size (f (ed_app ed)) mod 5 = 0)%Z
  -> well_formed ed -> well_formed (on_app f ed).
Proof.
  intros Hk Hr Hs (Hk0 & Hr0 & Hs0 & Hm0 & Hp0). unfold well_formed. cbn.
  destruct Hs as [Hs1 Hs2]; [done|]. auto.
Qed.

Lemma keeps_frame_well_formed (f : App -> App) (ed : Editor) :
  keeps_frame f -> well_formed ed -> well_formed (on_app f ed).
Proof.
  intros Hf. destruct (Hf (ed_app ed)) as (Ht & Hr & Hs).
  apply on_app_well_formed; rewrite ?Ht, ?Hr, ?Hs; done.
Qed.

Lemma with_selected_overlay_frame (f : PlacedOverlay -> PlacedOverlay) :
  keeps_frame (with_selected_overlay f).
Proof.
  intros self. unfold with_selected_overlay.
  destruct (selected_ov_idx self) as [i|]; [|done].
  destruct (overlays (hex_map self) !! i); done.
Qed.

Lemma on_motion_frame (ex ey : Z) : keeps_frame (fun self => (_on_motion ex ey self).2).
Proof.
  intros self.
  destruct (on_motion_cases ex ey self)
    as [-> | [(i & ov & ox & oy & _ & _ & ->) | (i & ov & ox & _ & _ & _ & ->)]]; done.
Qed.

Lemma delete_overlay_frame (i : nat) : keeps_frame (_delete_overlay i).
Proof.
  intros self. unfold _delete_overlay.
  by destruct (decide (i < length (overlays (hex_map self)))%nat).
Qed.

Lemma prompt_folder_frame (chosen : option string) (entries : list dir_entry) :
  keeps_frame (_prompt_folder chosen entries).
Proof.
  intros self. unfold _prompt_folder.
  destruct (truthy chosen) as [folder|]; [|done].
  destruct (TileLibrary_load folder entries) as [lib [|]]; done.
Qed.

Lemma escape_frame : keeps_frame _escape.
Proof. intros self. unfold _escape. by destruct (selected_ov_idx self). Qed.

Lemma zoom_keeps (direction ex ey : Z) (self : App) :
  tiles (hex_map (_zoom direction ex ey self).2) = tiles (hex_map self)
  /\ placement_rot (_zoom direction ex ey self).2 = placement_rot self.
Proof.
  unfold _zoom, mbind, py_bind, read, assign, eval. cbn.
  destruct (int_true_div _ _) as [scale|e]; cbn; [|done].
  destruct (of_int ex) as [fx|e]; cbn; [|done].
  destruct (of_int ey) as [fy|e]; cbn; done.
Qed.

Lemma zoom_well_formed (direction ex ey : Z) (ed : Editor) :
  direction = 1%Z \/ direction = (-1)%Z ->
  well_formed ed -> well_formed (on_app (fun self => (_zoom direction ex ey self).2) ed).
Proof.
  intros Hd. destruct (zoom_keeps direction ex ey (ed_app ed)) as [Ht Hr].
  apply on_app_well_formed; rewrite ?Ht, ?Hr, ?zoom_size; try done.
  intros [Hs Hm]. split; [apply zoomed_size_range|].
  pose proof (Z_div_mod_eq_full (hex_size (ed_app ed)) 5) as Hq.
  set (q := (hex_size (ed_app ed) / 5)%Z) in *.
  assert (Hz : (zoomed_size (hex_size (ed_app ed)) direction = 5 * 4
                \/ zoomed_size (hex_size (ed_app ed)) direction = 5 * 32
                \/ zoomed_size (hex_size (ed_app ed)) direction = 5 * (q + 1)
                \/ zoomed_size (hex_size (ed_app ed)) direction = 5 * (q - 1))%Z).
  { unfold zoomed_size, MIN_HEX_SIZE, MAX_HEX_SIZE. lia. }
  destruct Hz as [-> | [-> | [-> | ->]]]; rewrite Z.mul_comm; apply Z.mod_mul; lia.
Qed.

Lemma on_click_frame (ex ey : Z) (self : App) :
  placement_rot (_on_click ex ey self).2 = placement_rot self
  /\ hex_size (_on_click ex ey self).2 = hex_size self.
Proof.
  rewrite on_click_unfold.
  destruct (_to_hex self ex ey) as [[col row]|e]; [|done].
  destruct (decide (mode self = place_overlay)).
  - by pose proof (click_overlay_keeps ex ey col row self) as (_ & -> & _ & _ & _ & -> & _).
  - by pose proof (click_tile_keeps col row self) as (_ & -> & _ & _ & _ & ->).
Qed.

Lemma rotate_tile_keys (delta : Z) (self : App) :
  keys_agree (tiles (hex_map self)) ->
  keys_agree (tiles (hex_map (_rotate_tile delta self))).
Proof.
  intros Hk. unfold _rotate_tile.
  destruct (decide (mode self = place_tile)); [|done]. cbn.
  destruct (selected_hex self) as [hex|]; [|done]. cbn.
  destruct (tiles (hex_map self) !! hex) as [t|] eqn:Ht; [|done]. cbn.
  apply map_Forall_insert_2; [|done]. cbn. by apply (Hk hex t).
Qed.

Lemma rotate_tile_frame (delta : Z) (self : App) :
  hex_size (_rotate_tile delta self) = hex_size self
  /\ ((0 <= placement_rot self < 6)%Z -> (0 <= placement_rot (_rotate_tile delta self) < 6)%Z).
Proof.
  unfold _rotate_tile.
  destruct (decide (mode self = place_tile)); [|done]. cbn.
  assert (Hr : (0 <= (placement_rot self + delta) mod ROTATIONS < 6)%Z)
    by (apply Z.mod_pos_bound; unfold ROTATIONS; lia).
  destruct (selected_hex self) as [hex|]; [|done]. cbn.
  destruct (tiles (hex_map self) !! hex); done.
Qed.

Lemma delete_action_keys (self : App) :
  keys_agree (tiles (hex_map self)) ->
  keys_agree (tiles (hex_map (_delete_action self)))
  /\ placement_rot (_delete_action self) = placement_rot self
  /\ hex_size (_delete_action self) = hex_size self.
Proof.
  intros Hk. unfold _delete_action.
  assert (Htile :
    let after :=
      match selected_hex self with
      | Some hex =>
          match tiles (hex_map self) !! hex with
          | Some _ =>
              set_hex_map
                (set_tiles (delete hex (tiles (hex_map self))) (hex_map self)) self
          | None => self
          end
      | None => self
      end in
    keys_agree (tiles (hex_map after))
    /\ placement_rot after = placement_rot self /\ hex_size after = hex_size self).
  { cbv zeta. destruct (selected_hex self) as [hex|]; [|done].
    destruct (tiles (hex_map self) !! hex); [|done]. cbn.
    split; [|done]. by apply map_Forall_delete. }
  destruct (mode self); try exact Htile.
  destruct (selected_ov_idx self) as [i|]; [|exact Htile].
  destruct (delete_overlay_frame i self) as (-> & -> & ->). done.
Qed.

Lemma load_keeps_keys (fs : disk) (path : string) (hm : HexMap) :
  keys_agree (tiles hm) -> keys_agree (tiles (load fs path hm).2).
Proof.
  rewrite load_unfold. intros H.
  destruct (json_load fs path) as [d|e]; [|done].
  destruct (tiles_of_json (get (doc_tiles d) [])) as [m|e] eqn:Hm; [|done].
  assert (Hk : keys_agree m).
  { apply (store_entries_keys_agree (get (doc_tiles d) []) ∅ m);
      [apply keys_agree_empty | exact Hm]. }
  by destruct (overlays_of_json _).
Qed.

Lemma load_map_keys (fs : disk) (chosen : option string) (redraw : result unit)
    (self : App) :
  keys_agree (tiles (hex_map self)) ->
  keys_agree (tiles (hex_map (_load_map fs chosen redraw self)))
  /\ placement_rot (_load_map fs chosen redraw self) = placement_rot self
  /\ hex_size (_load_map fs chosen redraw self) = hex_size self.
Proof.
  intros Hk. unfold _load_map.
  destruct (truthy chosen) as [path|]; [|done].
  pose proof (load_keeps_keys fs path (hex_map self) Hk) as Hl.
  destruct (load fs path (hex_map self)) as [[[]|e] hm]; [|done].
  by destruct redraw.
Qed.

Lemma save_map_frame (chosen : option string) (w : writing) (order : list nat)
    (self : App) (fs : disk) :
  tiles (hex_map (_save_map chosen w order (self, fs)).1) = tiles (hex_map self)
  /\ placement_rot (_save_map chosen w order (self, fs)).1 = placement_rot self
  /\ hex_size (_save_map chosen w order (self, fs)).1 = hex_size self.
Proof.
  unfold _save_map.
  destruct (truthy match truthy (filepath (hex_map self)) with
                   | Some p => Some p
                   | None => chosen
                   end) as [p|]; [|done].
  by destruct w.
Qed.

Lemma handle_well_formed (ev : event) (ed : Editor) (fs : disk) :
  well_formed ed -> well_formed (handle ev (ed, fs)).1.
Proof.
  intros Hw. destruct ev; cbn [handle fst].
  - apply keeps_frame_well_formed; [apply on_motion_frame | done].
  - destruct (on_click_frame ex ey (ed_app ed)) as [Hr Hs].
    apply on_app_well_formed; rewrite ?Hr, ?Hs; try done.
    apply on_click_keys_agree.
  - by apply keeps_frame_well_formed.
  - destruct Hw as (? & ? & ? & ? & ?). unfold well_formed. cbn. eauto 10.
  - pose proof Hw as (Hk & Hr & Hs & Hm & Hp). unfold _pan_move.
    destruct (_pan_start_mouse ed) as [[mx my]|] eqn:Hmouse; [|exact Hw].
    destruct (_pan_start_cam ed) as [[cx cy]|] eqn:Hcam; [|exact Hw].
    destruct (pan_coord cx ex mx) as [x|e]; [|exact Hw].
    destruct (pan_coord cy ey my) as [y|e]; cbn [snd];
      unfold well_formed; cbn; rewrite Hcam; eauto 10.
  - destruct Hw as (? & ? & ? & ? & ?). unfold well_formed. cbn.
    do 4 (split; [done|]). by intros [? [=]].
  - unfold _on_zoom. apply zoom_well_formed; [|done].
    destruct (0 <? delta)%Z; auto.
  - apply zoom_well_formed; auto.
  - apply zoom_well_formed; auto.
  - apply keeps_frame_well_formed; [apply escape_frame | done].
  - destruct (rotate_tile_frame 1 (ed_app ed)) as [Hs Hr].
    apply on_app_well_formed; rewrite ?Hs; try done. apply rotate_tile_keys.
  - destruct (rotate_tile_frame (-1) (ed_app ed)) as [Hs Hr].
    apply on_app_well_formed; rewrite ?Hs; try done. apply rotate_tile_keys.
  - apply on_app_well_formed; try done.
    + intros Hk. by apply delete_action_keys.
    + destruct Hw as (Hk & _). by destruct (delete_action_keys (ed_app ed) Hk) as (_ & -> & _).
    + destruct Hw as (Hk & _). by destruct (delete_action_keys (ed_app ed) Hk) as (_ & _ & ->).
  - apply keeps_frame_well_formed; [apply with_selected_overlay_frame | done].
  - apply keeps_frame_well_formed; [apply with_selected_overlay_frame | done].
  - apply keeps_frame_well_formed; [apply with_selected_overlay_frame | done].
  - apply keeps_frame_well_formed; [apply with_selected_overlay_frame | done].
  - pose proof (save_map_frame chosen w order (ed_app ed) fs) as (Ht & Hr & Hs).
    destruct (_save_map chosen w order (ed_app ed, fs)) as [self fs']. cbn [fst] in *.
    apply on_app_well_formed; rewrite ?Ht, ?Hr, ?Hs; done.
  - apply on_app_well_formed; try done.
    + intros Hk. by apply load_map_keys.
    + destruct Hw as (Hk & _).
      by destruct (load_map_keys fs chosen redraw (ed_app ed) Hk) as (_ & -> & _).
    + destruct Hw as (Hk & _).
      by destruct (load_map_keys fs chosen redraw (ed_app ed) Hk) as (_ & _ & ->).
  - apply on_app_well_formed; try done; destruct yes; try done;
      intros _; apply keys_agree_empty.
  - apply keeps_frame_well_formed; [apply prompt_folder_frame | done].
  - by apply keeps_frame_well_formed.
  - by apply keeps_frame_well_formed.
  - by apply keeps_frame_well_formed.
  - by apply keeps_frame_well_formed.
  - by apply keeps_frame_well_formed.
  - destruct (selected_ov_idx (ed_app ed)) as [i|]; cbn [fst]; [|done].
    apply keeps_frame_well_formed; [apply delete_overlay_frame | done].
Qed.

Lemma run_snoc (evs : list event) (ev : event) (fs : disk) :
  run (evs ++ [ev]) fs = handle ev (run evs fs).
Proof. unfold run. by rewrite foldl_app. Qed.

Lemma run_well_formed (evs : list event) (fs : disk) : well_formed (run evs fs).1.
Proof.
  induction evs as [|ev evs IH] using rev_ind.
  - unfold run, well_formed. cbn.
    split; [apply keys_agree_empty|]. unfold HEX_SIZE_DEFAULT.
    do 3 (split; [done|]). by intros [? [=]].
  - rewrite run_snoc. destruct (run evs fs) as [ed fs'].
    by apply handle_well_formed.
Qed.

(** X23.  Whatever events the editor receives, whatever the dialogs
    answer and whatever the files hold: every tile of the map is stored
    under the coordinate it records, so no two tiles share a hex; the
    placement rotation is one of 0..5; the hex radius is a multiple of 5
    from 20 to 160; and a pan motion finds the camera of the moment the
    button went down, so it never fails on a missing one. *)
Theorem editor_well_formed (evs : list event) (fs : disk) :
  let ed := (run evs fs).1 in
  keys_agree (tiles (hex_map (ed_app ed)))
  /\ NoDup (tile_coords (tiles (hex_map (ed_app ed))))
  /\ (0 <= placement_rot (ed_app ed) < 6)%Z
  /\ (20 <= hex_size (ed_app ed) <= 160)%Z
  /\ (hex_size (ed_app ed) mod 5 = 0)%Z
  /\ (forall ex ey, (_pan_move ex ey ed).1 <> Some TypeError).
Proof.
  cbv zeta.
  pose proof (run_well_formed evs fs) as Hw.
  destruct Hw as (Hk & Hr & Hs & Hm & Hp).
  split; [done|]. split; [by apply one_tile_per_hex|].
  split; [done|]. split; [done|]. split; [done|].
  intros ex ey. unfold _pan_move.
  destruct (_pan_start_mouse (run evs fs).1) as [[mx my]|]; [|done].
  destruct Hp as [[cx cy] ->]; [by eexists|].
  destruct (pan_coord cx ex mx) as [x|e]; [|done].
  destruct (pan_coord cy ey my) as [y|e]; done.
Qed.

End Invariant.

Section ZoomFacts.

Import PyFloat.
Local Open Scope float_scope.

(** X24.  In every state the editor reaches, a zoom step at a pointer
    whose coordinates are floats runs up to its redraw: the radius is never
    zero, so the quotient of the new and the old radius exists, and no
    statement before the redraw raises.  The editor then has the clamped
    radius and each camera coordinate at [pointer - scale * (pointer - old
    coordinate)], and the map is as it was.  Whether the redraw returns is
    not stated. *)
Theorem zoom_runs_to_its_redraw (evs : list event) (fs : disk) (direction ex ey : Z)
    (fx fy : float) :
  of_int ex = Ok fx -> of_int ey = Ok fy ->
  let self := ed_app (run evs fs).1 in
  exists scale,
    int_true_div (zoomed_size (hex_size self) direction) (hex_size self) = Ok scale
    /\ (_zoom direction ex ey self).2
       = set_cam_y (fy - scale * (fy - cam_y self))
           (set_cam_x (fx - scale * (fx - cam_x self))
              (set_hex_size (zoomed_size (hex_size self) direction) self))
    /\ hex_map (_zoom direction ex ey self).2 = hex_map self.
Proof.
  intros Hx Hy. cbv zeta.
  pose proof (run_well_formed evs fs) as Hw.
  destruct Hw as (_ & _ & Hs & _).
  set (self := ed_app (run evs fs).1) in *.
  destruct (ratio_defined (zoomed_size (hex_size self) direction) (hex_size self)
              (zoomed_size_range _ _) Hs) as [scale Hscale].
  exists scale. split; [exact Hscale|].
  assert (Hz : (_zoom direction ex ey self).2
               = set_cam_y (fy - scale * (fy - cam_y self))
                   (set_cam_x (fx - scale * (fx - cam_x self))
                      (set_hex_size (zoomed_size (hex_size self) direction) self))).
  { unfold _zoom, mbind, py_bind, read, assign, eval. cbn.
    fold (zoomed_size (hex_size self) direction).
    rewrite Hscale. cbn. rewrite Hx. cbn. rewrite Hy. reflexivity. }
  split; [exact Hz|]. by rewrite Hz.
Qed.

Lemma zoom_runs_to_its_redraw_witness :
  let self := ed_app (run [Button_4 400 300; Key_Escape] ∅).1 in
  exists scale,
    int_true_div (zoomed_size (hex_size self) (-1)) (hex_size self) = Ok scale
    /\ (_zoom (-1) 200 100 self).2
       = set_cam_y (100 - scale * (100 - cam_y self))
           (set_cam_x (200 - scale * (200 - cam_x self))
              (set_hex_size (zoomed_size (hex_size self) (-1)) self))
    /\ hex_map (_zoom (-1) 200 100 self).2 = hex_map self.
Proof.
  apply (zoom_runs_to_its_redraw [Button_4 400 300; Key_Escape] ∅ (-1) 200 100 200 100);
    reflexivity.
Defined.

End ZoomFacts.

Section OverlayKeys.

Import PyFloat.
Local Open Scope string_scope.

Lemma with_selected_overlay_each (f : PlacedOverlay -> PlacedOverlay) (self : App) :
  let after := with_selected_overlay f self in
  tiles (hex_map after) = tiles (hex_map self)
  /\ filepath (hex_map after) = filepath (hex_map self)
  /\ length (overlays (hex_map after)) = length (overlays (hex_map self))
  /\ (forall j ov, overlays (hex_map self) !! j = Some ov ->
        overlays (hex_map after) !! j
        = Some (if decide (selected_ov_idx self = Some j) then f ov else ov))
  /\ set_hex_map (hex_map self) after = self.
Proof.
  cbv zeta. unfold with_selected_overlay.
  destruct (selected_ov_idx self) as [i|] eqn:Hsel.
  - destruct (overlays (hex_map self) !! i) as [ov|] eqn:Hov; cbn.
    + rewrite length_insert. repeat split; try done.
      * intros j ov' Hj. destruct (decide (Some i = Some j)) as [[= <-]|Hne].
        -- rewrite list_lookup_insert_eq by (by eapply lookup_lt_Some). congruence.
        -- rewrite list_lookup_insert_ne by congruence. done.
      * by destruct self as [lib [ts os fp] sz cx cy md sh sc sti pr soc soi sel dr dro dl].
    + repeat split; try done.
      * intros j ov' Hj. destruct (decide (Some i = Some j)) as [[= <-]|Hne]; [|done].
        congruence.
      * by destruct self.
  - repeat split; try done;
      first [ by destruct self
            | intros j ov' Hj; by destruct (decide (None = Some j)) ].
Qed.

(** X25.  The keys that rotate and scale an overlay change one attribute
    of one overlay: [_rotate_overlay] changes only the rotation of the
    selected overlay and [_scale_overlay] only its scale; its hex, path and
    offsets, every other overlay, the order and number of the overlays,
    the tiles, the file path and everything of the editor outside the map
    stay as they were.  With no overlay selected, or with a selection that
    is no longer an index of the list, nothing changes. *)
Theorem overlay_keys_change_one_attribute (self : App) :
  (forall delta,
     let after := _rotate_overlay delta self in
     tiles (hex_map after) = tiles (hex_map self)
     /\ length (overlays (hex_map after)) = length (overlays (hex_map self))
     /\ set_hex_map (hex_map self) after = self
     /\ forall j ov, overlays (hex_map self) !! j = Some ov ->
          exists ov', overlays (hex_map after) !! j = Some ov'
                      /\ ov_col ov' = ov_col ov /\ ov_row ov' = ov_row ov
                      /\ ov_path ov' = ov_path ov
                      /\ ov_offset_x ov' = ov_offset_x ov
                      /\ ov_offset_y ov' = ov_offset_y ov
                      /\ ov_scale ov' = ov_scale ov
                      /\ (selected_ov_idx self <> Some j -> ov' = ov))
  /\ (forall delta,
        let after := _scale_overlay delta self in
        tiles (hex_map after) = tiles (hex_map self)
        /\ length (overlays (hex_map after)) = length (overlays (hex_map self))
        /\ set_hex_map (hex_map self) after = self
        /\ forall j ov, overlays (hex_map self) !! j = Some ov ->
             exists ov', overlays (hex_map after) !! j = Some ov'
                         /\ ov_col ov' = ov_col ov /\ ov_row ov' = ov_row ov
                         /\ ov_path ov' = ov_path ov
                         /\ ov_offset_x ov' = ov_offset_x ov
                         /\ ov_offset_y ov' = ov_offset_y ov
                         /\ ov_rotation ov' = ov_rotation ov
                         /\ (selected_ov_idx self <> Some j -> ov' = ov))
  /\ (forall f,
        selected_ov_idx self = None
        \/ (exists i, selected_ov_idx self = Some i
                      /\ (length (overlays (hex_map self)) <= i)%nat) ->
        with_selected_overlay f self = self).
Proof.
  split; [|split].
  - intros delta. cbv zeta. unfold _rotate_overlay.
    destruct (with_selected_overlay_each (rotated delta) self)
      as (Ht & _ & Hlen & Heach & Hrest).
    split; [done|]. split; [done|]. split; [done|].
    intros j ov Hj. rewrite (Heach j ov Hj).
    destruct (decide (selected_ov_idx self = Some j)); eexists;
      [rewrite (rotated_rotation delta ov)|]; by repeat split.
  - intros delta. cbv zeta. unfold _scale_overlay.
    destruct (with_selected_overlay_each (scaled delta) self)
      as (Ht & _ & Hlen & Heach & Hrest).
    split; [done|]. split; [done|]. split; [done|].
    intros j ov Hj. rewrite (Heach j ov Hj).
    destruct (decide (selected_ov_idx self = Some j)); eexists; by repeat split.
  - intros f. apply with_selected_overlay_none.
Qed.

Lemma click_places_overlay (self : App) (ex ey col row : Z) (idx : nat)
    (cat : string) (ovs : list OverlayInfo) (info : OverlayInfo) :
  mode self = place_overlay ->
  _to_hex self ex ey = Ok (col, row) ->
  _overlay_hit self ex ey = Ok None ->
  sel_overlay_idx self = Some idx ->
  sel_ov_category self = Some cat -> cat <> "" ->
  overlay_categories (library self) !! cat = Some ovs -> ovs !! idx = Some info ->
  (_on_click ex ey self).2
  = set_selected_ov_idx (Some (length (overlays (hex_map self))))
      (set_hex_map
         (set_overlays (overlays (hex_map self) ++ [new_overlay col row (oi_path info)])%list
                       (hex_map self))
         self).
Proof.
  intros Hmode Hhex Hhit Hidx Hcat Hne Hovs Hinfo.
  rewrite on_click_unfold, Hhex.
  destruct (decide (mode self = place_overlay)) as [_|Hn]; [|done].
  unfold click_overlay, mbind, py_bind, read, eval, assign. cbn.
  rewrite Hhit. cbn. rewrite Hidx, Hcat, (truthy_some _ Hne), Hovs. cbn.
  rewrite Hinfo. cbn.
  rewrite length_app. cbn. rewrite Nat.add_1_r. done.
Qed.

(** X26.  Delete right after an overlay has been placed takes it back:
    the overlays and the tiles are what they were before the click, and no
    overlay is selected. *)
Theorem place_overlay_then_delete (self : App) (ex ey col row : Z) (idx : nat)
    (cat : string) (ovs : list OverlayInfo) (info : OverlayInfo) :
  mode self = place_overlay ->
  _to_hex self ex ey = Ok (col, row) ->
  _overlay_hit self ex ey = Ok None ->
  sel_overlay_idx self = Some idx ->
  sel_ov_category self = Some cat -> cat <> "" ->
  overlay_categories (library self) !! cat = Some ovs -> ovs !! idx = Some info ->
  let placed := (_on_click ex ey self).2 in
  let after := _delete_action placed in
  length (overlays (hex_map placed)) = S (length (overlays (hex_map self)))
  /\ overlays (hex_map after) = overlays (hex_map self)
  /\ tiles (hex_map after) = tiles (hex_map self)
  /\ selected_ov_idx after = None.
Proof.
  intros Hmode Hhex Hhit Hidx Hcat Hne Hovs Hinfo. cbv zeta.
  rewrite (click_places_overlay self ex ey col row idx cat ovs info) by done.
  unfold _delete_action. cbn [mode set_selected_ov_idx set_hex_map selected_ov_idx].
  rewrite Hmode. unfold _delete_overlay.
  cbn [hex_map set_selected_ov_idx set_hex_map overlays set_overlays].
  rewrite length_app. cbn [length].
  destruct (decide (length (overlays (hex_map self))
                    < length (overlays (hex_map self)) + 1)%nat) as [_|Hn]; [|lia].
  cbn. split; [lia|]. split; [|done].
  rewrite (delete_middle (overlays (hex_map self)) []). apply app_nil_r.
Qed.

Lemma place_overlay_then_delete_witness :
  let placed := (_on_click 550 380 overlay_app).2 in
  let after := _delete_action placed in
  length (overlays (hex_map placed)) = S (length (overlays (hex_map overlay_app)))
  /\ overlays (hex_map after) = overlays (hex_map overlay_app)
  /\ tiles (hex_map after) = tiles (hex_map overlay_app)
  /\ selected_ov_idx after = None.
Proof.
  apply (place_overlay_then_delete overlay_app 550 380 0 0 0%nat "Magic"
           [mkOverlayInfo "/bundle/Magic Overlays/rune.png" magic_folder "Magic"]
           (mkOverlayInfo "/bundle/Magic Overlays/rune.png" magic_folder "Magic"));
    try (vm_compute; reflexivity).
  discriminate.
Defined.

End OverlayKeys.
